(** * Image filter plug-ins (plugins.py): a shallow embedding and its properties

    The Python module works on an image buffer: a list of rows, each a list of
    references to mutable RGB pixel objects.  Filters either re-bind the cells
    of the buffer (flip, transpose, rotate, blur) or mutate the pixel objects
    the cells point to (dered, mono, vignette, pixellate).

    The embedding keeps that distinction.  A [world] holds an object store
    (the pixel objects, addressed by reference) and the image buffer (rows of
    references).  Every filter is a computation in a state-and-exception
    monad over worlds: Python exceptions are outcomes, and the world reached
    when an exception escapes is kept, so that partial effects are visible.

    The debugging printer [display] reads the image and writes lines to the
    console; its computations run over the console beside the world.

    Python floats are IEEE-754 binary64 numbers; they are modelled by the
    primitive floats of the kernel, whose operations are the same
    round-to-nearest-even operations.  The power [x ** 2] of [vignette] is
    the exception: the interpreter leaves it to [pow] of the C library, which
    need not round correctly, so the result of [pow(x, 2.0)] is a parameter
    of [vignette], and the theorems say what they need of it. *)

From Stdlib Require Import ZArith Lia Floats Uint63.
From stdpp Require Import base tactics option list strings.

Set Default Proof Using "Type".
Set Warnings "-inexact-float".
Open Scope Z_scope.

(** ** Pixels, references, worlds *)

(** The pixel class comes from the external introcs package; a pixel object
    has four integer attributes. *)
Record Pixel := RGB { red : Z; green : Z; blue : Z; alpha : Z }.

(** Objects are referred to by their position in the store. *)
Abbreviation ref := nat (only parsing).

Record world := World { heap : list Pixel; image : list (list ref) }.

(** The exceptions the filters can raise.  [DanglingRef] has no Python
    counterpart: it marks a reference outside the store, which a Python
    program cannot build. *)
Inductive exn :=
  | IndexError | ZeroDivisionError | ValueError | OverflowError | DanglingRef.

Inductive outcome (A : Type) :=
  | Done (a : A)
  | Raise (e : exn).
Arguments Done {A} a.
Arguments Raise {A} e.

Definition M (A : Type) : Type := world → outcome A * world.

#[global] Instance M_ret : MRet M := λ A a w, (Done a, w).
#[global] Instance M_bind : MBind M := λ A B k m w,
  match m w with
  | (Done a, w') => k a w'
  | (Raise e, w') => (Raise e, w')
  end.

Definition raise {A} (e : exn) : M A := λ w, (Raise e, w).

Definition lift {A} (e : exn) (o : option A) : M A :=
  match o with Some a => mret a | None => raise e end.

(** A computation that does not touch the world. *)
Definition eval {A} (o : outcome A) : M A := λ w, (o, w).

(** ** Python lists *)

(** [l[i]]: a negative index counts from the end. *)
Definition py_index {A} (l : list A) (i : Z) : option nat :=
  let n := Z.of_nat (length l) in
  if decide (0 ≤ i < n) then Some (Z.to_nat i)
  else if decide (- n ≤ i < 0) then Some (Z.to_nat (n + i))
  else None.

Definition getitem {A} (l : list A) (i : Z) : option A :=
  k ← py_index l i; l !! k.

Definition setitem {A} (l : list A) (i : Z) (x : A) : option (list A) :=
  k ← py_index l i; Some (<[k:=x]> l).

(** [l[i][j]] and [l[i][j] = x] on a list of lists. *)
Definition getitem2 {A} (l : list (list A)) (i j : Z) : option A :=
  row ← getitem l i; getitem row j.

Definition setitem2 {A} (l : list (list A)) (i j : Z) (x : A) : option (list (list A)) :=
  row ← getitem l i; row' ← setitem row j x; setitem l i row'.

Definition len {A} (l : list A) : Z := Z.of_nat (length l).

(** [range(a, b)] and [range(a, b, step)]. *)
Definition range (a b : Z) : list Z := seqZ a (b - a).

Definition range_step (a b step : Z) : option (list Z) :=
  if decide (step = 0) then None
  else if decide (0 < step)
       then Some ((λ k, a + k * step) <$> seqZ 0 ((b - a + step - 1) `div` step))
       else Some ((λ k, a + k * step) <$> seqZ 0 ((a - b - step - 1) `div` (- step))).

(** ** Loops *)

(** [for x in l: body], with the loop-carried local variables in [acc]. *)
Fixpoint fold_for {A B} (l : list A) (acc : B) (body : A → B → M B) : M B :=
  match l with
  | [] => mret acc
  | x :: l' => acc' ← body x acc; fold_for l' acc' body
  end.

Definition for_ {A} (l : list A) (body : A → M unit) : M unit :=
  fold_for l () (λ x _, body x).

(** [[f(x) for x in l]] *)
Fixpoint comprehension {A B} (l : list A) (f : A → M B) : M (list B) :=
  match l with
  | [] => mret []
  | x :: l' => y ← f x; ys ← comprehension l' f; mret (y :: ys)
  end.

(** ** Primitive operations on the image buffer and the store *)

Definition get_image : M (list (list ref)) := λ w, (Done (image w), w).
Definition put_image (img : list (list ref)) : M unit :=
  λ w, (Done (), World (heap w) img).

(** [len(image)] *)
Definition len_image : M Z := img ← get_image; mret (len img).
(** [image[i]] *)
Definition image_row (i : Z) : M (list ref) :=
  img ← get_image; lift IndexError (getitem img i).
(** [image[i][j]] *)
Definition image_get (i j : Z) : M ref :=
  img ← get_image; lift IndexError (getitem2 img i j).
(** [image[i][j] = x] *)
Definition image_set (i j : Z) (x : ref) : M unit :=
  img ← get_image; img' ← lift IndexError (setitem2 img i j x); put_image img'.
(** [image.clear()] and [image.append(row)] *)
Definition image_clear : M unit := put_image [].
Definition image_append (row : list ref) : M unit :=
  img ← get_image; put_image (img ++ [row]).

(** Reading the attributes of a pixel object, writing one attribute, and
    building a new object. *)
Definition load (x : ref) : M Pixel := λ w,
  match heap w !! x with
  | Some p => (Done p, w)
  | None => (Raise DanglingRef, w)
  end.

Definition update (f : Pixel → Pixel) (x : ref) : M unit := λ w,
  match heap w !! x with
  | Some p => (Done (), World (<[x := f p]> (heap w)) (image w))
  | None => (Raise DanglingRef, w)
  end.

Definition set_red (x : ref) (v : Z) : M unit :=
  update (λ p, RGB v (green p) (blue p) (alpha p)) x.
Definition set_green (x : ref) (v : Z) : M unit :=
  update (λ p, RGB (red p) v (blue p) (alpha p)) x.
Definition set_blue (x : ref) (v : Z) : M unit :=
  update (λ p, RGB (red p) (green p) v (alpha p)) x.
Definition set_alpha (x : ref) (v : Z) : M unit :=
  update (λ p, RGB (red p) (green p) (blue p) v) x.

Definition new_RGB (r g b a : Z) : M ref := λ w,
  (Done (length (heap w)), World (heap w ++ [RGB r g b a]) (image w)).

(** [a // b] on integers *)
Definition floordiv (a b : Z) : M Z :=
  if decide (b = 0) then raise ZeroDivisionError else mret (a `div` b).

(** ** Python floats *)

(** The binary64 number nearest to the integer [z], ties to even. *)
Definition nearest_float (z : Z) : float :=
  SF2Prim (binary_normalize prec emax z 0 false).

(** [float(z)], implicit when an integer meets a float: an integer that
    rounds beyond the largest finite number cannot be converted. *)
Definition py_float (z : Z) : outcome float :=
  let x := nearest_float z in
  if PrimFloat.is_infinity x then Raise OverflowError else Done x.

(** The integer part of a finite number, rounded towards zero. *)
Definition truncate (x : spec_float) : option Z :=
  match x with
  | S754_zero _ => Some 0
  | S754_finite s m e =>
      Some (cond_Zopp s (match e with
                         | Zneg k => Z.shiftr (Zpos m) (Zpos k)
                         | _ => Z.shiftl (Zpos m) e
                         end))
  | _ => None
  end.

(** [int(x)] *)
Definition py_int (x : float) : outcome Z :=
  match truncate (Prim2SF x) with
  | Some z => Done z
  | None => if PrimFloat.is_nan x then Raise ValueError else Raise OverflowError
  end.

(** [x / y] on floats *)
Definition py_truediv (x y : float) : outcome float :=
  if PrimFloat.is_zero y then Raise ZeroDivisionError else Done (x / y)%float.

(** What a function of the C library reports beside its result. *)
Inductive errno := ENONE | ERANGE | EDOM.

(** [x ** 2] on floats.  The interpreter converts the exponent to 2.0 and
    settles NaN, the infinities, zero and one itself; every other number
    goes, without its sign, to [pow] of the platform's C library, whose
    result need not be the correctly rounded square.  [pow2 x] stands for the
    result of [pow(x, 2.0)] and the error it reports: it is a parameter.  An
    infinite result is a range error, a range error with result zero is none,
    and a remaining range error is an OverflowError. *)
Definition py_square (pow2 : float → float * errno) (x : float) : outcome float :=
  if PrimFloat.is_nan x then Done x
  else if PrimFloat.is_infinity x then Done infinity
  else if PrimFloat.is_zero x then Done 0%float
  else
    let iv := if (x <? 0)%float then (- x)%float else x in
    if (iv =? 1)%float then Done 1%float
    else
      let '(ix, e) := pow2 iv in
      match e with
      | ENONE => if PrimFloat.is_infinity ix then Raise OverflowError else Done ix
      | ERANGE => if PrimFloat.is_zero ix then Done ix else Raise OverflowError
      | EDOM => Raise ValueError
      end.

(** [math.sqrt(z)] for an integer [z] *)
Definition math_sqrt (z : Z) : outcome float :=
  match py_float z with
  | Done x => if decide (z < 0) then Raise ValueError else Done (PrimFloat.sqrt x)
  | Raise e => Raise e
  end.

(** ** The geometric filters *)

Definition flip (vertical : bool) : M bool :=
  height ← len_image;
  row0 ← image_row 0;
  let width := len row0 in
  original_image ← get_image;
  (if vertical then
     for_ (range 0 height) (λ row,
       for_ (range 0 width) (λ col,
         x ← lift IndexError (getitem2 original_image (height - 1 - row) col);
         image_set row col x))
   else
     for_ (range 0 height) (λ row,
       for_ (range 0 width) (λ col,
         x ← lift IndexError (getitem2 original_image row (width - 1 - col));
         image_set row col x)));;
  mret true.

Definition transpose : M bool :=
  original_height ← len_image;
  row0 ← image_row 0;
  let original_width := len row0 in
  transposed_image ←
    comprehension (range 0 original_width) (λ col,
      comprehension (range 0 original_height) (λ row, image_get row col));
  image_clear;;
  for_ (range 0 original_width) (λ row,
    new_row ← comprehension (range 0 original_height) (λ col,
                 lift IndexError (getitem2 transposed_image row col));
    image_append new_row);;
  mret true.

Definition rotate (right : bool) : M bool :=
  original_height ← len_image;
  row0 ← image_row 0;
  (if right then flip true;; transpose;; mret ()
   else transpose;; flip true;; mret ());;
  mret true.


(** ** The colour filters *)

Definition dered : M bool :=
  height ← len_image;
  row0 ← image_row 0;
  let width := len row0 in
  for_ (range 0 height) (λ row,
    for_ (range 0 width) (λ col,
      pixel ← image_get row col;
      set_red pixel 0));;
  mret true.

Definition mono (sepia : bool) : M bool :=
  img ← get_image;
  for_ img (λ row,
    for_ row (λ pixel,
      p ← load pixel;
      r ← eval (py_float (red p));
      g ← eval (py_float (green p));
      b ← eval (py_float (blue p));
      brightness ← eval (py_int (0.3 * r + 0.6 * g + 0.1 * b)%float);
      let v := Z.min brightness 255 in
      set_red pixel v;; set_green pixel v;; set_blue pixel v;;
      if sepia then
        y ← eval (py_float brightness);
        g' ← eval (py_int (0.6 * y)%float);
        set_green pixel (Z.min g' 255);;
        b' ← eval (py_int (0.4 * y)%float);
        set_blue pixel (Z.min b' 255)
      else mret ()));;
  mret true.

Definition vignette (pow2 : float → float * errno) : M bool :=
  height ← len_image;
  row0 ← image_row 0;
  let width := len row0 in
  let center_row := height `div` 2 in
  let center_col := width `div` 2 in
  half_diagonal ← eval (math_sqrt (center_row ^ 2 + center_col ^ 2));
  for_ (range 0 height) (λ row,
    for_ (range 0 width) (λ col,
      distance ← eval (math_sqrt ((row - center_row) ^ 2 + (col - center_col) ^ 2));
      q ← eval (py_truediv distance half_diagonal);
      q2 ← eval (py_square pow2 q);
      let vignette_factor := (1 - q2)%float in
      pixel ← image_get row col;
      p ← load pixel;
      if decide (alpha p < 255) then
        r ← eval (py_float (red p));
        r' ← eval (py_int (r * vignette_factor)%float);
        set_red pixel r';;
        p ← load pixel;
        g ← eval (py_float (green p));
        g' ← eval (py_int (g * vignette_factor)%float);
        set_green pixel g';;
        p ← load pixel;
        b ← eval (py_float (blue p));
        b' ← eval (py_int (b * vignette_factor)%float);
        set_blue pixel b'
      else mret ()));;
  mret true.
(** ** The area filters *)

Definition blur (radius : Z) : M bool :=
  height ← len_image;
  row0 ← image_row 0;
  let width := len row0 in
  blurred_image ←
    comprehension (range 0 height) (λ _,
      comprehension (range 0 width) (λ _, new_RGB 0 0 0 0));
  blurred_image ←
    fold_for (range 0 height) blurred_image (λ row blurred_image,
      fold_for (range 0 width) blurred_image (λ col blurred_image,
        '(total_red, total_green, total_blue, total_alpha, count) ←
          fold_for (range (- radius) (radius + 1)) (0, 0, 0, 0, 0) (λ i acc,
            fold_for (range (- radius) (radius + 1)) acc
              (λ j '(total_red, total_green, total_blue, total_alpha, count),
                let new_row := Z.max 0 (Z.min (row + i) (height - 1)) in
                let new_col := Z.max 0 (Z.min (col + j) (width - 1)) in
                pixel ← image_get new_row new_col;
                p ← load pixel;
                mret (total_red + red p, total_green + green p,
                      total_blue + blue p, total_alpha + alpha p, count + 1)));
        average_red ← floordiv total_red count;
        average_green ← floordiv total_green count;
        average_blue ← floordiv total_blue count;
        average_alpha ← floordiv total_alpha count;
        x ← new_RGB average_red average_green average_blue average_alpha;
        lift IndexError (setitem2 blurred_image row col x)));
  for_ (range 0 height) (λ row,
    for_ (range 0 width) (λ col,
      x ← lift IndexError (getitem2 blurred_image row col);
      image_set row col x));;
  mret true.

Definition pixellate (step : Z) : M bool :=
  height ← len_image;
  row0 ← image_row 0;
  let width := len row0 in
  rows ← lift ValueError (range_step 0 height step);
  for_ rows (λ row,
    cols ← lift ValueError (range_step 0 width step);
    for_ cols (λ col,
      '(avg_red, avg_green, avg_blue, avg_alpha, count) ←
        fold_for (range 0 (Z.min step (height - row))) (0, 0, 0, 0, 0) (λ i acc,
          fold_for (range 0 (Z.min step (width - col))) acc
            (λ j '(avg_red, avg_green, avg_blue, avg_alpha, count),
              pixel ← image_get (row + i) (col + j);
              p ← load pixel;
              mret (avg_red + red p, avg_green + green p,
                    avg_blue + blue p, avg_alpha + alpha p, count + 1)));
      avg_red ← floordiv avg_red count;
      avg_green ← floordiv avg_green count;
      avg_blue ← floordiv avg_blue count;
      avg_alpha ← floordiv avg_alpha count;
      for_ (range 0 (Z.min step (height - row))) (λ i,
        for_ (range 0 (Z.min step (width - col))) (λ j,
          pixel ← image_get (row + i) (col + j);
          set_red pixel avg_red;;
          set_green pixel avg_green;;
          set_blue pixel avg_blue;;
          set_alpha pixel avg_alpha))));;
  mret true.

(** ** The plug-in table *)

Inductive filter :=
  | Dered
  | Mono (sepia : bool)
  | Flip (vertical : bool)
  | Transpose
  | Rotate (right : bool)
  | Vignette
  | Blur (radius : Z)
  | Pixellate (step : Z).

Definition run_filter (pow2 : float → float * errno) (f : filter) : M bool :=
  match f with
  | Dered => dered
  | Mono sepia => mono sepia
  | Flip vertical => flip vertical
  | Transpose => transpose
  | Rotate to_right => rotate to_right
  | Vignette => vignette pow2
  | Blur radius => blur radius
  | Pixellate step => pixellate step
  end.

(** ** Vocabulary of the specification *)

(** *** Rectangular tables *)

Section tables.
Context {A : Type}.

(** [t] has [h] rows of [w] cells each. *)
Definition rect (h w : nat) (t : list (list A)) : Prop :=
  length t = h ∧ Forall (λ row, length row = w) t.

(** The cell at row [r], column [c] ([d] outside the table). *)
Definition cell (d : A) (t : list (list A)) (r c : nat) : A :=
  default d (t !! r ≫= (.!! c)).

(** The [h] by [w] table whose cell at [(r, c)] is [G r c]. *)
Definition tabulate (h w : nat) (G : nat → nat → A) : list (list A) :=
  (λ r, G r <$> seq 0 w) <$> seq 0 h.

End tables.

(** *** Well-formed grids *)

(** A channel is an 8-bit unsigned value. *)
Definition pixel_ok (p : Pixel) : Prop :=
  (0 ≤ red p ≤ 255) ∧ (0 ≤ green p ≤ 255) ∧ (0 ≤ blue p ≤ 255) ∧ (0 ≤ alpha p ≤ 255).

(** The references held by the cells of the image, row by row. *)
Definition refs (wd : world) : list ref := concat (image wd).

(** An [h] by [w] grid: at least one row and one column, all rows of the
    same length, every cell holding a pixel object of its own, with channels
    in range. *)
Definition well_formed (h w : nat) (wd : world) : Prop :=
  (0 < h)%nat ∧ (0 < w)%nat ∧ rect h w (image wd) ∧
  NoDup (refs wd) ∧
  Forall (λ x, ∃ p, heap wd !! x = Some p ∧ pixel_ok p) (refs wd).

(** Every cell of the image refers to an object of the store, as in any
    state a Python program can reach. *)
Definition allocated (wd : world) : Prop :=
  Forall (λ x, is_Some (heap wd !! x)) (refs wd).

(** The pixel seen at row [r], column [c]. *)
Definition pixel_at (wd : world) (r c : nat) : option Pixel :=
  x ← image wd !! r ≫= (.!! c); heap wd !! x.

Definition pixel_of (wd : world) (r c : Z) : Pixel :=
  default (RGB 0 0 0 0) (pixel_at wd (Z.to_nat r) (Z.to_nat c)).

(** [wd'] shows the same grid as [wd]: the same objects in the same cells,
    and every object of [wd] with the attributes it had. *)
Definition grid_unmodified (wd wd' : world) : Prop :=
  image wd' = image wd ∧ heap wd `prefix_of` heap wd'.

(** *** The geometric filters *)

Definition flip_cells (vertical : bool) (h w : nat) (img : list (list ref)) :=
  if vertical then tabulate h w (λ r c, cell 0%nat img (h - 1 - r) c)
  else tabulate h w (λ r c, cell 0%nat img r (w - 1 - c)).

Definition transpose_cells (h w : nat) (img : list (list ref)) :=
  tabulate w h (λ r c, cell 0%nat img c r).

(** A quarter turn of an [h] by [w] table, to the left or to the right. *)
Definition rotate_cells (to_right : bool) (h w : nat) (img : list (list ref)) :=
  if to_right then tabulate w h (λ r c, cell 0%nat img (h - 1 - c) r)
  else tabulate w h (λ r c, cell 0%nat img c (w - 1 - r)).

(** *** Pixel-wise updates of the store *)

(** Apply [f] to the objects [l] refers to, in turn. *)
Definition heap_map (f : Pixel → Pixel) (l : list ref) (hp : list Pixel) : list Pixel :=
  foldl (λ hp x, alter f x hp) hp l.

(** *** Sample grids *)

(** The world in which the cells of an [h] by [w] grid hold, row by row, the
    pixel objects [pixels]. *)
Definition grid_of (h w : nat) (pixels : list Pixel) : world :=
  World pixels (tabulate h w (λ r c, (r * w + c)%nat)).

Definition sample_2x3 : world :=
  grid_of 2 3 [RGB 200 100 50 255; RGB 1 1 1 7; RGB 0 2 0 9;
               RGB 12 34 56 78; RGB 255 255 255 255; RGB 0 0 0 0].

(** *** Monochrome *)

(** The value [mono] computes for [brightness]: the binary64 evaluation of
    [0.3 * red + 0.6 * green + 0.1 * blue], from left to right, cut to an
    integer. *)
Definition brightness (r g b : Z) : Z :=
  match py_int (0.3 * nearest_float r + 0.6 * nearest_float g + 0.1 * nearest_float b)%float with
  | Done k => k
  | Raise _ => 0
  end.

(** [int(c * k)] for a float constant [c]. *)
Definition tone (c : float) (k : Z) : Z :=
  match py_int (c * nearest_float k)%float with
  | Done z => z
  | Raise _ => 0
  end.

(** What [mono] does to one pixel. *)
Definition mono_pixel (sepia : bool) (p : Pixel) : Pixel :=
  let k := brightness (red p) (green p) (blue p) in
  if sepia
  then RGB (Z.min k 255) (Z.min (tone 0.6 k) 255) (Z.min (tone 0.4 k) 255) (alpha p)
  else RGB (Z.min k 255) (Z.min k 255) (Z.min k 255) (alpha p).

(** The floor of the exact value of [0.3 * r + 0.6 * g + 0.1 * b]. *)
Definition exact_brightness (r g b : Z) : Z := (3 * r + 6 * g + b) `div` 10.

(** The same, with the brightness the specification words: the floor of the
    exact value. *)
Definition mono_pixel_exact (sepia : bool) (p : Pixel) : Pixel :=
  let k := Z.min (exact_brightness (red p) (green p) (blue p)) 255 in
  if sepia
  then RGB k (Z.min ((6 * k) `div` 10) 255) (Z.min ((4 * k) `div` 10) 255) (alpha p)
  else RGB k k k (alpha p).

(** Two worlds show the same pixel values in every cell of an [h] by [w]
    grid. *)
Definition same_pixels (h w : nat) (wd1 wd2 : world) : Prop :=
  ∀ r c, (r < h)%nat → (c < w)%nat → pixel_at wd1 r c = pixel_at wd2 r c.

(** Idempotence of [mono], as the specification words it. *)
Definition mono_idempotent (sepia : bool) : Prop :=
  ∀ h w wd, well_formed h w wd →
    ∃ wd1 wd2, mono sepia wd = (Done true, wd1) ∧
               (mono sepia ;; mono sepia) wd = (Done true, wd2) ∧
               same_pixels h w wd1 wd2.

(** The body of the loops of [mono], on one pixel object. *)
Definition mono_body (sepia : bool) (pixel : ref) : M unit :=
  p ← load pixel;
  r ← eval (py_float (red p));
  g ← eval (py_float (green p));
  b ← eval (py_float (blue p));
  brightness ← eval (py_int (0.3 * r + 0.6 * g + 0.1 * b)%float);
  let v := Z.min brightness 255 in
  set_red pixel v;; set_green pixel v;; set_blue pixel v;;
  if sepia then
    y ← eval (py_float brightness);
    g' ← eval (py_int (0.6 * y)%float);
    set_green pixel (Z.min g' 255);;
    b' ← eval (py_int (0.4 * y)%float);
    set_blue pixel (Z.min b' 255)
  else mret ().

(** The grey levels [k] at which [0.3 * k + 0.6 * k + 0.1 * k] evaluates to
    a binary64 number just below [k]. *)
Definition grey_drift : list Z :=
  [1; 2; 4; 8; 11; 16; 22; 27; 32; 39; 44; 49; 54; 59; 64; 73; 78; 83;
   88; 93; 98; 103; 108; 113; 118; 123; 128; 146; 151; 156; 161; 166;
   171; 176; 181; 186; 191; 196; 201; 206; 211; 216; 221; 226; 231; 236;
   241; 246; 251].

(** *** Checking the brightness of every colour *)

(** The channel values. *)
Definition channel_values : list Z := seqZ 0 256.

(** The integer part of a non-negative binary64 number below [2 ^ 53], on
    machine integers: the mantissa shifted by the exponent. *)
Definition trunc63 (s : float) : option int :=
  if PrimFloat.is_nan s || PrimFloat.is_infinity s || PrimFloat.ltb s 0 then None
  else if PrimFloat.is_zero s then Some 0%uint63
  else let (m, se) := PrimFloat.frshiftexp s in
       let mant := PrimFloat.normfr_mantissa m in
       if (1080 <=? se)%uint63 && (se <=? 2154)%uint63
          && (4503599627370496 <=? mant)%uint63 && (mant <? 9007199254740992)%uint63
       then Some (mant >> (2154 - se))%uint63
       else None.

(** [s] cut to an integer is [e / 10], or one less when [10] divides [e]. *)
Definition sum_ok (e : int) (s : float) : bool :=
  match trunc63 s with
  | Some t => (t =? e / 10)%uint63 || ((e mod 10 =? 0)%uint63 && (t + 1 =? e / 10)%uint63)
  | None => false
  end.

(** The products [c * float(z)], with [k * z] as a machine integer. *)
Definition products (k : Z) (c : float) : list (int * float) :=
  (λ z, (Uint63.of_Z (k * z), (c * nearest_float z)%float)) <$> channel_values.

Definition brightness_check : bool :=
  let blues := products 1 0.1 in
  let greens := products 6 0.6 in
  forallb (λ '(r, x),
    forallb (λ '(g, y),
      let t := (x + y)%float in
      let e := (r + g)%uint63 in
      forallb (λ '(b, z), sum_ok (e + b)%uint63 (t + z)%float) blues) greens)
    (products 3 0.3).

(** *** Sums and averages *)

Definition clamp (lo hi x : Z) : Z := Z.max lo (Z.min x hi).

(** The sum of [f] over a list of integers. *)
Definition sum_over (l : list Z) (f : Z → Z) : Z := foldr (λ x s, f x + s) 0 l.

(** The integers from [a] to [b], both included. *)
Definition interval (a b : Z) : list Z := seqZ a (b + 1 - a).

(** The running totals of the area filters: red, green, blue, alpha and the
    number of samples. *)
Definition add_pixel (acc : Z * Z * Z * Z * Z) (p : Pixel) : Z * Z * Z * Z * Z :=
  let '(total_red, total_green, total_blue, total_alpha, count) := acc in
  (total_red + red p, total_green + green p, total_blue + blue p,
   total_alpha + alpha p, count + 1).

(** The pixel of the averages, with the floor division of the code. *)
Definition average_pixel (acc : Z * Z * Z * Z * Z) : Pixel :=
  let '(total_red, total_green, total_blue, total_alpha, count) := acc in
  RGB (total_red `div` count) (total_green `div` count)
      (total_blue `div` count) (total_alpha `div` count).

(** *** blur *)

(** The sum of [g] over the square of the given radius around [(r, c)]. *)
Definition box_sum (r c radius : Z) (g : Z → Z → Z) : Z :=
  sum_over (interval (r - radius) (r + radius)) (λ i,
    sum_over (interval (c - radius) (c + radius)) (λ j, g i j)).

(** The pixel [blur] is specified to put at [(r, c)] of an [h] by [w] grid:
    the truncated averages over the square, rows and columns clamped to the
    grid. *)
Definition blur_pixel (wd : world) (h w : nat) (radius : Z) (r c : nat) : Pixel :=
  let n := (2 * radius + 1) ^ 2 in
  let average (channel : Pixel → Z) :=
    box_sum (Z.of_nat r) (Z.of_nat c) radius
      (λ i j, channel (pixel_of wd (clamp 0 (Z.of_nat h - 1) i)
                                   (clamp 0 (Z.of_nat w - 1) j))) `quot` n in
  RGB (average red) (average green) (average blue) (average alpha).

(** The totals the loops of [blur] accumulate for the cell [(r, c)]. *)
Definition blur_totals (wd : world) (h w : nat) (radius : Z) (r c : nat) :=
  foldl (λ acc i,
    foldl (λ acc j,
      add_pixel acc (pixel_of wd (Z.max 0 (Z.min (Z.of_nat r + i) (Z.of_nat h - 1)))
                                 (Z.max 0 (Z.min (Z.of_nat c + j) (Z.of_nat w - 1)))))
      acc (range (- radius) (radius + 1)))
    (0, 0, 0, 0, 0) (range (- radius) (radius + 1)).

(** *** pixellate *)

(** The first row (or column) of the block that holds row (or column) [x]. *)
Definition block_origin (step x : Z) : Z := step * (x `div` step).

(** The row (or column) after the last one of that block, in a grid of [n]
    rows (or columns): a block at the boundary is cut at the boundary. *)
Definition block_limit (step n x : Z) : Z := Z.min (block_origin step x + step) n.

(** The pixel [pixellate] is specified to leave at [(r, c)]: the truncated
    averages over the block of [(r, c)], the sums divided by the number of
    cells of the block. *)
Definition pixellate_pixel (wd : world) (h w : nat) (step : Z) (r c : nat) : Pixel :=
  let r0 := block_origin step (Z.of_nat r) in
  let r1 := block_limit step (Z.of_nat h) (Z.of_nat r) in
  let c0 := block_origin step (Z.of_nat c) in
  let c1 := block_limit step (Z.of_nat w) (Z.of_nat c) in
  let n := (r1 - r0) * (c1 - c0) in
  let average (channel : Pixel → Z) :=
    sum_over (range r0 r1) (λ i,
      sum_over (range c0 c1) (λ j, channel (pixel_of wd i j))) `quot` n in
  RGB (average red) (average green) (average blue) (average alpha).

(** The totals the loops of [pixellate] accumulate for the block whose first
    cell is [(row, col)]. *)
Definition block_totals (wd : world) (h w : nat) (step row col : Z) :=
  foldl (λ acc i,
    foldl (λ acc j, add_pixel acc (pixel_of wd (row + i) (col + j)))
      acc (range 0 (Z.min step (Z.of_nat w - col))))
    (0, 0, 0, 0, 0) (range 0 (Z.min step (Z.of_nat h - row))).

(** The pairs of an element of [l1] and an element of [l2], in the order in
    which two nested loops meet them. *)
Definition pairs {A B} (l1 : list A) (l2 : list B) : list (A * B) :=
  l1 ≫= λ a, pair a <$> l2.

(** The offsets of the cells of the block whose first cell is [(row, col)],
    and the object bound to the cell at an offset. *)
Definition block_cells (h w : nat) (step row col : Z) : list (Z * Z) :=
  pairs (range 0 (Z.min step (Z.of_nat h - row))) (range 0 (Z.min step (Z.of_nat w - col))).

Definition block_ref (img : list (list ref)) (row col : Z) (ij : Z * Z) : ref :=
  cell 0%nat img (Z.to_nat (row + ij.1)) (Z.to_nat (col + ij.2)).

(** The pixel of the truncated means of the channels of a list of pixels. *)
Definition mean_pixel (l : list Pixel) : Pixel :=
  let n := Z.of_nat (length l) in
  let total (channel : Pixel → Z) := foldr (λ p s, channel p + s) 0 l in
  RGB (total red `quot` n) (total green `quot` n) (total blue `quot` n) (total alpha `quot` n).

Definition sample_2x4 : world :=
  grid_of 2 4 [RGB 10 20 30 40; RGB 20 30 40 50; RGB 30 40 50 60; RGB 100 110 120 130;
               RGB 40 50 60 70; RGB 50 60 70 80; RGB 61 71 81 91; RGB 200 210 220 231].

(** *** Errors *)

(** [m] stops with an error in [wd] and leaves the grid as it was. *)
Definition fails_fast (m : M bool) (wd : world) : Prop :=
  ∃ e wd', m wd = (Raise e, wd') ∧ grid_unmodified wd wd'.

(** An image without rows, or with rows of different lengths. *)
Definition degenerate (img : list (list ref)) : Prop :=
  img = [] ∨ ∃ row row', row ∈ img ∧ row' ∈ img ∧ length row ≠ length row'.

Definition is_mono (f : filter) : bool :=
  match f with Mono _ => true | _ => false end.

(** A grid whose second row is shorter than the first. *)
Definition ragged : world :=
  World [RGB 1 2 3 4; RGB 5 6 7 8; RGB 9 10 11 12] [[0; 1]; [2]]%nat.

(** *** The shape of the image *)

(** [m] leaves the image buffer bound to the same objects, cell by cell,
    whether it returns or raises. *)
Definition keeps_image {A} (m : M A) : Prop := ∀ wd, image (m wd).2 = image wd.

(** The filters that turn an H x W grid into a W x H grid. *)
Definition reshapes (f : filter) : bool :=
  match f with Transpose | Rotate _ => true | _ => false end.

(** *** Vignette *)

(** The factor [vignette] computes for the cell [(r, c)] of an [h] by [w]
    grid, in binary64 arithmetic, with the square of the platform. *)
Definition vignette_factor (pow2 : float → float * errno) (h w : nat) (r c : Z) : float :=
  let center_row := Z.of_nat h `div` 2 in
  let center_col := Z.of_nat w `div` 2 in
  let half_diagonal := PrimFloat.sqrt (nearest_float (center_row ^ 2 + center_col ^ 2)) in
  let distance :=
    PrimFloat.sqrt (nearest_float ((r - center_row) ^ 2 + (c - center_col) ^ 2)) in
  let q := (distance / half_diagonal)%float in
  match py_square pow2 q with
  | Done q2 => (1 - q2)%float
  | Raise _ => nan
  end.

(** [int(v * factor)] *)
Definition darken (factor : float) (v : Z) : Z :=
  match py_int (nearest_float v * factor)%float with
  | Done k => k
  | Raise _ => 0
  end.

Definition vignette_pixel (pow2 : float → float * errno) (h w : nat) (r c : nat)
    (p : Pixel) : Pixel :=
  if decide (alpha p < 255) then
    let factor := vignette_factor pow2 h w (Z.of_nat r) (Z.of_nat c) in
    RGB (darken factor (red p)) (darken factor (green p)) (darken factor (blue p)) (alpha p)
  else p.

(** *** The size of a binary64 number *)

(** A zero, or a finite number below [2 ^ K] in absolute value. *)
Definition small (K : Z) (x : spec_float) : Prop :=
  match x with
  | S754_zero _ => True
  | S754_finite _ m e => Z.pos (digits2_pos m) + e ≤ K
  | _ => False
  end.

(** A positive finite number from [2 ^ (L - 1)] and below [2 ^ K]. *)
Definition sized (L K : Z) (x : spec_float) : Prop :=
  match x with
  | S754_finite false m e => L ≤ Z.pos (digits2_pos m) + e ≤ K
  | _ => False
  end.

(** What the filter needs of the platform: for a finite [x] from [2 ^ -402]
    and below [2 ^ 403], [pow(x, 2.0)] reports no error and returns a finite
    number below [2 ^ 807] in absolute value. *)
Definition regular_pow (pow2 : float → float * errno) : Prop :=
  ∀ x, sized (-401) 403 (Prim2SF x) →
    ∃ y, pow2 x = (y, ENONE) ∧ small 807 (Prim2SF y).

(** A platform whose [pow(x, 2.0)] is the correctly rounded square. *)
Definition rounded_pow (x : float) : float * errno :=
  let y := (x * x)%float in
  (y, if PrimFloat.is_infinity y then ERANGE else ENONE).

(** The body of the loops of [vignette] at the cell [(row, col)]. *)
Definition vignette_body (pow2 : float → float * errno) (center_row center_col : Z)
    (half_diagonal : float) (row col : Z) : M unit :=
  distance ← eval (math_sqrt ((row - center_row) ^ 2 + (col - center_col) ^ 2));
  q ← eval (py_truediv distance half_diagonal);
  q2 ← eval (py_square pow2 q);
  let vignette_factor := (1 - q2)%float in
  pixel ← image_get row col;
  p ← load pixel;
  if decide (alpha p < 255) then
    r ← eval (py_float (red p));
    r' ← eval (py_int (r * vignette_factor)%float);
    set_red pixel r';;
    p ← load pixel;
    g ← eval (py_float (green p));
    g' ← eval (py_int (g * vignette_factor)%float);
    set_green pixel g';;
    p ← load pixel;
    b ← eval (py_float (blue p));
    b' ← eval (py_int (b * vignette_factor)%float);
    set_blue pixel b'
  else mret ().

Definition sample_1x2 : world :=
  grid_of 1 2 [RGB 10 20 30 0; RGB 100 150 200 128].

Definition sample_2x2 : world :=
  grid_of 2 2 [RGB 100 150 200 128; RGB 10 20 30 0;
               RGB 40 50 60 255; RGB 100 150 200 128].

(** *** What a filter leaves alone *)

(** [m] leaves the world in relation [R] to the world it started from,
    whether it returns or raises. *)
Definition preserves {A} (R : world → world → Prop) (m : M A) : Prop :=
  ∀ wd, R wd (m wd).2.

(** [m] does not change the world. *)
Definition reads {A} (m : M A) : Prop := ∀ wd, (m wd).2 = wd.

(** No object has been written or added. *)
Definition same_store (wd wd' : world) : Prop := heap wd' = heap wd.

(** The cells hold the objects they held, and no object has been added. *)
Definition same_cells (wd wd' : world) : Prop :=
  image wd' = image wd ∧ length (heap wd') = length (heap wd).

(** Every object there was has the attributes it had; objects may have
    been added. *)
Definition store_extended (wd wd' : world) : Prop := heap wd `prefix_of` heap wd'.

(** What [dered] does to one pixel. *)
Definition dered_pixel (p : Pixel) : Pixel := RGB 0 (green p) (blue p) (alpha p).

(** A grid of two rows without columns. *)
Definition no_columns_2 : world := World [RGB 1 2 3 4] [[]; []].

(** The filters that change each pixel by itself, and those that move the
    objects. *)
Definition pointwise (f : filter) : bool :=
  match f with Dered | Mono _ => true | _ => false end.

Definition geometric (f : filter) : bool :=
  match f with Flip _ | Transpose | Rotate _ => true | _ => false end.

(** A grid whose four pixels are the same. *)
Definition uniform_2x2 : world :=
  grid_of 2 2 [RGB 10 20 30 40; RGB 10 20 30 40; RGB 10 20 30 40; RGB 10 20 30 40].

(** A grid whose four pixels are fully opaque. *)
Definition opaque_2x2 : world :=
  grid_of 2 2 [RGB 200 100 50 255; RGB 1 1 1 255; RGB 0 2 0 255; RGB 12 34 56 255].

(** The pixel of the truncated means of the channels over the whole of an
    [h] by [w] grid. *)
Definition grid_mean (wd : world) (h w : nat) : Pixel :=
  let n := Z.of_nat h * Z.of_nat w in
  let average (channel : Pixel → Z) :=
    sum_over (range 0 (Z.of_nat h)) (λ i,
      sum_over (range 0 (Z.of_nat w)) (λ j, channel (pixel_of wd i j))) `quot` n in
  RGB (average red) (average green) (average blue) (average alpha).

(** ** The debugging printer *)

(** [display] writes to the console.  Its state is the console, one entry
    for each call of [print], beside the world. *)
Definition IO (A : Type) : Type :=
  list string * world → outcome A * (list string * world).

#[global] Instance IO_ret : MRet IO := λ A a s, (Done a, s).
#[global] Instance IO_bind : MBind IO := λ A B k m s,
  match m s with
  | (Done a, s') => k a s'
  | (Raise e, s') => (Raise e, s')
  end.

(** A computation on the world, run beside the console. *)
Definition run {A} (m : M A) : IO A := λ s,
  let (o, wd) := m s.2 in (o, (s.1, wd)).

(** [print(text)] *)
Definition print (text : string) : IO unit := λ s, (Done (), (s.1 ++ [text], s.2)).

Fixpoint io_fold {A B} (l : list A) (acc : B) (body : A → B → IO B) : IO B :=
  match l with
  | [] => mret acc
  | x :: l' => acc' ← body x acc; io_fold l' acc' body
  end.

Definition io_for {A} (l : list A) (body : A → IO unit) : IO unit :=
  io_fold l () (λ x _, body x).

(** [len(text)] and [text * n] on strings. *)
Definition str_len (text : string) : Z := Z.of_nat (String.length text).

Fixpoint str_repeat (text : string) (n : nat) : string :=
  match n with
  | O => ""
  | S n' => text +:+ str_repeat text n'
  end.

Definition str_mul (text : string) (n : Z) : string := str_repeat text (Z.to_nat n).

(** The line printed for the cell at [(pos1, pos2)], whose pixel reads
    [middle]. *)
Definition display_text (maxsize height width pos1 pos2 : Z) (middle : string) : string :=
  let padding := maxsize - str_len middle in
  let prefix :=
    if decide (pos1 = 0 ∧ pos2 = 0) then "[  [  "
    else if decide (pos2 = 0) then "   [  "
    else "      " in
  let suffix :=
    if decide (pos1 = height - 1 ∧ pos2 = width - 1) then str_mul " " padding +:+ " ]  ]"
    else if decide (pos2 = width - 1) then str_mul " " padding +:+ " ],"
    else "," in
  prefix +:+ middle +:+ suffix.

(** [repr] of a pixel object belongs to the external introcs package: it is
    a parameter of [display].  The function ends in a bare [return]. *)
Definition display (repr : Pixel → string) : IO unit :=
  height ← run len_image;
  row0 ← run (image_row 0);
  let width := len row0 in
  img ← run get_image;
  maxsize ← io_fold img 0 (λ row maxsize,
    io_fold row maxsize (λ pixel maxsize,
      p ← run (load pixel);
      let text := repr p in
      mret (if decide (str_len text > maxsize) then str_len text else maxsize)));
  print "";;
  io_for (range 0 height) (λ pos1,
    row ← run (image_row pos1);
    io_for (range 0 width) (λ pos2,
      pixel ← run (lift IndexError (getitem row pos2));
      p ← run (load pixel);
      print (display_text maxsize height width pos1 pos2 (repr p)))).

(** The length of the longest text of a pixel of the image. *)
Definition widest (repr : Pixel → string) (wd : world) : Z :=
  foldr Z.max 0 ((λ x, str_len (repr (default (RGB 0 0 0 0) (heap wd !! x)))) <$> refs wd).

(** A text for a pixel, for the examples. *)
Definition sample_repr (p : Pixel) : string :=
  if decide (red p < 100) then "dark" else "bright".

(** * Reasoning about computations *)

Lemma run_bind {A B} (m : M A) (k : A → M B) w :
  (m ≫= k) w = match m w with (Done a, w') => k a w' | (Raise e, w') => (Raise e, w') end.
Proof. reflexivity. Qed.

Lemma run_bind_done {A B} (m : M A) (k : A → M B) w a w' :
  m w = (Done a, w') → (m ≫= k) w = k a w'.
Proof. intros H. rewrite run_bind, H. reflexivity. Qed.

Lemma run_bind_raise {A B} (m : M A) (k : A → M B) w e w' :
  m w = (Raise e, w') → (m ≫= k) w = (Raise e, w').
Proof. intros H. rewrite run_bind, H. reflexivity. Qed.

Lemma run_ret {A} (a : A) w : (mret a : M A) w = (Done a, w).
Proof. reflexivity. Qed.

Lemma run_eval {A} (o : outcome A) w : eval o w = (o, w).
Proof. reflexivity. Qed.

(** Steps through [m ≫= k] once the run of [m] is known. *)
Ltac mstep tac := erewrite run_bind_done; [|solve [tac]].

Lemma fold_for_app {A B} (l1 l2 : list A) (acc : B) body w :
  fold_for (l1 ++ l2) acc body w = (fold_for l1 acc body ≫= λ acc', fold_for l2 acc' body) w.
Proof.
  revert acc w. induction l1 as [|x l1 IH]; intros acc w; simpl.
  - reflexivity.
  - rewrite !run_bind. destruct (body x acc w) as [[a|e] w']; [apply IH | reflexivity].
Qed.

Lemma fold_for_ext {A B} (l : list A) (f g : A → B → M B) acc w :
  (∀ x acc w, x ∈ l → f x acc w = g x acc w) →
  fold_for l acc f w = fold_for l acc g w.
Proof.
  revert acc w. induction l as [|x l IH]; intros acc w H; simpl; [reflexivity|].
  rewrite !run_bind, H by left.
  destruct (g x acc w) as [[a|e] w']; [|reflexivity].
  apply IH. intros. apply H. by right.
Qed.

Lemma fold_for_raise_first {A B} x (l : list A) (acc : B) body w e w' :
  body x acc w = (Raise e, w') → fold_for (x :: l) acc body w = (Raise e, w').
Proof. intros H. simpl. by apply run_bind_raise. Qed.

Lemma for_ext {A} (l : list A) (f g : A → M unit) w :
  (∀ x w, x ∈ l → f x w = g x w) → for_ l f w = for_ l g w.
Proof. intros H. apply fold_for_ext. intros; by apply H. Qed.

Lemma for_cons {A} x (l : list A) body w :
  for_ (x :: l) body w = (body x ;; for_ l body) w.
Proof.
  unfold for_. simpl. rewrite !run_bind. destruct (body x w) as [[[]|e] w']; reflexivity.
Qed.

Lemma for_nil {A} (body : A → M unit) w : for_ [] body w = (Done (), w).
Proof. reflexivity. Qed.

Lemma for_app {A} (l1 l2 : list A) body w :
  for_ (l1 ++ l2) body w = (for_ l1 body ;; for_ l2 body) w.
Proof.
  unfold for_. rewrite fold_for_app, !run_bind.
  destruct (fold_for l1 () _ w) as [[[]|e] w']; reflexivity.
Qed.

(** Nested loops over the rows and the cells of a row visit the cells in
    row-major order. *)
Lemma for_concat {A} (ll : list (list A)) body w :
  for_ ll (λ l, for_ l body) w = for_ (concat ll) body w.
Proof.
  revert w. induction ll as [|l ll IH]; intros w; [reflexivity|].
  simpl. rewrite for_cons, for_app, !run_bind.
  destruct (for_ l body w) as [[[]|e] w']; [apply IH|reflexivity].
Qed.

(** A loop whose body only reads the world is a fold over the list. *)
Lemma fold_for_pure {A B} (l : list A) (step : B → A → B) body acc w :
  (∀ x acc, x ∈ l → body x acc w = (Done (step acc x), w)) →
  fold_for l acc body w = (Done (foldl step acc l), w).
Proof.
  revert acc. induction l as [|x l IH]; intros acc H; simpl; [reflexivity|].
  rewrite run_bind, H by left. apply IH. intros. apply H. by right.
Qed.

Lemma comprehension_pure {A B} (l : list A) (f : A → M B) (g : A → B) w :
  (∀ x, x ∈ l → f x w = (Done (g x), w)) →
  comprehension l f w = (Done (g <$> l), w).
Proof.
  induction l as [|x l IH]; intros H; simpl; [reflexivity|].
  rewrite run_bind, H by left. rewrite run_bind, IH; [reflexivity|].
  intros. apply H. by right.
Qed.

(** ** Python indexing at natural-number positions *)

Lemma py_index_nat {A} (l : list A) (i : nat) :
  (i < length l)%nat → py_index l (Z.of_nat i) = Some i.
Proof.
  intros. unfold py_index. rewrite decide_True by lia. by rewrite Nat2Z.id.
Qed.

Lemma getitem_nat {A} (l : list A) (i : nat) : getitem l (Z.of_nat i) = l !! i.
Proof.
  unfold getitem, py_index.
  destruct (decide (0 ≤ Z.of_nat i < Z.of_nat (length l))).
  - simpl. by rewrite Nat2Z.id.
  - rewrite decide_False by lia. simpl. symmetry. apply lookup_ge_None. lia.
Qed.

Lemma setitem_nat {A} (l : list A) (i : nat) x :
  (i < length l)%nat → setitem l (Z.of_nat i) x = Some (<[i:=x]> l).
Proof. intros. unfold setitem. by rewrite py_index_nat. Qed.

Lemma getitem2_nat {A} (l : list (list A)) (i j : nat) :
  getitem2 l (Z.of_nat i) (Z.of_nat j) = l !! i ≫= (.!! j).
Proof.
  unfold getitem2. rewrite getitem_nat. destruct (l !! i); simpl; [apply getitem_nat|done].
Qed.

Lemma range_nat (n : nat) : range 0 (Z.of_nat n) = Z.of_nat <$> seq 0 n.
Proof.
  unfold range, seqZ. rewrite Z.sub_0_r, Nat2Z.id.
  apply list_fmap_ext. intros. lia.
Qed.

Lemma elem_of_range_nat (n : nat) x :
  x ∈ range 0 (Z.of_nat n) → ∃ k : nat, x = Z.of_nat k ∧ (k < n)%nat.
Proof.
  rewrite range_nat. intros (k & -> & Hk)%list_elem_of_fmap.
  apply elem_of_seq in Hk. exists k. split; [done|lia].
Qed.

Lemma range_cons (n : nat) : (0 < n)%nat → range 0 (Z.of_nat n) = 0 :: range 1 (Z.of_nat n).
Proof.
  intros. unfold range. rewrite seqZ_cons by lia. do 2 f_equal. lia.
Qed.

Lemma elem_of_range a b x : x ∈ range a b ↔ a ≤ x < b.
Proof. unfold range. rewrite elem_of_seqZ. lia. Qed.

(** ** Runs of the primitive operations *)

Lemma get_image_run hp img : get_image (World hp img) = (Done img, World hp img).
Proof. reflexivity. Qed.

Lemma put_image_run hp img img' : put_image img' (World hp img) = (Done (), World hp img').
Proof. reflexivity. Qed.

Lemma len_image_run hp img : len_image (World hp img) = (Done (len img), World hp img).
Proof. reflexivity. Qed.

Lemma image_row_run hp img (i : nat) row :
  img !! i = Some row → image_row (Z.of_nat i) (World hp img) = (Done row, World hp img).
Proof.
  intros Hrow. unfold image_row. erewrite run_bind_done by apply get_image_run.
  by rewrite getitem_nat, Hrow.
Qed.

Lemma image_row_none hp img (i : nat) :
  img !! i = None → image_row (Z.of_nat i) (World hp img) = (Raise IndexError, World hp img).
Proof.
  intros Hrow. unfold image_row. erewrite run_bind_done by apply get_image_run.
  by rewrite getitem_nat, Hrow.
Qed.

Lemma image_get_run hp img (i j : nat) x :
  img !! i ≫= (.!! j) = Some x →
  image_get (Z.of_nat i) (Z.of_nat j) (World hp img) = (Done x, World hp img).
Proof.
  intros Hx. unfold image_get. erewrite run_bind_done by apply get_image_run.
  by rewrite getitem2_nat, Hx.
Qed.

Lemma image_set_run hp img (r c : nat) x row :
  img !! r = Some row → (c < length row)%nat →
  image_set (Z.of_nat r) (Z.of_nat c) x (World hp img)
  = (Done (), World hp (<[r := <[c := x]> row]> img)).
Proof.
  intros Hr Hc. unfold image_set.
  erewrite run_bind_done by apply get_image_run.
  unfold setitem2. rewrite getitem_nat, Hr. simpl.
  rewrite setitem_nat by done. simpl.
  rewrite setitem_nat by (by eapply lookup_lt_Some). done.
Qed.

Lemma load_run hp img x p :
  hp !! x = Some p → load x (World hp img) = (Done p, World hp img).
Proof. intros H. unfold load. simpl. by rewrite H. Qed.

Lemma update_run f hp img x p :
  hp !! x = Some p → update f x (World hp img) = (Done (), World (<[x := f p]> hp) img).
Proof. intros H. unfold update. simpl. by rewrite H. Qed.

Lemma floordiv_run a b w : b ≠ 0 → floordiv a b w = (Done (a `div` b), w).
Proof. intros. unfold floordiv. by rewrite decide_False. Qed.

(** * Rectangular tables *)

Section table_lemmas.
Context {A : Type}.
Implicit Types (t : list (list A)) (G : nat → nat → A).

Lemma tabulate_lookup h w G r :
  (r < h)%nat → tabulate h w G !! r = Some (G r <$> seq 0 w).
Proof.
  intros. unfold tabulate. by rewrite list_lookup_fmap, lookup_seq_lt.
Qed.

Lemma tabulate_lookup2 h w G r c :
  (r < h)%nat → (c < w)%nat → tabulate h w G !! r ≫= (.!! c) = Some (G r c).
Proof.
  intros. rewrite tabulate_lookup by done. simpl.
  by rewrite list_lookup_fmap, lookup_seq_lt.
Qed.

Lemma tabulate_rect h w G : rect h w (tabulate h w G).
Proof.
  split; unfold tabulate.
  - by rewrite length_fmap, length_seq.
  - apply Forall_fmap, Forall_forall. intros r _. simpl.
    by rewrite length_fmap, length_seq.
Qed.

Lemma cell_tabulate d h w G r c :
  (r < h)%nat → (c < w)%nat → cell d (tabulate h w G) r c = G r c.
Proof. intros. unfold cell. by rewrite tabulate_lookup2. Qed.

Lemma tabulate_ext h w G G' :
  (∀ r c, (r < h)%nat → (c < w)%nat → G r c = G' r c) →
  tabulate h w G = tabulate h w G'.
Proof.
  intros H. unfold tabulate. apply list_fmap_ext. intros i r Hr.
  apply lookup_seq in Hr as [-> Hr].
  apply list_fmap_ext. intros j c Hc. apply lookup_seq in Hc as [-> Hc].
  by apply H.
Qed.

Lemma rect_row h w t r row : rect h w t → t !! r = Some row → length row = w.
Proof.
  intros [_ Hall] Hr. rewrite Forall_forall in Hall.
  apply Hall. by eapply list_elem_of_lookup_2.
Qed.

Lemma rect_lookup h w t r :
  rect h w t → (r < h)%nat → ∃ row, t !! r = Some row ∧ length row = w.
Proof.
  intros Hrect Hr. destruct (lookup_lt_is_Some_2 t r) as [row Hrow].
  { destruct Hrect; lia. }
  exists row. split; [done|]. by eapply rect_row.
Qed.

Lemma rect_lookup2 d h w t r c :
  rect h w t → (r < h)%nat → (c < w)%nat →
  t !! r ≫= (.!! c) = Some (cell d t r c).
Proof.
  intros Hrect Hr Hc. unfold cell.
  destruct (rect_lookup h w t r) as (row & -> & Hlen); [done..|]. simpl.
  destruct (lookup_lt_is_Some_2 row c) as [x ->]; [lia|]. done.
Qed.

(** A rectangular table is the table of its cells. *)
Lemma rect_tabulate d h w t : rect h w t → t = tabulate h w (cell d t).
Proof.
  intros Hrect. apply list_eq. intros r.
  destruct (decide (r < h)%nat) as [Hr|Hr].
  - rewrite tabulate_lookup by done.
    destruct (rect_lookup h w t r) as (row & Hrow & Hlen); [done..|].
    rewrite Hrow. f_equal. apply list_eq. intros c.
    rewrite list_lookup_fmap.
    destruct (decide (c < w)%nat) as [Hc|Hc].
    + rewrite lookup_seq_lt by done. simpl.
      pose proof (rect_lookup2 d h w t r c Hrect Hr Hc) as H.
      rewrite Hrow in H. done.
    + rewrite lookup_seq_ge by lia. simpl. apply lookup_ge_None. lia.
  - destruct Hrect as [Hlen _].
    rewrite (lookup_ge_None_2 t) by lia.
    symmetry. apply lookup_ge_None. unfold tabulate.
    rewrite length_fmap, length_seq. lia.
Qed.

Lemma rect_unique h w h' w' t :
  rect h w t → rect h' w' t → (0 < h)%nat → h = h' ∧ w = w'.
Proof.
  intros [H1 H2] [H3 H4] Hh. split; [congruence|].
  destruct t as [|row t]; simpl in *; [lia|].
  apply Forall_cons in H2 as [? _]. apply Forall_cons in H4 as [? _]. congruence.
Qed.

(** The cells of a table in row-major order. *)
Lemma rect_concat_length h w t : rect h w t → length (concat t) = (h * w)%nat.
Proof.
  intros [<- Hall]. induction Hall as [|row t Hrow Hall IH]; [done|].
  simpl. rewrite length_app, IH, Hrow. done.
Qed.

Lemma rect_concat_lookup h w t r c :
  rect h w t → (c < w)%nat → concat t !! (r * w + c)%nat = t !! r ≫= (.!! c).
Proof.
  intros [_ Hall]. revert r. induction Hall as [|row t Hrow Hall IH]; intros r Hc.
  - by rewrite !lookup_nil.
  - destruct r as [|r]; simpl.
    + rewrite lookup_app_l by lia. done.
    + rewrite lookup_app_r by lia. rewrite <- (IH r Hc). f_equal. lia.
Qed.

Lemma rect_cell_elem_of d h w t r c :
  rect h w t → (r < h)%nat → (c < w)%nat → cell d t r c ∈ concat t.
Proof.
  intros Hrect Hr Hc. apply list_elem_of_lookup. exists (r * w + c)%nat.
  rewrite (rect_concat_lookup h w) by done. by apply (rect_lookup2 _ h w).
Qed.

Lemma rect_elem_of_cell d h w t x :
  rect h w t → x ∈ concat t → ∃ r c, (r < h)%nat ∧ (c < w)%nat ∧ cell d t r c = x.
Proof.
  intros Hrect (i & Hi)%list_elem_of_lookup.
  pose proof (lookup_lt_Some _ _ _ Hi) as Hlt.
  rewrite (rect_concat_length h w) in Hlt by done.
  assert (0 < w)%nat as Hw by (destruct w; lia).
  exists (i `div` w)%nat, (i `mod` w)%nat.
  assert (i `mod` w < w)%nat as Hc by (apply Nat.mod_upper_bound; lia).
  assert (i `div` w < h)%nat as Hr by (apply Nat.Div0.div_lt_upper_bound; lia).
  split_and!; [done..|].
  pose proof (rect_concat_lookup h w t (i `div` w) (i `mod` w) Hrect Hc) as Hl.
  replace (i `div` w * w + i `mod` w)%nat with i in Hl
    by (rewrite (Nat.div_mod_eq i w) at 1; lia).
  unfold cell. rewrite <- Hl, Hi. done.
Qed.

(** Distinct cells of a table without repetition hold distinct values. *)
Lemma rect_cell_inj d h w t r c r' c' :
  rect h w t → NoDup (concat t) →
  (r < h)%nat → (c < w)%nat → (r' < h)%nat → (c' < w)%nat →
  cell d t r c = cell d t r' c' → r = r' ∧ c = c'.
Proof.
  intros Hrect Hnd Hr Hc Hr' Hc' Heq.
  pose proof (rect_lookup2 d h w t r c Hrect Hr Hc) as H1.
  pose proof (rect_lookup2 d h w t r' c' Hrect Hr' Hc') as H2.
  rewrite <- (rect_concat_lookup h w) in H1, H2 by done.
  rewrite Heq in H1.
  pose proof (NoDup_lookup _ _ _ _ Hnd H1 H2) as Hidx.
  assert (r = r') by nia. subst r'. split; [done|lia].
Qed.

(** A table whose cells are pairwise distinct has no repetition. *)
Lemma tabulate_NoDup h w G :
  (∀ r c r' c', (r < h)%nat → (c < w)%nat → (r' < h)%nat → (c' < w)%nat →
     G r c = G r' c' → r = r' ∧ c = c') →
  NoDup (concat (tabulate h w G)).
Proof.
  intros Hinj. apply NoDup_alt. intros i j x Hi Hj.
  pose proof (tabulate_rect h w G) as Hrect.
  assert (∀ k, concat (tabulate h w G) !! k = Some x →
            (k `div` w < h)%nat ∧ (k `mod` w < w)%nat ∧ G (k `div` w)%nat (k `mod` w)%nat = x) as Hk.
  { intros k Hk. pose proof (lookup_lt_Some _ _ _ Hk) as Hlt.
    rewrite (rect_concat_length h w) in Hlt by done.
    assert (0 < w)%nat as Hw by (destruct w; lia).
    assert (k `mod` w < w)%nat as Hc by (apply Nat.mod_upper_bound; lia).
    assert (k `div` w < h)%nat as Hr by (apply Nat.Div0.div_lt_upper_bound; lia).
    split_and!; [done..|].
    pose proof (rect_concat_lookup h w _ (k `div` w) (k `mod` w) Hrect Hc) as Hl.
    replace (k `div` w * w + k `mod` w)%nat with k in Hl
      by (rewrite (Nat.div_mod_eq k w) at 1; lia).
    rewrite Hk, tabulate_lookup2 in Hl by done. congruence. }
  destruct (Hk i Hi) as (? & ? & Gi), (Hk j Hj) as (? & ? & Gj).
  destruct (Hinj (i `div` w) (i `mod` w) (j `div` w) (j `mod` w))%nat as [Hd Hm];
    [done..|congruence|].
  rewrite (Nat.div_mod_eq i w), (Nat.div_mod_eq j w). congruence.
Qed.

Lemma tabulate_elem_of h w G x :
  x ∈ concat (tabulate h w G) ↔ ∃ r c, (r < h)%nat ∧ (c < w)%nat ∧ G r c = x.
Proof.
  split.
  - intros Hx. destruct (rect_elem_of_cell x h w _ x (tabulate_rect h w G) Hx)
      as (r & c & Hr & Hc & Heq).
    exists r, c. rewrite cell_tabulate in Heq by done. done.
  - intros (r & c & Hr & Hc & <-).
    rewrite <- (cell_tabulate (G r c) h w G r c) by done.
    apply (rect_cell_elem_of _ h w); [apply tabulate_rect|done..].
Qed.

End table_lemmas.

(** * The geometric filters *)

(** ** Loops that assign the cells of the image buffer *)

Lemma for_fill_row (G : Z → ref) hp (r : nat) n : ∀ s img row,
  img !! r = Some row → (s + n ≤ length row)%nat →
  for_ (Z.of_nat <$> seq s n) (λ col, image_set (Z.of_nat r) col (G col)) (World hp img)
  = (Done (), World hp (<[r := take s row ++ (G ∘ Z.of_nat <$> seq s n) ++ drop (s + n) row]> img)).
Proof.
  induction n as [|n IH]; intros s img row Hr Hlen.
  - simpl. rewrite for_nil, Nat.add_0_r, take_drop, list_insert_id by done. done.
  - simpl. rewrite for_cons.
    erewrite run_bind_done; [|by apply image_set_run; [done|lia]].
    erewrite IH; [|by apply list_lookup_insert_eq; eapply lookup_lt_Some|rewrite length_insert; lia].
    rewrite list_insert_insert_eq. do 2 f_equal. f_equal.
    rewrite (take_S_r _ _ (G (Z.of_nat s))) by (apply list_lookup_insert_eq; lia).
    rewrite take_insert_ge by lia.
    rewrite drop_insert_lt by lia.
    rewrite <- app_assoc. simpl. repeat f_equal. lia.
Qed.

Lemma for_fill_image (G : Z → Z → ref) hp (w : nat) n : ∀ s img,
  (∀ r, (s ≤ r < s + n)%nat → ∃ row, img !! r = Some row ∧ length row = w) →
  for_ (Z.of_nat <$> seq s n)
       (λ row, for_ (range 0 (Z.of_nat w)) (λ col, image_set row col (G row col)))
       (World hp img)
  = (Done (), World hp (take s img
        ++ ((λ r, (λ c, G (Z.of_nat r) (Z.of_nat c)) <$> seq 0 w) <$> seq s n)
        ++ drop (s + n) img)).
Proof.
  induction n as [|n IH]; intros s img Hrows.
  - simpl. by rewrite for_nil, Nat.add_0_r, take_drop.
  - simpl. rewrite for_cons.
    destruct (Hrows s) as (row & Hrow & Hlen); [lia|].
    rewrite range_nat.
    erewrite run_bind_done; [|by apply (for_fill_row (G (Z.of_nat s))); [done|lia]].
    rewrite <- range_nat. rewrite IH; last first.
    { intros r Hr. rewrite list_lookup_insert_ne by lia. apply Hrows. lia. }
    do 2 f_equal.
    rewrite take_0, drop_ge, app_nil_r by lia. simpl.
    rewrite (take_S_r _ _ (G (Z.of_nat s) ∘ Z.of_nat <$> seq 0 w)); last first.
    { apply list_lookup_insert_eq. by eapply lookup_lt_Some. }
    rewrite take_insert_ge by lia.
    rewrite drop_insert_lt by lia.
    rewrite <- app_assoc. simpl. repeat f_equal. lia.
Qed.

(** Assigning [G row col] to every cell of an [h] by [w] image. *)
Lemma for_fill (G : Z → Z → ref) hp (h w : nat) img :
  rect h w img →
  for_ (range 0 (Z.of_nat h))
       (λ row, for_ (range 0 (Z.of_nat w)) (λ col, image_set row col (G row col)))
       (World hp img)
  = (Done (), World hp (tabulate h w (λ r c, G (Z.of_nat r) (Z.of_nat c)))).
Proof.
  intros Hrect. rewrite range_nat, for_fill_image.
  - destruct Hrect as [Hlen _]. rewrite take_0, drop_ge, app_nil_r by (simpl; lia). done.
  - intros r Hr. apply (rect_lookup h w); [done|lia].
Qed.

Lemma for_append (F : Z → list ref) hp l : ∀ img,
  for_ l (λ x, image_append (F x)) (World hp img) = (Done (), World hp (img ++ (F <$> l))).
Proof.
  induction l as [|x l IH]; intros img.
  - by rewrite for_nil, app_nil_r.
  - rewrite for_cons. erewrite run_bind_done by reflexivity.
    rewrite IH. by rewrite <- app_assoc.
Qed.

(** The first statements of every filter: [len(image)] and [len(image[0])]. *)
Lemma rect_dims h w (img : list (list ref)) :
  rect h w img → (0 < h)%nat →
  len img = Z.of_nat h ∧ ∃ row0, img !! 0%nat = Some row0 ∧ len row0 = Z.of_nat w.
Proof.
  intros Hrect Hh. split; [destruct Hrect; unfold len; lia|].
  destruct (rect_lookup h w img 0%nat Hrect Hh) as (row0 & Hrow0 & Hlen0).
  exists row0. split; [done|unfold len; lia].
Qed.

(** ** The filters in closed form *)

Lemma flip_run vertical hp img (h w : nat) :
  rect h w img → (0 < h)%nat →
  flip vertical (World hp img) = (Done true, World hp (flip_cells vertical h w img)).
Proof.
  intros Hrect Hh. unfold flip.
  destruct (rect_dims h w img Hrect Hh) as (Hlen & row0 & Hrow0 & Hlen0).
  mstep ltac:(apply len_image_run).
  mstep ltac:(by apply (image_row_run _ _ 0%nat)).
  mstep ltac:(apply get_image_run).
  rewrite !Hlen0, !Hlen.
  destruct vertical.
  - erewrite run_bind_done; [reflexivity|]. erewrite for_ext.
    + rewrite (for_fill (λ r c, cell 0%nat img (h - 1 - Z.to_nat r) (Z.to_nat c))) by done.
      simpl. unfold flip_cells. do 2 f_equal. apply tabulate_ext. intros r c Hr Hc.
      rewrite !Nat2Z.id. done.
    + intros x w0 (r & -> & Hr)%elem_of_range_nat. apply for_ext.
      intros y w1 (c & -> & Hc)%elem_of_range_nat.
      replace (Z.of_nat h - 1 - Z.of_nat r) with (Z.of_nat (h - 1 - r)) by lia.
      rewrite getitem2_nat, (rect_lookup2 0%nat h w) by (done || lia).
      rewrite !Nat2Z.id. done.
  - erewrite run_bind_done; [reflexivity|]. erewrite for_ext.
    + rewrite (for_fill (λ r c, cell 0%nat img (Z.to_nat r) (w - 1 - Z.to_nat c))) by done.
      simpl. unfold flip_cells. do 2 f_equal. apply tabulate_ext. intros r c Hr Hc.
      rewrite !Nat2Z.id. done.
    + intros x w0 (r & -> & Hr)%elem_of_range_nat. apply for_ext.
      intros y w1 (c & -> & Hc)%elem_of_range_nat.
      replace (Z.of_nat w - 1 - Z.of_nat c) with (Z.of_nat (w - 1 - c)) by lia.
      rewrite getitem2_nat, (rect_lookup2 0%nat h w) by (done || lia).
      rewrite !Nat2Z.id. done.
Qed.

Lemma transpose_run hp img (h w : nat) :
  rect h w img → (0 < h)%nat →
  transpose (World hp img) = (Done true, World hp (transpose_cells h w img)).
Proof.
  intros Hrect Hh. unfold transpose.
  destruct (rect_dims h w img Hrect Hh) as (Hlen & row0 & Hrow0 & Hlen0).
  mstep ltac:(apply len_image_run).
  mstep ltac:(by apply (image_row_run _ _ 0%nat)).
  rewrite Hlen, Hlen0.
  erewrite run_bind_done; last first.
  { apply (comprehension_pure _ _
      (λ col, (λ row, cell 0%nat img (Z.to_nat row) (Z.to_nat col)) <$> range 0 (Z.of_nat h))).
    intros x (c & -> & Hc)%elem_of_range_nat.
    apply comprehension_pure. intros y (r & -> & Hr)%elem_of_range_nat.
    apply image_get_run. rewrite !Nat2Z.id. by apply (rect_lookup2 _ h w). }
  erewrite run_bind_done by reflexivity.
  erewrite run_bind_done; [reflexivity|].
  erewrite for_ext;
    [rewrite (for_append (λ row, (λ col, cell 0%nat img (Z.to_nat col) (Z.to_nat row))
                                   <$> range 0 (Z.of_nat h)))|].
  { simpl. do 2 f_equal. unfold transpose_cells, tabulate.
    rewrite !range_nat, <- list_fmap_compose. apply list_fmap_ext. intros _ r _. simpl.
    rewrite <- list_fmap_compose. apply list_fmap_ext. intros _ c _. simpl.
    by rewrite !Nat2Z.id. }
  intros x w0 (r & -> & Hr)%elem_of_range_nat.
  erewrite run_bind_done; [reflexivity|].
  apply comprehension_pure. intros y (c & -> & Hc)%elem_of_range_nat.
  rewrite getitem2_nat, !range_nat, list_lookup_fmap, list_lookup_fmap, lookup_seq_lt by done.
  simpl. rewrite list_lookup_fmap, list_lookup_fmap, lookup_seq_lt by done. simpl.
  by rewrite !Nat2Z.id.
Qed.

Lemma rotate_run to_right hp img (h w : nat) :
  rect h w img → (0 < h)%nat → (0 < w)%nat →
  rotate to_right (World hp img) = (Done true, World hp (rotate_cells to_right h w img)).
Proof.
  intros Hrect Hh Hw. unfold rotate.
  destruct (rect_dims h w img Hrect Hh) as (Hlen & row0 & Hrow0 & Hlen0).
  mstep ltac:(apply len_image_run).
  mstep ltac:(by apply (image_row_run _ _ 0%nat)).
  destruct to_right.
  - erewrite run_bind_done; [reflexivity|].
    mstep ltac:(by apply (flip_run true _ _ h w)).
    mstep ltac:(apply (transpose_run _ _ h w); [apply tabulate_rect|done]).
    rewrite run_ret. do 2 f_equal. unfold transpose_cells, rotate_cells, flip_cells.
    apply tabulate_ext. intros r c Hr Hc. by rewrite cell_tabulate.
  - erewrite run_bind_done; [reflexivity|].
    mstep ltac:(by apply (transpose_run _ _ h w)).
    mstep ltac:(apply (flip_run true _ _ w h); [apply tabulate_rect|done]).
    rewrite run_ret. do 2 f_equal. unfold transpose_cells, rotate_cells, flip_cells.
    apply tabulate_ext. intros r c Hr Hc. rewrite cell_tabulate by lia. done.
Qed.

(** ** Re-binding the cells keeps a grid well formed *)

Lemma well_formed_world h w wd :
  well_formed h w wd → wd = World (heap wd) (image wd) ∧ rect h w (image wd) ∧ (0 < h)%nat ∧ (0 < w)%nat.
Proof. intros (? & ? & ? & _). by destruct wd. Qed.

Lemma reindex_well_formed h w h' w' hp img (f g : nat → nat → nat) :
  well_formed h w (World hp img) → (0 < h')%nat → (0 < w')%nat →
  (∀ r c, (r < h')%nat → (c < w')%nat → (f r c < h)%nat ∧ (g r c < w)%nat) →
  (∀ r c r' c', (r < h')%nat → (c < w')%nat → (r' < h')%nat → (c' < w')%nat →
     f r c = f r' c' → g r c = g r' c' → r = r' ∧ c = c') →
  well_formed h' w' (World hp (tabulate h' w' (λ r c, cell 0%nat img (f r c) (g r c)))).
Proof.
  intros (Hh & Hw & Hrect & Hnd & Hall) Hh' Hw' Hin Hinj. simpl in *.
  unfold well_formed, refs in *. simpl in *. split_and!; [done..|apply tabulate_rect| |].
  - apply tabulate_NoDup. intros r c r' c' Hr Hc Hr' Hc' Heq.
    destruct (Hin r c Hr Hc), (Hin r' c' Hr' Hc').
    destruct (rect_cell_inj 0%nat h w img (f r c) (g r c) (f r' c') (g r' c') Hrect Hnd);
      [done..|].
    by apply Hinj.
  - rewrite Forall_forall in *. intros x (r & c & Hr & Hc & <-)%tabulate_elem_of.
    destruct (Hin r c Hr Hc). apply Hall. by apply (rect_cell_elem_of _ h w).
Qed.

Lemma flip_well_formed vertical h w hp img :
  well_formed h w (World hp img) →
  well_formed h w (World hp (flip_cells vertical h w img)).
Proof.
  intros Hwf. pose proof Hwf as (Hh & Hw & _).
  destruct vertical; unfold flip_cells.
  - apply (reindex_well_formed h w h w hp img (λ r c, h - 1 - r)%nat (λ r c, c)); [done..| |]; lia.
  - apply (reindex_well_formed h w h w hp img (λ r c, r) (λ r c, w - 1 - c)%nat); [done..| |]; lia.
Qed.

Lemma transpose_well_formed h w hp img :
  well_formed h w (World hp img) →
  well_formed w h (World hp (transpose_cells h w img)).
Proof.
  intros Hwf. pose proof Hwf as (Hh & Hw & _).
  apply (reindex_well_formed h w w h hp img (λ r c, c) (λ r c, r)); [done..| |]; lia.
Qed.

Lemma rotate_well_formed to_right h w hp img :
  well_formed h w (World hp img) →
  well_formed w h (World hp (rotate_cells to_right h w img)).
Proof.
  intros Hwf. pose proof Hwf as (Hh & Hw & _).
  destruct to_right; unfold rotate_cells.
  - apply (reindex_well_formed h w w h hp img (λ r c, h - 1 - c)%nat (λ r c, r)); [done..| |]; lia.
  - apply (reindex_well_formed h w w h hp img (λ r c, c) (λ r c, w - 1 - r)%nat); [done..| |]; lia.
Qed.

(** * Binary64 arithmetic on the channel values *)

(** ** The integer part of a float, on machine integers *)

Lemma digits2_pos_bounds p :
  2 ^ (Z.pos (digits2_pos p) - 1) ≤ Z.pos p < 2 * 2 ^ (Z.pos (digits2_pos p) - 1).
Proof.
  induction p as [p IH|p IH|]; simpl digits2_pos.
  - rewrite Pos2Z.inj_succ, (Pos2Z.inj_xI p).
    replace (Z.succ (Z.pos (digits2_pos p)) - 1) with (Z.succ (Z.pos (digits2_pos p) - 1)) by lia.
    rewrite Z.pow_succ_r by lia.
    generalize dependent (2 ^ (Z.pos (digits2_pos p) - 1)). intros; lia.
  - rewrite Pos2Z.inj_succ, (Pos2Z.inj_xO p).
    replace (Z.succ (Z.pos (digits2_pos p)) - 1) with (Z.succ (Z.pos (digits2_pos p) - 1)) by lia.
    rewrite Z.pow_succ_r by lia.
    generalize dependent (2 ^ (Z.pos (digits2_pos p) - 1)). intros; lia.
  - done.
Qed.

Lemma Zdigits2_53 M : 2 ^ 52 ≤ M < 2 ^ 53 → Zdigits2 M = 53.
Proof.
  intros [Hlo Hhi]. destruct M as [|p|p]; try lia. simpl.
  destruct (digits2_pos_bounds p) as [H1 H2].
  rewrite <- Z.pow_succ_r in H2 by lia.
  assert (2 ^ 52 < 2 ^ Z.succ (Z.pos (digits2_pos p) - 1)) as H3 by (eapply Z.le_lt_trans; eassumption).
  assert (2 ^ (Z.pos (digits2_pos p) - 1) < 2 ^ 53) as H4 by (eapply Z.le_lt_trans; eassumption).
  apply Z.pow_lt_mono_r_iff in H3; [|lia..].
  apply Z.pow_lt_mono_r_iff in H4; [|lia..]. lia.
Qed.

Lemma shr_fexp_normal M e :
  2 ^ 52 ≤ M < 2 ^ 53 → -1074 ≤ e →
  shr_fexp prec emax M e loc_Exact = ({| shr_m := M; shr_r := false; shr_s := false |}, e).
Proof.
  intros HM He. unfold shr_fexp. rewrite Zdigits2_53 by done.
  unfold fexp, SpecFloat.emin, prec, emax.
  replace (Z.max (53 + e - 53) (3 - 1024 - 53) - e) with 0 by lia.
  reflexivity.
Qed.

Lemma trunc63_sound s t :
  trunc63 s = Some t → truncate (Prim2SF s) = Some (to_Z t) ∧ to_Z t < 2 ^ 53.
Proof.
  unfold trunc63.
  destruct (PrimFloat.is_nan s) eqn:Hnan; [done|].
  destruct (PrimFloat.is_infinity s) eqn:Hinf; [done|].
  destruct (PrimFloat.ltb s 0) eqn:Hneg; [done|]. simpl.
  unfold Prim2SF. rewrite Hnan.
  destruct (PrimFloat.is_zero s) eqn:Hzero.
  { intros [= <-]. split; reflexivity. }
  rewrite Hinf. unfold Z.frexp.
  destruct (frshiftexp s) as [m se].
  destruct (1080 <=? se)%uint63 eqn:H1; [|done].
  destruct (se <=? 2154)%uint63 eqn:H2; [|done].
  destruct (4503599627370496 <=? normfr_mantissa m)%uint63 eqn:H3; [|done].
  destruct (normfr_mantissa m <? 9007199254740992)%uint63 eqn:H4; [|done].
  simpl. intros [= <-].
  apply Uint63.leb_spec in H1, H2, H3. apply Uint63.ltb_spec in H4.
  change (to_Z 1080) with 1080 in H1. change (to_Z 2154) with 2154 in H2.
  change (to_Z 4503599627370496) with (2 ^ 52) in H3.
  change (to_Z 9007199254740992) with (2 ^ 53) in H4.
  set (M := to_Z (normfr_mantissa m)) in *.
  rewrite shr_fexp_normal by (unfold FloatOps.shift, FloatOps.prec; lia). simpl.
  assert (get_sign s = false) as ->.
  { unfold get_sign. by rewrite Hzero. }
  rewrite Uint63.lsr_spec, Uint63.sub_spec. fold M.
  change (to_Z 2154) with 2154.
  rewrite Z.mod_small by (change wB with (2 ^ 63); lia).
  split; last first.
  { eapply Z.le_lt_trans; [|exact H4].
    apply Z.div_le_upper_bound; [apply Z.pow_pos_nonneg; lia|].
    assert (0 < 2 ^ (2154 - to_Z se)) by (apply Z.pow_pos_nonneg; lia). nia. }
  destruct M as [|p|p] eqn:HM; [lia| |lia].
  simpl. f_equal. unfold FloatOps.shift, FloatOps.prec.
  destruct (to_Z se - 2101 - 53) as [|k|k] eqn:He; [| lia |].
  - replace (2154 - to_Z se) with 0 by lia. by rewrite Z.div_1_r.
  - replace (2154 - to_Z se) with (Z.pos k) by lia.
    by rewrite Z.shiftr_div_pow2.
Qed.

Lemma py_int_trunc63 s t : trunc63 s = Some t → py_int s = Done (to_Z t).
Proof. intros [H _]%trunc63_sound. unfold py_int. by rewrite H. Qed.

Lemma brightness_check_true : brightness_check = true.
Proof. vm_compute. reflexivity. Qed.

Lemma elem_of_products k c z :
  0 ≤ z ≤ 255 → In (Uint63.of_Z (k * z), (c * nearest_float z)%float) (products k c).
Proof.
  intros Hz. apply list_elem_of_In. unfold products.
  apply (list_elem_of_fmap_2 (λ z, (Uint63.of_Z (k * z), (c * nearest_float z)%float))).
  unfold channel_values. apply elem_of_seqZ. lia.
Qed.

Lemma brightness_check_sound r g b :
  brightness_check = true →
  0 ≤ r ≤ 255 → 0 ≤ g ≤ 255 → 0 ≤ b ≤ 255 →
  sum_ok (Uint63.of_Z (3 * r) + Uint63.of_Z (6 * g) + Uint63.of_Z (1 * b))%uint63
         (0.3 * nearest_float r + 0.6 * nearest_float g + 0.1 * nearest_float b)%float = true.
Proof.
  unfold brightness_check. intros Hall Hr Hg Hb.
  rewrite forallb_forall in Hall.
  pose proof (Hall _ (elem_of_products 3 0.3 r Hr)) as Hall1. clear Hall.
  rewrite forallb_forall in Hall1.
  pose proof (Hall1 _ (elem_of_products 6 0.6 g Hg)) as Hall2. clear Hall1.
  rewrite forallb_forall in Hall2.
  exact (Hall2 _ (elem_of_products 1 0.1 b Hb)).
Qed.

Lemma sum_ok_sound e s E :
  to_Z e = E → sum_ok e s = true →
  ∃ k, py_int s = Done k ∧ 0 ≤ k ∧ (k = E `div` 10 ∨ (E `mod` 10 = 0 ∧ k = E `div` 10 - 1)).
Proof.
  intros He Hall. unfold sum_ok in Hall.
  destruct (trunc63 s) as [t|] eqn:Ht; [|done].
  destruct (trunc63_sound _ _ Ht) as [_ Hlt].
  pose proof (Uint63.to_Z_bounded t) as [Ht0 _].
  exists (to_Z t). split; [by apply py_int_trunc63|]. split; [done|].
  apply orb_prop in Hall as [Hall|Hall].
  - left. apply Uint63.eqb_spec in Hall. by rewrite Hall, Uint63.div_spec, He.
  - right. apply andb_prop in Hall as [H0 H1].
    apply Uint63.eqb_spec in H0, H1.
    apply (f_equal to_Z) in H0, H1.
    rewrite Uint63.mod_spec, He in H0. rewrite Uint63.div_spec, He, Uint63.add_spec in H1.
    change (to_Z 10) with 10 in H0, H1. change (to_Z 0) with 0 in H0.
    change (to_Z 1) with 1 in H1.
    rewrite Z.mod_small in H1; [|change wB with (2 ^ 63); lia].
    split; [done|lia].
Qed.

Lemma channel_sum_to_Z r g b :
  0 ≤ r ≤ 255 → 0 ≤ g ≤ 255 → 0 ≤ b ≤ 255 →
  to_Z (Uint63.of_Z (3 * r) + Uint63.of_Z (6 * g) + Uint63.of_Z (1 * b))%uint63
  = 3 * r + 6 * g + b.
Proof.
  intros Hr Hg Hb.
  rewrite !Uint63.add_spec, !Uint63.of_Z_spec.
  change wB with (2 ^ 63).
  rewrite (Z.mod_small (3 * r)), (Z.mod_small (6 * g)), (Z.mod_small (1 * b)) by lia.
  rewrite (Z.mod_small (3 * r + 6 * g)) by lia. rewrite Z.mod_small by lia. lia.
Qed.

(** The brightness of every colour: the exact floor, or one less where the
    exact value is an integer. *)
Lemma brightness_exhaustive r g b :
  0 ≤ r ≤ 255 → 0 ≤ g ≤ 255 → 0 ≤ b ≤ 255 →
  ∃ k, py_int (0.3 * nearest_float r + 0.6 * nearest_float g + 0.1 * nearest_float b)%float = Done k
       ∧ 0 ≤ k
       ∧ (k = exact_brightness r g b
          ∨ ((3 * r + 6 * g + b) `mod` 10 = 0 ∧ k = exact_brightness r g b - 1)).
Proof.
  intros Hr Hg Hb.
  apply (sum_ok_sound _ _ _ (channel_sum_to_Z r g b Hr Hg Hb)).
  by apply brightness_check_sound; [apply brightness_check_true|..].
Qed.

(** ** Facts checked on every channel value *)

Lemma channel_values_forall (P : Z → bool) :
  forallb P channel_values = true → ∀ z, 0 ≤ z ≤ 255 → P z = true.
Proof.
  intros Hall z Hz. rewrite forallb_forall in Hall. apply Hall.
  apply list_elem_of_In. unfold channel_values. apply elem_of_seqZ. lia.
Qed.

Lemma py_float_channel z : 0 ≤ z ≤ 255 → py_float z = Done (nearest_float z).
Proof.
  intros Hz. unfold py_float.
  assert (negb (PrimFloat.is_infinity (nearest_float z)) = true) as H.
  { revert z Hz. apply channel_values_forall. vm_compute. reflexivity. }
  apply negb_true_iff in H. by rewrite H.
Qed.

Lemma tone_channel k :
  0 ≤ k ≤ 255 →
  py_int (0.6 * nearest_float k)%float = Done ((6 * k) `div` 10) ∧
  py_int (0.4 * nearest_float k)%float = Done ((4 * k) `div` 10).
Proof.
  intros Hk.
  assert ((match py_int (0.6 * nearest_float k)%float with
           | Done z => z =? (6 * k) `div` 10 | Raise _ => false end)
          && (match py_int (0.4 * nearest_float k)%float with
              | Done z => z =? (4 * k) `div` 10 | Raise _ => false end) = true) as H.
  { revert k Hk. apply channel_values_forall. vm_compute. reflexivity. }
  apply andb_prop in H as [H1 H2].
  destruct (py_int (0.6 * _)) as [z1|]; [|done].
  destruct (py_int (0.4 * _)) as [z2|]; [|done].
  apply Z.eqb_eq in H1, H2. by subst.
Qed.

(** A grey pixel keeps its level, except at the levels of [grey_drift]. *)
Lemma brightness_grey k :
  0 ≤ k ≤ 255 →
  brightness k k k = if decide (k ∈ grey_drift) then k - 1 else k.
Proof.
  intros Hk.
  assert ((brightness k k k =? if bool_decide (k ∈ grey_drift) then k - 1 else k) = true) as H.
  { revert k Hk. apply channel_values_forall. vm_compute. reflexivity. }
  apply Z.eqb_eq in H. rewrite H. by destruct (decide _); [rewrite bool_decide_eq_true_2|rewrite bool_decide_eq_false_2].
Qed.

(** A sepia pixel of level [k] has level [k] again only for [k = 0]. *)
Lemma brightness_sepia k :
  0 ≤ k ≤ 255 →
  brightness k ((6 * k) `div` 10) ((4 * k) `div` 10) = k ↔ k = 0.
Proof.
  intros Hk.
  assert (Bool.eqb (brightness k ((6 * k) `div` 10) ((4 * k) `div` 10) =? k) (k =? 0) = true) as H.
  { revert k Hk. apply channel_values_forall. vm_compute. reflexivity. }
  apply Bool.eqb_prop in H. rewrite <- Z.eqb_eq, H. apply Z.eqb_eq.
Qed.

Lemma brightness_channel r g b :
  0 ≤ r ≤ 255 → 0 ≤ g ≤ 255 → 0 ≤ b ≤ 255 →
  py_int (0.3 * nearest_float r + 0.6 * nearest_float g + 0.1 * nearest_float b)%float
  = Done (brightness r g b)
  ∧ 0 ≤ brightness r g b ≤ 255
  ∧ (brightness r g b = exact_brightness r g b
     ∨ ((3 * r + 6 * g + b) `mod` 10 = 0 ∧ brightness r g b = exact_brightness r g b - 1)).
Proof.
  intros Hr Hg Hb.
  destruct (brightness_exhaustive r g b Hr Hg Hb) as (k & Hk & Hk0 & Hex).
  unfold brightness. rewrite Hk. split_and!; [done..| |done].
  unfold exact_brightness in Hex.
  assert ((3 * r + 6 * g + b) `div` 10 ≤ 255) by (apply Z.div_le_upper_bound; lia).
  lia.
Qed.

(** * The size of binary64 results *)

(** ** Binary digits *)

Lemma Zdigits2_nonneg m : 0 ≤ Zdigits2 m.
Proof. by destruct m. Qed.

Lemma Zdigits2_upper m : 0 ≤ m → m < 2 ^ Zdigits2 m.
Proof.
  intros Hm. destruct m as [|p|p]; [done| |lia]. simpl.
  destruct (digits2_pos_bounds p) as [_ H].
  rewrite <- Z.pow_succ_r in H by lia. by replace (Z.succ (Z.pos (digits2_pos p) - 1))
    with (Z.pos (digits2_pos p)) in H by lia.
Qed.

Lemma Zdigits2_lower m : 0 < m → 2 ^ (Zdigits2 m - 1) ≤ m.
Proof.
  intros Hm. destruct m as [|p|p]; [lia| |lia]. simpl.
  by destruct (digits2_pos_bounds p) as [H _].
Qed.

Lemma Zdigits2_le m n : 0 ≤ m → 0 ≤ n → m < 2 ^ n → Zdigits2 m ≤ n.
Proof.
  intros Hm Hn Hlt. destruct (decide (m = 0)) as [->|Hne]; [done|].
  pose proof (Zdigits2_lower m) as Hlo.
  assert (2 ^ (Zdigits2 m - 1) < 2 ^ n) as Hpow by lia.
  apply Z.pow_lt_mono_r_iff in Hpow; lia.
Qed.

Lemma Zdigits2_ge m n : 0 < m → 2 ^ (n - 1) ≤ m → n ≤ Zdigits2 m.
Proof.
  intros Hm Hle. pose proof (Zdigits2_upper m) as Hup. pose proof (Zdigits2_nonneg m).
  destruct (decide (n ≤ 0)); [lia|].
  assert (2 ^ (n - 1) < 2 ^ Zdigits2 m) as Hpow by lia.
  apply Z.pow_lt_mono_r_iff in Hpow; lia.
Qed.

Lemma Zdigits2_positive m : 0 < m → 1 ≤ Zdigits2 m.
Proof. intros. apply Zdigits2_ge; [done|]. simpl. lia. Qed.

Lemma Zdigits2_mono a b : 0 ≤ a ≤ b → Zdigits2 a ≤ Zdigits2 b.
Proof.
  intros. pose proof (Zdigits2_upper b). pose proof (Zdigits2_nonneg b).
  apply Zdigits2_le; lia.
Qed.

Lemma Zdigits2_mul_pow2 m s : 0 < m → 0 ≤ s → Zdigits2 (m * 2 ^ s) = Zdigits2 m + s.
Proof.
  intros Hm Hs. pose proof (Zdigits2_upper m). pose proof (Zdigits2_lower m Hm).
  pose proof (Zdigits2_positive m Hm).
  assert (0 < 2 ^ s) by (apply Z.pow_pos_nonneg; lia).
  apply Z.le_antisymm.
  - apply Zdigits2_le; [nia|lia|]. rewrite Z.pow_add_r by lia. nia.
  - apply Zdigits2_ge; [nia|].
    replace (Zdigits2 m + s - 1) with (Zdigits2 m - 1 + s) by lia.
    rewrite Z.pow_add_r by lia. nia.
Qed.

Lemma Zdigits2_div_pow2 m n :
  0 ≤ m → 0 ≤ n → Zdigits2 (m `div` 2 ^ n) = Z.max 0 (Zdigits2 m - n).
Proof.
  intros Hm Hn. pose proof (Zdigits2_upper m Hm) as Hup. pose proof (Zdigits2_nonneg m).
  assert (0 < 2 ^ n) by (apply Z.pow_pos_nonneg; lia).
  destruct (decide (Zdigits2 m ≤ n)) as [Hle|Hgt].
  - rewrite Z.div_small, Z.max_l by (lia || (split; [done|];
      eapply Z.lt_le_trans; [exact Hup|apply Z.pow_le_mono_r; lia])). done.
  - assert (0 < m) as Hpos by (destruct m; simpl in *; lia).
    pose proof (Zdigits2_lower m Hpos) as Hlo. rewrite Z.max_r by lia.
    apply Z.le_antisymm.
    + apply Zdigits2_le; [apply Z.div_pos; lia|lia|].
      apply Z.div_lt_upper_bound; [done|]. rewrite <- Z.pow_add_r by lia.
      by replace (n + (Zdigits2 m - n)) with (Zdigits2 m) by lia.
    + assert (2 ^ (Zdigits2 m - n - 1) ≤ m `div` 2 ^ n) as Hge.
      { apply Z.div_le_lower_bound; [done|]. rewrite <- Z.pow_add_r by lia.
        by replace (n + (Zdigits2 m - n - 1)) with (Zdigits2 m - 1) by lia. }
      assert (0 < 2 ^ (Zdigits2 m - n - 1)) by (apply Z.pow_pos_nonneg; lia).
      apply Zdigits2_ge; lia.
Qed.

Lemma Zdigits2_mul a b : 0 ≤ a → 0 ≤ b → Zdigits2 (a * b) ≤ Zdigits2 a + Zdigits2 b.
Proof.
  intros Ha Hb. pose proof (Zdigits2_upper a Ha). pose proof (Zdigits2_upper b Hb).
  pose proof (Zdigits2_nonneg a). pose proof (Zdigits2_nonneg b).
  apply Zdigits2_le; [nia|lia|]. rewrite Z.pow_add_r by lia. nia.
Qed.

Lemma Zdigits2_add a b :
  0 ≤ a → 0 ≤ b → Zdigits2 (a + b) ≤ Z.max (Zdigits2 a) (Zdigits2 b) + 1.
Proof.
  intros Ha Hb. pose proof (Zdigits2_upper a Ha). pose proof (Zdigits2_upper b Hb).
  pose proof (Zdigits2_nonneg a). pose proof (Zdigits2_nonneg b).
  apply Zdigits2_le; [lia..|]. rewrite Z.pow_add_r by lia.
  assert (2 ^ Zdigits2 a ≤ 2 ^ Z.max (Zdigits2 a) (Zdigits2 b)) by (apply Z.pow_le_mono_r; lia).
  assert (2 ^ Zdigits2 b ≤ 2 ^ Z.max (Zdigits2 a) (Zdigits2 b)) by (apply Z.pow_le_mono_r; lia).
  lia.
Qed.

Lemma Zdigits2_div a b :
  0 ≤ a → 0 < b → Zdigits2 (a `div` b) ≤ Z.max 0 (Zdigits2 a - Zdigits2 b + 1).
Proof.
  intros Ha Hb. pose proof (Zdigits2_lower b Hb). pose proof (Zdigits2_positive b Hb).
  assert (0 < 2 ^ (Zdigits2 b - 1)) by (apply Z.pow_pos_nonneg; lia).
  replace (Zdigits2 a - Zdigits2 b + 1) with (Zdigits2 a - (Zdigits2 b - 1)) by lia.
  rewrite <- Zdigits2_div_pow2 by lia.
  apply Zdigits2_mono. split; [apply Z.div_pos; lia|].
  apply Z.div_le_compat_l; lia.
Qed.

Lemma Zdigits2_sqrt n : 0 < n → Zdigits2 (Z.sqrt n) = (Zdigits2 n + 1) `div` 2.
Proof.
  intros Hn. pose proof (Zdigits2_upper n) as Hup. pose proof (Zdigits2_lower n Hn) as Hlo.
  pose proof (Zdigits2_positive n Hn) as Hd.
  set (d := Zdigits2 n) in *. set (a := (d + 1) `div` 2).
  assert (2 * a - 1 ≤ d ≤ 2 * a) as Ha by (unfold a; pose proof (Z.div_mod (d + 1) 2);
    pose proof (Z.mod_pos_bound (d + 1) 2); lia).
  assert (1 ≤ a) by lia.
  assert (0 < Z.sqrt n) by (apply Z.sqrt_pos; lia).
  apply Z.le_antisymm.
  - apply Zdigits2_le; [lia..|]. apply Z.sqrt_lt_square; [lia|apply Z.pow_nonneg; lia|].
    rewrite <- Z.pow_add_r by lia.
    eapply Z.lt_le_trans; [apply Hup; lia|]. apply Z.pow_le_mono_r; lia.
  - apply Zdigits2_ge; [done|]. apply Z.sqrt_le_square; [lia|apply Z.pow_nonneg; lia|].
    rewrite <- Z.pow_add_r by lia.
    eapply Z.le_trans; [|exact Hlo]. apply Z.pow_le_mono_r; lia.
Qed.

(** ** Shifts and rounding *)

Lemma shr_1_m mrs : 0 ≤ shr_m mrs → shr_m (shr_1 mrs) = shr_m mrs `div` 2.
Proof.
  intros Hm. rewrite <- Z.div2_div. destruct mrs as [m r s]. simpl in *.
  destruct m as [|[p|p|]|p]; (done || lia).
Qed.

Lemma iter_shr_1_m p : ∀ mrs,
  0 ≤ shr_m mrs → shr_m (SpecFloat.iter_pos shr_1 p mrs) = shr_m mrs `div` 2 ^ Z.pos p.
Proof.
  assert (∀ k, 0 < 2 ^ Z.pos k) as Hpow by (intros; apply Z.pow_pos_nonneg; lia).
  assert (∀ k, 2 ^ Z.pos k~0 = 2 ^ Z.pos k * 2 ^ Z.pos k) as HxO.
  { intros k. rewrite (Pos2Z.inj_xO k), <- Z.pow_add_r by lia. f_equal. lia. }
  assert (∀ k, 2 ^ Z.pos k~1 = 2 * (2 ^ Z.pos k * 2 ^ Z.pos k)) as HxI.
  { intros k. rewrite (Pos2Z.inj_xI k), Z.pow_add_r, <- HxO by lia.
    rewrite (Pos2Z.inj_xO k). change (2 ^ 1) with 2. ring. }
  induction p as [p IH|p IH|]; intros mrs Hm; simpl SpecFloat.iter_pos.
  - assert (0 ≤ shr_m (shr_1 mrs)) as H1 by (rewrite shr_1_m by done; apply Z.div_pos; lia).
    assert (0 ≤ shr_m (SpecFloat.iter_pos shr_1 p (shr_1 mrs))) as H2.
    { rewrite IH by done. apply Z.div_pos; [done|apply Hpow]. }
    rewrite IH, IH, shr_1_m by done. pose proof (Hpow p).
    rewrite !Z.div_div by lia. rewrite HxI. f_equal; ring.
  - assert (0 ≤ shr_m (SpecFloat.iter_pos shr_1 p mrs)) as H2.
    { rewrite IH by done. apply Z.div_pos; [done|apply Hpow]. }
    rewrite IH, IH by done. pose proof (Hpow p).
    rewrite !Z.div_div by lia. by rewrite HxO.
  - rewrite shr_1_m by done. done.
Qed.

Lemma shr_record_of_loc_m m l : shr_m (shr_record_of_loc m l) = m.
Proof. by destruct l as [|[]]. Qed.

(** The first component of [shr_fexp]: the mantissa is cut to the precision
    of its size. *)
Lemma shr_fexp_spec m e l :
  0 ≤ m →
  let n := Z.max 0 (Z.max (Zdigits2 m + e - 53) (-1074) - e) in
  shr_m (shr_fexp prec emax m e l).1 = m `div` 2 ^ n ∧ (shr_fexp prec emax m e l).2 = e + n.
Proof.
  intros Hm. unfold shr_fexp, shr, fexp, SpecFloat.emin, prec, emax.
  change (3 - 1024 - 53) with (-1074).
  destruct (Z.max (Zdigits2 m + e - 53) (-1074) - e) as [|p|p] eqn:Hn; simpl.
  - by rewrite shr_record_of_loc_m, Z.div_1_r, Z.add_0_r.
  - rewrite iter_shr_1_m, shr_record_of_loc_m by (by rewrite shr_record_of_loc_m). done.
  - by rewrite shr_record_of_loc_m, Z.div_1_r, Z.add_0_r.
Qed.

Lemma round_nearest_even_bounds m l : m ≤ round_nearest_even m l ≤ m + 1.
Proof. destruct l as [|[]]; simpl; [lia| |lia..]. destruct (Z.even m); lia. Qed.

Lemma Zdigits2_succ m : 0 ≤ m → Zdigits2 (m + 1) ≤ Zdigits2 m + 1.
Proof.
  intros Hm. pose proof (Zdigits2_upper m Hm). pose proof (Zdigits2_nonneg m).
  apply Zdigits2_le; [lia..|]. rewrite Z.pow_add_r by lia. lia.
Qed.

(** The shape of a rounded result: the mantissa is cut, rounded, and cut
    again if the rounding carried. *)
Lemma binary_round_aux_cases sx mx ex lx :
  0 ≤ mx →
  ∃ d2 m3,
    let d := Zdigits2 mx in
    let n1 := Z.max 0 (Z.max (d + ex - 53) (-1074) - ex) in
    let e1 := ex + n1 in
    let n2 := Z.max 0 (Z.max (d2 + e1 - 53) (-1074) - e1) in
    let e3 := e1 + n2 in
    Z.max 0 (d - n1) ≤ d2 ≤ Z.max 0 (d - n1) + 1 ∧
    0 ≤ m3 ∧ Zdigits2 m3 = Z.max 0 (d2 - n2) ∧
    binary_round_aux prec emax sx mx ex lx =
      match m3 with
      | 0 => S754_zero sx
      | Z.pos m => if e3 <=? 971 then S754_finite sx m e3 else S754_infinity sx
      | Z.neg _ => S754_nan
      end.
Proof.
  intros Hmx. unfold binary_round_aux.
  pose proof (shr_fexp_spec mx ex lx Hmx) as [Hm1 He1].
  destruct (shr_fexp prec emax mx ex lx) as [mrs1 e1]. simpl in Hm1, He1.
  pose proof (round_nearest_even_bounds (shr_m mrs1) (loc_of_shr_record mrs1)) as Hr.
  set (m2 := round_nearest_even (shr_m mrs1) (loc_of_shr_record mrs1)) in *.
  assert (0 ≤ shr_m mrs1) as H1.
  { rewrite Hm1. apply Z.div_pos; [done|]. apply Z.pow_pos_nonneg; lia. }
  assert (0 ≤ m2) as H2 by lia.
  pose proof (shr_fexp_spec m2 e1 loc_Exact H2) as [Hm3 He3].
  destruct (shr_fexp prec emax m2 e1 loc_Exact) as [mrs3 e3]. simpl in Hm3, He3.
  exists (Zdigits2 m2), (shr_m mrs3). cbv zeta. rewrite <- He1. split_and!.
  - rewrite <- (Zdigits2_div_pow2 mx) by lia. rewrite <- Hm1. apply Zdigits2_mono. lia.
  - rewrite <- (Zdigits2_div_pow2 mx) by lia. rewrite <- Hm1.
    etrans; [apply (Zdigits2_mono m2 (shr_m mrs1 + 1)); lia|]. by apply Zdigits2_succ.
  - rewrite Hm3. apply Z.div_pos; [done|]. apply Z.pow_pos_nonneg; lia.
  - rewrite Hm3. apply Zdigits2_div_pow2; lia.
  - rewrite <- He3. done.
Qed.

Lemma binary_round_aux_small sx mx ex lx K :
  0 ≤ mx → Zdigits2 mx + ex ≤ K → -1074 ≤ K ≤ 970 →
  small (K + 1) (binary_round_aux prec emax sx mx ex lx).
Proof.
  intros Hmx HK HKr.
  destruct (binary_round_aux_cases sx mx ex lx Hmx) as (d2 & m3 & Hd2 & Hm3 & Hd3 & ->).
  pose proof (Zdigits2_nonneg mx). cbv zeta in *.
  destruct m3 as [|m|m]; [done| |lia]. simpl in Hd3.
  rewrite (proj2 (Z.leb_le _ _)) by lia. simpl. lia.
Qed.

Lemma binary_round_aux_sized mx ex lx L K :
  0 < mx → L ≤ Zdigits2 mx + ex ≤ K → -1021 ≤ L → K ≤ 970 →
  sized L (K + 1) (binary_round_aux prec emax false mx ex lx).
Proof.
  intros Hmx HK HL HKr.
  destruct (binary_round_aux_cases false mx ex lx) as (d2 & m3 & Hd2 & Hm3 & Hd3 & ->); [lia|].
  pose proof (Zdigits2_positive mx Hmx). cbv zeta in *.
  destruct m3 as [|m|m]; [simpl in Hd3; lia| |lia]. simpl in Hd3.
  rewrite (proj2 (Z.leb_le _ _)) by lia. simpl. lia.
Qed.

(** ** The operations *)

(** The specification of the floats is written with the integer functions
    of the core library; the arithmetic tactics know those of the standard
    library. *)
Ltac std_Z :=
  change IntDef.Z.min with Z.min in *;
  change IntDef.Z.max with Z.max in *;
  change IntDef.Z.sub with Z.sub in *;
  change IntDef.Z.add with Z.add in *;
  change IntDef.Z.mul with Z.mul in *;
  change IntDef.Z.opp with Z.opp in *;
  change IntDef.Z.div2 with Z.div2 in *.

Lemma iter_xO_pos m d : Z.pos (Pos.iter xO m d) = Z.pos m * 2 ^ Z.pos d.
Proof.
  induction d as [|d IH] using Pos.peano_ind.
  - simpl. lia.
  - rewrite Pos.iter_succ, Pos2Z.inj_succ, Z.pow_succ_r, (Pos2Z.inj_xO (Pos.iter xO m d)), IH by lia.
    ring.
Qed.

(** Aligning a mantissa to a smaller exponent keeps the number. *)
Lemma shl_align_spec mx ex ex' :
  let s := Z.max 0 (ex - ex') in
  Z.pos (shl_align mx ex ex').1 = Z.pos mx * 2 ^ s ∧ (shl_align mx ex ex').2 = ex - s.
Proof.
  unfold shl_align. destruct (ex' - ex) as [|d|d] eqn:Hd; simpl.
  - replace (Z.max 0 (ex - ex')) with 0 by lia. simpl. lia.
  - replace (Z.max 0 (ex - ex')) with 0 by lia. simpl. lia.
  - replace (Z.max 0 (ex - ex')) with (Z.pos d) by lia. rewrite iter_xO_pos. lia.
Qed.

Lemma shl_align_digits mx ex ex' :
  Zdigits2 (Z.pos (shl_align mx ex ex').1) + (shl_align mx ex ex').2
  = Z.pos (digits2_pos mx) + ex.
Proof.
  destruct (shl_align_spec mx ex ex') as [-> ->].
  rewrite Zdigits2_mul_pow2 by lia. simpl. lia.
Qed.

Lemma binary_round_small sx mx ex K :
  Z.pos (digits2_pos mx) + ex ≤ K → -1074 ≤ K ≤ 970 →
  small (K + 1) (binary_round prec emax sx mx ex).
Proof.
  intros HK HKr. unfold binary_round.
  pose proof (shl_align_digits mx ex (fexp prec emax (Z.pos (digits2_pos mx) + ex))) as Hd.
  destruct (shl_align mx ex _) as [mz ez]. simpl in Hd.
  apply binary_round_aux_small; [done| |done]. simpl in *. lia.
Qed.

Lemma binary_normalize_small m e K :
  Zdigits2 m + e ≤ K → -1074 ≤ K ≤ 970 →
  small (K + 1) (binary_normalize prec emax m e false).
Proof.
  intros HK HKr. destruct m as [|p|p]; simpl; [done|by apply binary_round_small..].
Qed.

Lemma SFmul_small x y Kx Ky :
  small Kx x → small Ky y → -1074 ≤ Kx + Ky ≤ 970 →
  small (Kx + Ky + 1) (SFmul prec emax x y).
Proof.
  intros Hx Hy HK.
  destruct x as [sx|sx| |sx mx ex], y as [sy|sy| |sy my ey]; simpl in *; try done.
  apply binary_round_aux_small; [done| |done].
  pose proof (Zdigits2_mul (Z.pos mx) (Z.pos my)). simpl in *. lia.
Qed.

Lemma Zdigits2_opp m : Zdigits2 (- m) = Zdigits2 m.
Proof. by destruct m. Qed.

Lemma Zdigits2_abs m : Zdigits2 (Z.abs m) = Zdigits2 m.
Proof. by destruct m. Qed.

Lemma SFsub_small x y Kx Ky :
  small Kx x → small Ky y → -1074 ≤ Z.max Kx Ky + 1 ≤ 970 →
  small (Z.max Kx Ky + 2) (SFsub prec emax x y).
Proof.
  intros Hx Hy HK.
  destruct x as [sx|sx| |sx mx ex], y as [sy|sy| |sy my ey]; simpl in *; try done.
  - by destruct sx, sy.
  - lia.
  - lia.
  - pose proof (shl_align_spec mx ex (Z.min ex ey)) as [Hmx _].
    pose proof (shl_align_spec my ey (Z.min ex ey)) as [Hmy _].
    set (a := Z.pos (shl_align mx ex (Z.min ex ey)).1) in *.
    set (b := Z.pos (shl_align my ey (Z.min ex ey)).1) in *.
    replace (Z.max Kx Ky + 2) with (Z.max Kx Ky + 1 + 1) by lia.
    apply binary_normalize_small; [|done].
    rewrite <- Zdigits2_abs.
    assert (Zdigits2 a = Z.pos (digits2_pos mx) + Z.max 0 (ex - Z.min ex ey)) as Ha.
    { rewrite Hmx, Zdigits2_mul_pow2 by lia. done. }
    assert (Zdigits2 b = Z.pos (digits2_pos my) + Z.max 0 (ey - Z.min ex ey)) as Hb.
    { rewrite Hmy, Zdigits2_mul_pow2 by lia. done. }
    assert (0 < a) by (unfold a; lia). assert (0 < b) by (unfold b; lia).
    pose proof (Zdigits2_add a b ltac:(lia) ltac:(lia)) as Hadd.
    assert (Zdigits2 (Z.abs (SpecFloat.cond_Zopp sx a - SpecFloat.cond_Zopp sy b))
            ≤ Zdigits2 (a + b)) as Hle.
    { apply Zdigits2_mono. destruct sx, sy; simpl; lia. }
    std_Z. lia.
Qed.

Lemma SFdiv_small x y Kx Ly Ky :
  small Kx x → sized Ly Ky y → -1074 ≤ Kx - Ly + 1 ≤ 970 →
  small (Kx - Ly + 2) (SFdiv prec emax x y).
Proof.
  intros Hx Hy HK.
  destruct x as [sx|sx| |sx mx ex], y as [sy|sy| |[] my ey]; simpl in *; try done.
  unfold SFdiv_core_binary.
  set (e' := Z.min _ _). set (s := ex - ey - e').
  assert (0 ≤ s) as Hs by (unfold s, e'; lia).
  set (m' := match s with 0 => Z.pos mx | Z.pos _ => Z.shiftl (Z.pos mx) s | Z.neg _ => 0 end).
  assert (m' = Z.pos mx * 2 ^ s) as Hm'.
  { unfold m'. destruct s as [|p|p] eqn:Hsp; [simpl; lia| |lia].
    by rewrite Z.shiftl_mul_pow2. }
  destruct (Z.div_eucl m' (Z.pos my)) as [q r] eqn:Hdiv.
  assert (q = m' `div` Z.pos my) as Hq by (unfold Z.div; by rewrite Hdiv).
  replace (Kx - Ly + 2) with (Kx - Ly + 1 + 1) by lia.
  assert (0 < 2 ^ s) by (apply Z.pow_pos_nonneg; lia).
  apply binary_round_aux_small; [subst q; apply Z.div_pos; nia| |done].
  pose proof (Zdigits2_div m' (Z.pos my)) as Hd.
  rewrite Hm', Zdigits2_mul_pow2 in Hd by lia. rewrite <- Hm', <- Hq in Hd.
  simpl in Hd. unfold e', s, fexp, SpecFloat.emin, prec, emax in *. simpl Zdigits2 in *. lia.
Qed.

Lemma Zdigits2_div_lower a b :
  0 ≤ a → 0 < b → Zdigits2 b < Zdigits2 a →
  Zdigits2 a - Zdigits2 b ≤ Zdigits2 (a `div` b).
Proof.
  intros Ha0 Hb Hlt. pose proof (Zdigits2_positive b Hb).
  assert (0 < a) as Ha.
  { destruct (decide (a = 0)) as [->|]; [simpl in Hlt; lia|lia]. }
  pose proof (Zdigits2_lower a Ha) as Hla. pose proof (Zdigits2_upper b ltac:(lia)) as Hub.
  set (k := Zdigits2 a - 1 - Zdigits2 b).
  assert (0 ≤ k) by (unfold k; lia).
  assert (2 ^ (Zdigits2 a - 1) = 2 ^ k * 2 ^ Zdigits2 b) as Hpow.
  { rewrite <- Z.pow_add_r by lia. f_equal. unfold k. lia. }
  assert (0 < 2 ^ k) by (apply Z.pow_pos_nonneg; lia).
  assert (2 ^ k ≤ a `div` b) as Hq.
  { apply Z.div_le_lower_bound; [done|]. nia. }
  replace (Zdigits2 a - Zdigits2 b) with (k + 1) by (unfold k; lia).
  apply Zdigits2_ge; [lia|]. by replace (k + 1 - 1) with k by lia.
Qed.

Lemma SFdiv_sized x y Lx Kx Ly Ky :
  sized Lx Kx x → sized Ly Ky y → -1021 ≤ Lx - Ky → Kx - Ly + 1 ≤ 970 →
  sized (Lx - Ky) (Kx - Ly + 2) (SFdiv prec emax x y).
Proof.
  intros Hx Hy HL HK.
  destruct x as [sx|sx| |[] mx ex], y as [sy|sy| |[] my ey]; simpl in *; try done.
  unfold SFdiv_core_binary.
  set (e' := Z.min _ _). set (s := ex - ey - e').
  assert (Z.pos (digits2_pos my) - Z.pos (digits2_pos mx) + 53 ≤ s) as Hs.
  { unfold s, e', fexp, SpecFloat.emin, prec, emax. simpl Zdigits2. std_Z. lia. }
  pose proof (Zdigits2_positive (Z.pos mx) ltac:(lia)) as Hdx.
  pose proof (Zdigits2_positive (Z.pos my) ltac:(lia)) as Hdy. simpl in Hdx, Hdy.
  set (m' := match s with 0 => Z.pos mx | Z.pos _ => Z.shiftl (Z.pos mx) s | Z.neg _ => 0 end).
  assert (m' = Z.pos mx * 2 ^ s) as Hm'.
  { unfold m'. destruct s as [|p|p] eqn:Hsp; [simpl; lia| |lia].
    by rewrite Z.shiftl_mul_pow2. }
  destruct (Z.div_eucl m' (Z.pos my)) as [q r] eqn:Hdiv.
  assert (q = m' `div` Z.pos my) as Hq by (unfold Z.div; by rewrite Hdiv).
  replace (Kx - Ly + 2) with (Kx - Ly + 1 + 1) by lia.
  assert (Zdigits2 m' = Z.pos (digits2_pos mx) + s) as Hdm.
  { rewrite Hm', Zdigits2_mul_pow2 by lia. done. }
  assert (0 < 2 ^ s) by (apply Z.pow_pos_nonneg; lia).
  pose proof (Zdigits2_div m' (Z.pos my) ltac:(lia) ltac:(lia)) as Hd.
  assert (Zdigits2 (Z.pos my) < Zdigits2 m') as Hlt by (rewrite Hdm; simpl; lia).
  pose proof (Zdigits2_div_lower m' (Z.pos my) ltac:(lia) ltac:(lia) Hlt) as Hd'.
  rewrite Hdm, <- Hq in Hd, Hd'. simpl Zdigits2 in Hd, Hd'.
  assert (1 ≤ Zdigits2 q) as Hq1 by lia.
  assert (0 ≤ q) as Hq0 by (subst q; apply Z.div_pos; lia).
  assert (0 < q) as Hqpos.
  { destruct (decide (q = 0)) as [->|]; [simpl in Hq1; lia|lia]. }
  apply binary_round_aux_sized; [done| |done..].
  unfold s in *. lia.
Qed.

Lemma SFsqrt_sized x L K :
  sized L K x → -1021 ≤ (L + 1) `div` 2 → (K + 1) `div` 2 ≤ 970 →
  sized ((L + 1) `div` 2) ((K + 1) `div` 2 + 1) (SFsqrt prec emax x).
Proof.
  intros Hx HL HK.
  destruct x as [sx|sx| |[] mx ex]; simpl in *; try done.
  unfold SFsqrt_core_binary.
  set (e' := Z.min _ _). set (s := ex - 2 * e').
  assert (0 ≤ s) as Hs.
  { unfold s, e'. rewrite !Z.div2_div. Z.to_euclidean_division_equations. lia. }
  set (m' := match s with 0 => Z.pos mx | Z.pos _ => Z.shiftl (Z.pos mx) s | Z.neg _ => 0 end).
  assert (m' = Z.pos mx * 2 ^ s) as Hm'.
  { unfold m'. destruct s as [|p|p] eqn:Hsp; [simpl; lia| |lia].
    by rewrite Z.shiftl_mul_pow2. }
  pose proof (Z.sqrtrem_sqrt m') as Hsqrt.
  destruct (Z.sqrtrem m') as [q r]. simpl in Hsqrt. subst q.
  assert (0 < 2 ^ s) by (apply Z.pow_pos_nonneg; lia).
  assert (0 < m') by nia.
  assert (Zdigits2 (Z.sqrt m') + e' = (Z.pos (digits2_pos mx) + ex + 1) `div` 2) as Hd.
  { rewrite Zdigits2_sqrt, Hm', Zdigits2_mul_pow2 by lia. simpl. unfold s.
    Z.to_euclidean_division_equations. lia. }
  assert (0 < Z.sqrt m') by (apply Z.sqrt_pos; lia).
  eapply (binary_round_aux_sized _ _ _ ((L + 1) `div` 2) ((K + 1) `div` 2)) ; [done| |done..].
  rewrite Hd. split; apply Z.div_le_mono; lia.
Qed.

Lemma sized_small L K x : sized L K x → small K x.
Proof. destruct x as [| | |[]]; simpl; (done || lia). Qed.

Lemma small_le K K' x : small K x → K ≤ K' → small K' x.
Proof. destruct x; simpl; (done || lia). Qed.

Lemma sized_le L K L' K' x : sized L K x → L' ≤ L → K ≤ K' → sized L' K' x.
Proof. destruct x as [| | |[]]; simpl; (done || lia). Qed.

(** ** Conversion of integers *)

(** The float nearest to a positive integer has the size of the integer,
    or one more when the rounding carries. *)
Lemma nearest_float_sized z :
  0 < z → Zdigits2 z ≤ 970 →
  sized (Zdigits2 z) (Zdigits2 z + 1) (Prim2SF (nearest_float z)).
Proof.
  intros Hz Hd. destruct z as [|p|p]; [lia| |lia].
  unfold nearest_float. simpl binary_normalize. unfold binary_round.
  pose proof (shl_align_spec p 0 (fexp prec emax (Z.pos (digits2_pos p) + 0))) as [Hm He].
  destruct (shl_align p 0 _) as [mz ez]. simpl in Hm, He, Hd.
  assert (Zdigits2 (Z.pos mz) = Z.pos (digits2_pos p) + - ez) as Hdz.
  { rewrite Hm, Zdigits2_mul_pow2 by lia. simpl. lia. }
  destruct (binary_round_aux_cases false (Z.pos mz) ez loc_Exact)
    as (d2 & m3 & Hd2 & Hm3 & Hd3 & Hround); [lia|].
  cbv zeta in *. rewrite Hdz in *.
  unfold fexp, SpecFloat.emin, prec, emax in He. std_Z.
  destruct m3 as [|m|m]; [simpl in Hd3; lia| |lia]. simpl in Hd3.
  rewrite (proj2 (Z.leb_le _ _)) in Hround by lia.
  rewrite Hround, Prim2SF_SF2Prim.
  - simpl. lia.
  - simpl. unfold bounded, canonical_mantissa, fexp, SpecFloat.emin, prec, emax. std_Z.
    apply andb_true_intro. split; [apply Z.eqb_eq|apply Z.leb_le]; lia.
Qed.

Lemma nearest_float_small z K :
  0 ≤ z → Zdigits2 z ≤ K → K ≤ 970 → small (K + 1) (Prim2SF (nearest_float z)).
Proof.
  intros Hz Hd HK. destruct (decide (z = 0)) as [->|Hne]; [done|].
  eapply small_le; [eapply sized_small, nearest_float_sized; lia|lia].
Qed.

(** ** Primitive floats *)

Lemma is_zero_sized x L K : sized L K (Prim2SF x) → PrimFloat.is_zero x = false.
Proof.
  unfold PrimFloat.is_zero. rewrite FloatAxioms.eqb_spec.
  change (Prim2SF zero) with (S754_zero false).
  by destruct (Prim2SF x) as [| | |[]].
Qed.

Lemma is_infinity_small x K : small K (Prim2SF x) → PrimFloat.is_infinity x = false.
Proof.
  unfold PrimFloat.is_infinity. rewrite FloatAxioms.eqb_spec, FloatAxioms.abs_spec.
  change (Prim2SF infinity) with (S754_infinity false).
  by destruct (Prim2SF x).
Qed.

Lemma py_int_small x K : small K (Prim2SF x) → ∃ k, py_int x = Done k.
Proof.
  unfold py_int. destruct (Prim2SF x); simpl; try done; eauto.
Qed.

Lemma py_float_small z K :
  0 ≤ z → Zdigits2 z ≤ K → K ≤ 970 → py_float z = Done (nearest_float z).
Proof.
  intros Hz Hd HK. unfold py_float.
  by rewrite (is_infinity_small _ (K + 1)) by (by apply nearest_float_small).
Qed.

Lemma mul_small x y Kx Ky :
  small Kx (Prim2SF x) → small Ky (Prim2SF y) → -1074 ≤ Kx + Ky ≤ 970 →
  small (Kx + Ky + 1) (Prim2SF (x * y)).
Proof. intros. rewrite FloatAxioms.mul_spec. by apply SFmul_small. Qed.

Lemma sub_small x y Kx Ky :
  small Kx (Prim2SF x) → small Ky (Prim2SF y) → -1074 ≤ Z.max Kx Ky + 1 ≤ 970 →
  small (Z.max Kx Ky + 2) (Prim2SF (x - y)).
Proof. intros. rewrite FloatAxioms.sub_spec. by apply SFsub_small. Qed.

Lemma div_small x y Kx Ly Ky :
  small Kx (Prim2SF x) → sized Ly Ky (Prim2SF y) → -1074 ≤ Kx - Ly + 1 ≤ 970 →
  small (Kx - Ly + 2) (Prim2SF (x / y)).
Proof. intros. rewrite FloatAxioms.div_spec. by eapply SFdiv_small. Qed.

Lemma div_sized x y Lx Kx Ly Ky :
  sized Lx Kx (Prim2SF x) → sized Ly Ky (Prim2SF y) →
  -1021 ≤ Lx - Ky → Kx - Ly + 1 ≤ 970 →
  sized (Lx - Ky) (Kx - Ly + 2) (Prim2SF (x / y)).
Proof. intros. rewrite FloatAxioms.div_spec. by eapply SFdiv_sized. Qed.

Lemma is_nan_small x K : small K (Prim2SF x) → PrimFloat.is_nan x = false.
Proof.
  unfold PrimFloat.is_nan. rewrite FloatAxioms.eqb_spec.
  destruct (Prim2SF x) as [| | |s m e]; simpl; try done.
  intros _. unfold SFeqb, SFcompare. destruct s; rewrite Z.compare_refl.
  - by rewrite Pos.compare_cont_refl.
  - by rewrite Pos.compare_cont_refl.
Qed.

Lemma is_negative_sized x L K : sized L K (Prim2SF x) → (x <? 0)%float = false.
Proof.
  rewrite FloatAxioms.ltb_spec. change (Prim2SF 0) with (S754_zero false).
  by destruct (Prim2SF x) as [| | |[] m e].
Qed.

Lemma sqrt_sized x L K :
  sized L K (Prim2SF x) → -1021 ≤ (L + 1) `div` 2 → (K + 1) `div` 2 ≤ 970 →
  sized ((L + 1) `div` 2) ((K + 1) `div` 2 + 1) (Prim2SF (PrimFloat.sqrt x)).
Proof. intros. rewrite FloatAxioms.sqrt_spec. by apply SFsqrt_sized. Qed.

(** [math.sqrt] of an integer that is not negative. *)
Lemma math_sqrt_run z K :
  0 ≤ z → Zdigits2 z ≤ K → 0 ≤ K ≤ 969 →
  math_sqrt z = Done (PrimFloat.sqrt (nearest_float z)) ∧
  small ((K + 2) `div` 2 + 1) (Prim2SF (PrimFloat.sqrt (nearest_float z))) ∧
  (0 < z → sized 1 ((K + 2) `div` 2 + 1) (Prim2SF (PrimFloat.sqrt (nearest_float z)))).
Proof.
  intros Hz Hd HK. unfold math_sqrt.
  rewrite (py_float_small z K), decide_False by lia.
  assert (0 < z → sized 1 ((K + 2) `div` 2 + 1) (Prim2SF (PrimFloat.sqrt (nearest_float z))))
    as Hsized.
  { intros Hpos. pose proof (Zdigits2_positive z Hpos).
    pose proof (nearest_float_sized z Hpos ltac:(lia)) as Hf.
    eapply sized_le; [apply (sqrt_sized _ 1 (K + 1))|..].
    - eapply sized_le; [exact Hf|lia..].
    - done.
    - Z.to_euclidean_division_equations. lia.
    - done.
    - Z.to_euclidean_division_equations. lia. }
  split_and!; [done| |done].
  destruct (decide (z = 0)) as [->|Hne].
  - rewrite FloatAxioms.sqrt_spec. done.
  - eapply sized_small, Hsized. lia.
Qed.

(** * Filters that update the pixel objects in place *)

(** ** Applying a function to the objects of a list of references *)

Lemma alter_insert (f : Pixel → Pixel) (hp : list Pixel) x p :
  hp !! x = Some p → alter f x hp = <[x := f p]> hp.
Proof.
  intros Hx. apply list_eq. intros i. destruct (decide (i = x)) as [->|Hne].
  - rewrite list_lookup_alter_eq, Hx, list_lookup_insert_eq by (by eapply lookup_lt_Some). done.
  - by rewrite list_lookup_alter_ne, list_lookup_insert_ne.
Qed.

Lemma heap_map_length f l hp : length (heap_map f l hp) = length hp.
Proof.
  revert hp. induction l as [|x l IH]; intros hp; [done|].
  simpl. by rewrite IH, length_alter.
Qed.

Lemma heap_map_lookup f l hp x :
  NoDup l →
  heap_map f l hp !! x = if decide (x ∈ l) then f <$> hp !! x else hp !! x.
Proof.
  revert hp. induction l as [|y l IH]; intros hp Hnd.
  - case_decide as Hx; [|done]. by apply not_elem_of_nil in Hx.
  - apply NoDup_cons in Hnd as [Hy Hnd].
    change (heap_map f (y :: l) hp) with (heap_map f l (alter f y hp)).
    rewrite IH by done.
    destruct (decide (x = y)) as [->|Hne].
    + rewrite list_lookup_alter_eq. repeat case_decide; try done.
      exfalso. rewrite elem_of_cons in *. tauto.
    + rewrite list_lookup_alter_ne by done.
      repeat case_decide; try done; exfalso; rewrite elem_of_cons in *; tauto.
Qed.

(** A loop that updates one object per iteration, all of them distinct. *)
Lemma for_update_all {A} (ρ : A → ref) (f : Pixel → Pixel) (P : Pixel → Prop)
    (body : A → M unit) img (l : list A) : ∀ hp,
  NoDup (ρ <$> l) →
  (∀ a, a ∈ l → ∃ p, hp !! ρ a = Some p ∧ P p) →
  (∀ a hp p, a ∈ l → hp !! ρ a = Some p → P p →
     body a (World hp img) = (Done (), World (<[ρ a := f p]> hp) img)) →
  for_ l body (World hp img) = (Done (), World (heap_map f (ρ <$> l) hp) img).
Proof.
  induction l as [|a l IH]; intros hp Hnd Hall Hbody; [done|].
  rewrite fmap_cons in Hnd. apply NoDup_cons in Hnd as [Ha Hnd].
  destruct (Hall a) as (p & Hp & HP); [left|].
  rewrite for_cons. erewrite run_bind_done by (apply Hbody; [left|done..]).
  rewrite IH; [|done| |].
  - simpl. by rewrite (alter_insert _ _ _ p).
  - intros b Hb. destruct (Hall b) as (q & Hq & HQ); [by right|].
    exists q. split; [|done]. rewrite list_lookup_insert_ne; [done|].
    intros Heq. apply Ha. rewrite Heq. by apply list_elem_of_fmap_2.
  - intros b hp' q Hb. apply Hbody. by right.
Qed.

(** ** Writing the attributes of an object *)

Lemma set_attributes_run hp img x p r g b a :
  hp !! x = Some p →
  (set_red x r ;; set_green x g ;; set_blue x b ;; set_alpha x a) (World hp img)
  = (Done (), World (<[x := RGB r g b a]> hp) img).
Proof.
  intros Hx. pose proof (lookup_lt_Some _ _ _ Hx) as Hlt.
  unfold set_red, set_green, set_blue, set_alpha.
  mstep ltac:(by apply update_run).
  mstep ltac:(apply update_run; by apply list_lookup_insert_eq).
  mstep ltac:(apply update_run; apply list_lookup_insert_eq; by rewrite length_insert).
  erewrite update_run by (apply list_lookup_insert_eq; by rewrite !length_insert).
  simpl. by rewrite !list_insert_insert_eq.
Qed.

(** ** mono *)

Lemma mono_pixel_channel sepia p :
  pixel_ok p →
  let k := brightness (red p) (green p) (blue p) in
  0 ≤ k ≤ 255 ∧
  mono_pixel sepia p =
    if sepia then RGB k ((6 * k) `div` 10) ((4 * k) `div` 10) (alpha p)
    else RGB k k k (alpha p).
Proof.
  intros (Hr & Hg & Hb & Ha). simpl.
  destruct (brightness_channel (red p) (green p) (blue p)) as (_ & Hk & _); [done..|].
  split; [done|]. unfold mono_pixel, tone.
  destruct (tone_channel _ Hk) as [-> ->].
  assert ((6 * brightness (red p) (green p) (blue p)) `div` 10 ≤ 255)
    by (apply Z.div_le_upper_bound; lia).
  assert ((4 * brightness (red p) (green p) (blue p)) `div` 10 ≤ 255)
    by (apply Z.div_le_upper_bound; lia).
  rewrite !Z.min_l by lia. done.
Qed.

Lemma mono_pixel_ok sepia p : pixel_ok p → pixel_ok (mono_pixel sepia p).
Proof.
  intros Hok. destruct (mono_pixel_channel sepia p Hok) as [Hk ->].
  destruct Hok as (_ & _ & _ & Ha).
  assert (0 ≤ (6 * brightness (red p) (green p) (blue p)) `div` 10 ≤ 255).
  { split; [apply Z.div_pos; lia|apply Z.div_le_upper_bound; lia]. }
  assert (0 ≤ (4 * brightness (red p) (green p) (blue p)) `div` 10 ≤ 255).
  { split; [apply Z.div_pos; lia|apply Z.div_le_upper_bound; lia]. }
  destruct sepia; unfold pixel_ok; simpl; lia.
Qed.

Lemma mono_body_run sepia hp img x p :
  hp !! x = Some p → pixel_ok p →
  mono_body sepia x (World hp img) = (Done (), World (<[x := mono_pixel sepia p]> hp) img).
Proof.
  intros Hx Hok. pose proof Hok as (Hr & Hg & Hb & Ha).
  pose proof (lookup_lt_Some _ _ _ Hx) as Hlt.
  destruct (brightness_channel (red p) (green p) (blue p)) as (Hint & Hk & _); [done..|].
  destruct (tone_channel _ Hk) as [Hg' Hb'].
  unfold mono_body.
  mstep ltac:(by apply load_run).
  rewrite !py_float_channel by done.
  do 3 (erewrite run_bind_done by apply run_eval).
  rewrite Hint. erewrite run_bind_done by apply run_eval.
  unfold set_red, set_green, set_blue.
  mstep ltac:(by apply update_run).
  mstep ltac:(apply update_run; by apply list_lookup_insert_eq).
  mstep ltac:(apply update_run; apply list_lookup_insert_eq; by rewrite length_insert).
  rewrite !list_insert_insert_eq. simpl.
  unfold mono_pixel, tone. rewrite Hg', Hb'.
  destruct sepia; [|done].
  rewrite py_float_channel by done.
  erewrite run_bind_done by apply run_eval.
  rewrite Hg'. erewrite run_bind_done by apply run_eval.
  mstep ltac:(apply update_run; by apply list_lookup_insert_eq).
  rewrite Hb'. erewrite run_bind_done by apply run_eval.
  erewrite update_run by (apply list_lookup_insert_eq; by rewrite length_insert).
  by rewrite !list_insert_insert_eq.
Qed.

Lemma mono_run sepia h w hp img :
  well_formed h w (World hp img) →
  mono sepia (World hp img)
  = (Done true, World (heap_map (mono_pixel sepia) (concat img) hp) img).
Proof.
  intros (_ & _ & _ & Hnd & Hall). unfold refs in *. simpl in *.
  unfold mono. mstep ltac:(apply get_image_run).
  erewrite run_bind_done; [reflexivity|].
  rewrite for_concat. change (for_ (concat img) _) with (for_ (concat img) (mono_body sepia)).
  rewrite (for_update_all id (mono_pixel sepia) pixel_ok); rewrite ?list_fmap_id; try done.
  - intros x Hx. rewrite Forall_forall in Hall. by apply Hall.
  - intros x hp' p _ Hp Hok. by apply mono_body_run.
Qed.

Lemma heap_map_well_formed f h w hp img :
  (∀ p, pixel_ok p → pixel_ok (f p)) →
  well_formed h w (World hp img) →
  well_formed h w (World (heap_map f (concat img) hp) img).
Proof.
  intros Hf (Hh & Hw & Hrect & Hnd & Hall). unfold well_formed, refs in *. simpl in *.
  split_and!; [done..|].
  rewrite Forall_forall in *. intros x Hx. destruct (Hall x Hx) as (p & Hp & Hok).
  exists (f p). rewrite heap_map_lookup, decide_True, Hp by done. split; [done|by apply Hf].
Qed.

(** The pixel seen in a cell, before and after a pixel-wise update. *)
Lemma pixel_at_heap_map f h w hp img r c :
  well_formed h w (World hp img) → (r < h)%nat → (c < w)%nat →
  ∃ p, pixel_at (World hp img) r c = Some p ∧ pixel_ok p ∧
       pixel_at (World (heap_map f (concat img) hp) img) r c = Some (f p).
Proof.
  intros (Hh & Hw & Hrect & Hnd & Hall) Hr Hc. unfold refs, pixel_at in *. simpl in *.
  rewrite (rect_lookup2 0%nat h w) by done. simpl.
  pose proof (rect_cell_elem_of 0%nat h w img r c Hrect Hr Hc) as Hin.
  rewrite Forall_forall in Hall. destruct (Hall _ Hin) as (p & Hp & Hok).
  exists p. rewrite heap_map_lookup, decide_True, Hp by done. done.
Qed.

(** * The area filters *)

(** ** Totals *)

Lemma foldl_add_pixel {A} (f : A → Pixel) (l : list A) acc :
  foldl (λ acc x, add_pixel acc (f x)) acc l
  = let '(tr, tg, tb, ta, n) := acc in
    (tr + foldr (λ x s, red (f x) + s) 0 l, tg + foldr (λ x s, green (f x) + s) 0 l,
     tb + foldr (λ x s, blue (f x) + s) 0 l, ta + foldr (λ x s, alpha (f x) + s) 0 l,
     n + Z.of_nat (length l)).
Proof.
  revert acc. induction l as [|x l IH]; intros [[[[tr tg] tb] ta] n]; simpl.
  - by rewrite !Z.add_0_r.
  - rewrite IH. simpl. f_equal; [f_equal; [f_equal; [f_equal|]|]|]; lia.
Qed.

(** The totals of a double loop are double sums. *)
Lemma foldl_add_pixel2 (f : Z → Z → Pixel) (l1 l2 : list Z) acc :
  foldl (λ acc i, foldl (λ acc j, add_pixel acc (f i j)) acc l2) acc l1
  = let '(tr, tg, tb, ta, n) := acc in
    (tr + sum_over l1 (λ i, sum_over l2 (λ j, red (f i j))),
     tg + sum_over l1 (λ i, sum_over l2 (λ j, green (f i j))),
     tb + sum_over l1 (λ i, sum_over l2 (λ j, blue (f i j))),
     ta + sum_over l1 (λ i, sum_over l2 (λ j, alpha (f i j))),
     n + Z.of_nat (length l1) * Z.of_nat (length l2)).
Proof.
  revert acc. induction l1 as [|i l1 IH]; intros [[[[tr tg] tb] ta] n]; simpl.
  - rewrite !Z.add_0_r. done.
  - rewrite foldl_add_pixel, IH. unfold sum_over. simpl.
    f_equal; [f_equal; [f_equal; [f_equal|]|]|]; lia.
Qed.

Lemma sum_over_fmap (g : Z → Z) (l : list Z) (f : Z → Z) :
  sum_over (g <$> l) f = sum_over l (f ∘ g).
Proof. unfold sum_over. induction l as [|x l IH]; simpl; [done|]. f_equal. apply IH. Qed.

Lemma sum_over_ext (l : list Z) (f g : Z → Z) :
  (∀ x, x ∈ l → f x = g x) → sum_over l f = sum_over l g.
Proof.
  unfold sum_over. induction l as [|x l IH]; intros H; simpl; [done|].
  rewrite H by left. rewrite IH; [done|]. intros. apply H. by right.
Qed.

Lemma sum_over_nonneg (l : list Z) (f : Z → Z) :
  (∀ x, x ∈ l → 0 ≤ f x) → 0 ≤ sum_over l f.
Proof.
  unfold sum_over. induction l as [|x l IH]; intros H; simpl; [done|].
  assert (0 ≤ f x) by (apply H; left).
  assert (0 ≤ foldr (λ x s, f x + s) 0 l) by (apply IH; intros; apply H; by right). lia.
Qed.

Lemma interval_shift (x radius : Z) :
  interval (x - radius) (x + radius) = Z.add x <$> range (- radius) (radius + 1).
Proof.
  unfold interval, range. rewrite fmap_add_seqZ. f_equal; lia.
Qed.

Lemma range_length a b : 0 ≤ b - a → Z.of_nat (length (range a b)) = b - a.
Proof. intros. unfold range. rewrite length_seqZ. lia. Qed.

(** ** Building a table of new objects *)

Lemma comprehension_new_row (l : list Z) hp img :
  comprehension l (λ _, new_RGB 0 0 0 0) (World hp img)
  = (Done (seq (length hp) (length l)),
     World (hp ++ replicate (length l) (RGB 0 0 0 0)) img).
Proof.
  revert hp. induction l as [|x l IH]; intros hp; simpl.
  - by rewrite app_nil_r.
  - rewrite run_bind. unfold new_RGB at 1. simpl. rewrite run_bind, IH. simpl.
    rewrite length_app, <- app_assoc. simpl. rewrite run_ret, Nat.add_1_r. done.
Qed.

Lemma comprehension_new_table (l1 l2 : list Z) hp img :
  ∃ b0, rect (length l1) (length l2) b0 ∧
    comprehension l1 (λ _, comprehension l2 (λ _, new_RGB 0 0 0 0)) (World hp img)
    = (Done b0, World (hp ++ replicate (length l1 * length l2) (RGB 0 0 0 0)) img).
Proof.
  revert hp. induction l1 as [|x l1 IH]; intros hp; simpl.
  - exists []. split; [by split|]. by rewrite app_nil_r.
  - destruct (IH (hp ++ replicate (length l2) (RGB 0 0 0 0))) as (b0 & [Hlen Hall] & Hrun).
    eexists (_ :: b0). split; last first.
    + rewrite run_bind, comprehension_new_row, run_bind, Hrun. simpl.
      by rewrite <- app_assoc, <- replicate_add.
    + split; [simpl; by rewrite Hlen|]. constructor; [by rewrite length_seq|done].
Qed.

(** ** Filling a local table with new objects *)

Section fill_new.
Variables (P : nat → nat → Pixel) (body : Z → Z → list (list ref) → M (list (list ref))).
Variables (hp0 : list Pixel) (img : list (list ref)) (h w : nat).

(** What the body does at a cell of the table: a new object, and the cell
    bound to it. *)
Hypothesis body_run : ∀ (r c : nat) b row extra,
  length b = h → b !! r = Some row → (c < length row)%nat → (c < w)%nat →
  body (Z.of_nat r) (Z.of_nat c) b (World (hp0 ++ extra) img)
  = (Done (<[r := <[c := length (hp0 ++ extra)]> row]> b),
     World (hp0 ++ extra ++ [P r c]) img).

Lemma fold_new_row (r : nat) n : ∀ s b row extra,
  length b = h → b !! r = Some row → (s + n ≤ length row)%nat → (s + n ≤ w)%nat →
  fold_for (Z.of_nat <$> seq s n) b (body (Z.of_nat r)) (World (hp0 ++ extra) img)
  = (Done (<[r := take s row ++ seq (length hp0 + length extra) n ++ drop (s + n) row]> b),
     World (hp0 ++ extra ++ (P r <$> seq s n)) img).
Proof using body_run.
  induction n as [|n IH]; intros s b row extra Hb Hr Hlen Hw.
  - simpl. rewrite run_ret, Nat.add_0_r, take_drop, list_insert_id, app_nil_r by done. done.
  - simpl. rewrite run_bind, (body_run r s b row extra) by (done || lia).
    replace (hp0 ++ extra ++ [P r s]) with (hp0 ++ (extra ++ [P r s])) by done.
    erewrite IH; [|by rewrite length_insert
                  |by apply list_lookup_insert_eq; eapply lookup_lt_Some
                  |rewrite length_insert; lia|lia].
    rewrite list_insert_insert_eq. f_equal; [do 2 f_equal|by rewrite <- !app_assoc].
    rewrite (take_S_r _ _ (length (hp0 ++ extra))) by (apply list_lookup_insert_eq; lia).
    rewrite take_insert_ge by lia.
    rewrite drop_insert_lt by lia.
    rewrite !length_app, <- app_assoc. simpl. repeat f_equal; lia.
Qed.

Lemma fold_new_rows n : ∀ s b extra,
  length b = h →
  (∀ r, (s ≤ r < s + n)%nat → ∃ row, b !! r = Some row ∧ length row = w) →
  fold_for (Z.of_nat <$> seq s n) b
    (λ row b, fold_for (range 0 (Z.of_nat w)) b (body row)) (World (hp0 ++ extra) img)
  = (Done (take s b
           ++ ((λ r, seq (length hp0 + length extra + (r - s) * w) w) <$> seq s n)
           ++ drop (s + n) b),
     World (hp0 ++ extra ++ concat ((λ r, P r <$> seq 0 w) <$> seq s n)) img).
Proof using body_run.
  induction n as [|n IH]; intros s b extra Hb Hrows.
  - simpl. by rewrite run_ret, Nat.add_0_r, take_drop, app_nil_r.
  - simpl. destruct (Hrows s) as (row & Hrow & Hlen); [lia|].
    rewrite run_bind, range_nat, (fold_new_row s w 0 b row) by (done || lia).
    replace (hp0 ++ extra ++ (P s <$> seq 0 w)) with (hp0 ++ (extra ++ (P s <$> seq 0 w)))
      by done.
    rewrite <- range_nat, IH; [|by rewrite length_insert|]; last first.
    { intros r Hr. rewrite list_lookup_insert_ne by lia. apply Hrows. lia. }
    f_equal; [f_equal|by rewrite <- !app_assoc].
    rewrite take_0, drop_ge, app_nil_r by lia. simpl.
    rewrite (take_S_r _ _ (seq (length hp0 + length extra) w)); last first.
    { apply list_lookup_insert_eq. by eapply lookup_lt_Some. }
    rewrite take_insert_ge by lia.
    rewrite drop_insert_lt by lia.
    rewrite <- app_assoc. simpl. f_equal. f_equal; [f_equal; lia|]. f_equal; [|f_equal; lia].
    apply list_fmap_ext. intros i r [-> _]%lookup_seq.
    rewrite length_app, length_fmap, length_seq.
    replace (S s + i - s)%nat with (S i) by lia. replace (S s + i - S s)%nat with i by lia.
    f_equal. simpl. lia.
Qed.

(** Filling an [h] by [w] table: the new objects are numbered row by row. *)
Lemma fold_new_table b :
  rect h w b →
  fold_for (range 0 (Z.of_nat h)) b
    (λ row b, fold_for (range 0 (Z.of_nat w)) b (body row)) (World hp0 img)
  = (Done (tabulate h w (λ r c, (length hp0 + (r * w + c))%nat)),
     World (hp0 ++ concat (tabulate h w P)) img).
Proof using body_run.
  intros Hrect.
  rewrite <- (app_nil_r hp0) at 1. rewrite range_nat, fold_new_rows; [|apply Hrect|]; last first.
  { intros r Hr. apply (rect_lookup h w); [done|lia]. }
  destruct Hrect as [Hlen _].
  rewrite take_0, drop_ge, app_nil_r by (simpl; lia). simpl. f_equal. f_equal.
  unfold tabulate. apply list_fmap_ext. intros _ r _. simpl.
  rewrite Nat.add_0_r, Nat.sub_0_r.
  replace (length hp0 + r * w)%nat with (length hp0 + r * w + 0)%nat by lia.
  rewrite <- (fmap_add_seq (length hp0 + r * w) 0 w).
  apply list_fmap_ext. intros _ c _. simpl. lia.
Qed.

End fill_new.

(** ** Reading the pixels of a grid *)

Section reading.
Variables (hp : list Pixel) (img : list (list ref)) (h w : nat).
Hypothesis Hrect : rect h w img.
Hypothesis Halloc : ∀ x, x ∈ concat img → is_Some (hp !! x).

Lemma pixel_at_allocated r c :
  (r < h)%nat → (c < w)%nat →
  ∃ p, hp !! cell 0%nat img r c = Some p ∧ pixel_at (World hp img) r c = Some p.
Proof using Hrect Halloc.
  intros Hr Hc. destruct (Halloc (cell 0%nat img r c)) as [p Hp].
  { by apply (rect_cell_elem_of _ h w). }
  exists p. split; [done|]. unfold pixel_at. simpl.
  rewrite (rect_lookup2 0%nat h w) by done. done.
Qed.

(** [image[i][j]] and the attributes of the object found there, whatever
    has been added to the store since. *)
Lemma read_pixel_run extra (i j : Z) :
  0 ≤ i < Z.of_nat h → 0 ≤ j < Z.of_nat w →
  ∃ x, image_get i j (World (hp ++ extra) img) = (Done x, World (hp ++ extra) img) ∧
       load x (World (hp ++ extra) img)
       = (Done (pixel_of (World hp img) i j), World (hp ++ extra) img).
Proof using Hrect Halloc.
  intros Hi Hj.
  destruct (pixel_at_allocated (Z.to_nat i) (Z.to_nat j)) as (p & Hp & Hat); [lia..|].
  unfold pixel_of. rewrite Hat. simpl.
  exists (cell 0%nat img (Z.to_nat i) (Z.to_nat j)). split.
  - rewrite <- (Z2Nat.id i), <- (Z2Nat.id j) at 1 by lia.
    apply image_get_run. apply (rect_lookup2 0%nat h w); (done || lia).
  - apply load_run. by apply lookup_app_l_Some.
Qed.

End reading.

(** ** blur *)

Lemma blur_totals_sums wd h w radius r c :
  blur_totals wd h w radius r c
  = let l := range (- radius) (radius + 1) in
    let px i j := pixel_of wd (Z.max 0 (Z.min (Z.of_nat r + i) (Z.of_nat h - 1)))
                              (Z.max 0 (Z.min (Z.of_nat c + j) (Z.of_nat w - 1))) in
    (sum_over l (λ i, sum_over l (λ j, red (px i j))),
     sum_over l (λ i, sum_over l (λ j, green (px i j))),
     sum_over l (λ i, sum_over l (λ j, blue (px i j))),
     sum_over l (λ i, sum_over l (λ j, alpha (px i j))),
     Z.of_nat (length l) * Z.of_nat (length l)).
Proof. unfold blur_totals. by rewrite foldl_add_pixel2. Qed.

Lemma blur_totals_count wd h w radius r c :
  0 ≤ radius → (blur_totals wd h w radius r c).2 = (2 * radius + 1) ^ 2.
Proof.
  intros. rewrite blur_totals_sums. simpl. rewrite range_length by lia. lia.
Qed.

Lemma blur_totals_count_neg wd h w radius r c :
  radius < 0 → (blur_totals wd h w radius r c).2 = 0.
Proof.
  intros. rewrite blur_totals_sums. simpl. unfold range.
  rewrite length_seqZ. lia.
Qed.

Section blur_run.
Variables (hp : list Pixel) (img : list (list ref)) (h w : nat) (radius : Z).
Hypothesis Hrect : rect h w img.
Hypothesis Halloc : ∀ x, x ∈ concat img → is_Some (hp !! x).

(** The two inner loops of [blur] at the cell [(r, c)]. *)
Lemma blur_totals_run extra (r c : nat) :
  (r < h)%nat → (c < w)%nat →
  fold_for (range (- radius) (radius + 1)) (0, 0, 0, 0, 0) (λ i acc,
    fold_for (range (- radius) (radius + 1)) acc
      (λ j '(total_red, total_green, total_blue, total_alpha, count),
        let new_row := Z.max 0 (Z.min (Z.of_nat r + i) (Z.of_nat h - 1)) in
        let new_col := Z.max 0 (Z.min (Z.of_nat c + j) (Z.of_nat w - 1)) in
        pixel ← image_get new_row new_col;
        p ← load pixel;
        mret (total_red + red p, total_green + green p,
              total_blue + blue p, total_alpha + alpha p, count + 1)))
    (World (hp ++ extra) img)
  = (Done (blur_totals (World hp img) h w radius r c), World (hp ++ extra) img).
Proof using Hrect Halloc.
  intros Hr Hc. unfold blur_totals.
  apply (fold_for_pure _ (λ acc i, foldl (λ acc j, add_pixel acc
    (pixel_of (World hp img) (Z.max 0 (Z.min (Z.of_nat r + i) (Z.of_nat h - 1)))
                             (Z.max 0 (Z.min (Z.of_nat c + j) (Z.of_nat w - 1)))))
    acc (range (- radius) (radius + 1)))).
  intros i acc _. apply fold_for_pure. intros j [[[[tr tg] tb] ta] n] _.
  destruct (read_pixel_run hp img h w Hrect Halloc extra
    (Z.max 0 (Z.min (Z.of_nat r + i) (Z.of_nat h - 1)))
    (Z.max 0 (Z.min (Z.of_nat c + j) (Z.of_nat w - 1)))) as (x & Hget & Hload); [lia..|].
  cbv zeta. mstep ltac:(exact Hget). mstep ltac:(exact Hload). done.
Qed.

Lemma setitem2_run {A} (b : list (list A)) (r c : nat) row x :
  b !! r = Some row → (c < length row)%nat →
  setitem2 b (Z.of_nat r) (Z.of_nat c) x = Some (<[r := <[c := x]> row]> b).
Proof using Type.
  intros Hr Hc. unfold setitem2. rewrite getitem_nat, Hr. simpl.
  rewrite setitem_nat by done. simpl.
  rewrite setitem_nat by (by eapply lookup_lt_Some). done.
Qed.

(** The body of the two outer loops of [blur] at the cell [(r, c)]: a new
    object with the averages, bound to the cell of the local table. *)
Lemma blur_cell_run extra b row (r c : nat) :
  0 ≤ radius → (r < h)%nat → (c < w)%nat →
  b !! r = Some row → (c < length row)%nat →
  ('(total_red, total_green, total_blue, total_alpha, count) ←
     fold_for (range (- radius) (radius + 1)) (0, 0, 0, 0, 0) (λ i acc,
       fold_for (range (- radius) (radius + 1)) acc
         (λ j '(total_red, total_green, total_blue, total_alpha, count),
           let new_row := Z.max 0 (Z.min (Z.of_nat r + i) (Z.of_nat h - 1)) in
           let new_col := Z.max 0 (Z.min (Z.of_nat c + j) (Z.of_nat w - 1)) in
           pixel ← image_get new_row new_col;
           p ← load pixel;
           mret (total_red + red p, total_green + green p,
                 total_blue + blue p, total_alpha + alpha p, count + 1)));
   average_red ← floordiv total_red count;
   average_green ← floordiv total_green count;
   average_blue ← floordiv total_blue count;
   average_alpha ← floordiv total_alpha count;
   x ← new_RGB average_red average_green average_blue average_alpha;
   lift IndexError (setitem2 b (Z.of_nat r) (Z.of_nat c) x))
    (World (hp ++ extra) img)
  = (Done (<[r := <[c := length (hp ++ extra)]> row]> b),
     World (hp ++ extra ++ [average_pixel (blur_totals (World hp img) h w radius r c)]) img).
Proof using Hrect Halloc.
  intros Hradius Hr Hc Hrow Hlen.
  mstep ltac:(by apply blur_totals_run).
  pose proof (blur_totals_count (World hp img) h w radius r c Hradius) as Hcount.
  destruct (blur_totals _ _ _ _ _ _) as [[[[tr tg] tb] ta] n]. simpl in Hcount.
  assert (n ≠ 0) by (subst n; apply Z.pow_nonzero; lia).
  do 4 (mstep ltac:(by apply floordiv_run)).
  unfold new_RGB at 1. rewrite run_bind. simpl.
  rewrite (setitem2_run _ _ _ row) by done. unfold lift. rewrite run_ret, <- app_assoc. done.
Qed.

End blur_run.

(** [blur] with a radius that is not negative: the image is re-bound to new
    objects, one per cell, holding the averages; the objects of the old
    image are not written. *)
Lemma blur_run hp img (h w : nat) radius :
  rect h w img → (0 < h)%nat → (∀ x, x ∈ concat img → is_Some (hp !! x)) → 0 ≤ radius →
  blur radius (World hp img)
  = (Done true,
     World ((hp ++ replicate (h * w) (RGB 0 0 0 0))
            ++ concat (tabulate h w (λ r c,
                 average_pixel (blur_totals (World hp img) h w radius r c))))
           (tabulate h w (λ r c, (length hp + h * w + (r * w + c))%nat))).
Proof.
  intros Hrect Hh Halloc Hradius. unfold blur.
  destruct (rect_dims h w img Hrect Hh) as (Hlen & row0 & Hrow0 & Hlen0).
  mstep ltac:(apply len_image_run).
  mstep ltac:(by apply (image_row_run _ _ 0%nat)).
  rewrite Hlen, Hlen0.
  destruct (comprehension_new_table (range 0 (Z.of_nat h)) (range 0 (Z.of_nat w)) hp img)
    as (b0 & Hb0 & Hnew).
  rewrite !range_nat, !length_fmap, !length_seq in Hb0, Hnew. rewrite <- !range_nat in Hnew.
  mstep ltac:(exact Hnew).
  erewrite run_bind_done; last first.
  { apply (fold_new_table
      (λ r c, average_pixel (blur_totals (World hp img) h w radius r c))); [|exact Hb0].
    intros r c b row extra Hb Hrow Hc Hcw.
    assert (r < h)%nat as Hr by (rewrite <- Hb; by eapply lookup_lt_Some).
    rewrite <- !(app_assoc hp).
    erewrite (blur_cell_run hp img h w radius Hrect Halloc (replicate _ _ ++ extra)) by done.
    by rewrite <- !app_assoc. }
  erewrite run_bind_done; [reflexivity|].
  erewrite for_ext.
  - rewrite (for_fill (λ r c, (length hp + h * w + (Z.to_nat r * w + Z.to_nat c))%nat))
      by done.
    do 2 f_equal. apply tabulate_ext. intros. by rewrite !Nat2Z.id.
  - intros x w0 (r & -> & Hr)%elem_of_range_nat. apply for_ext.
    intros y w1 (c & -> & Hc)%elem_of_range_nat.
    rewrite getitem2_nat, tabulate_lookup2 by done.
    rewrite length_app, length_replicate, !Nat2Z.id. done.
Qed.


(** The pixel seen in a cell after [blur]. *)
Lemma pixel_at_blurred (hp : list Pixel) (h w : nat) (P : nat → nat → Pixel) r c :
  (r < h)%nat → (c < w)%nat →
  pixel_at (World ((hp ++ replicate (h * w) (RGB 0 0 0 0)) ++ concat (tabulate h w P))
                  (tabulate h w (λ r c, (length hp + h * w + (r * w + c))%nat))) r c
  = Some (P r c).
Proof.
  intros Hr Hc. unfold pixel_at. simpl.
  rewrite tabulate_lookup2 by done. simpl.
  rewrite lookup_app_r; rewrite length_app, length_replicate; [|lia].
  replace (length hp + h * w + (r * w + c) - (length hp + h * w))%nat with (r * w + c)%nat by lia.
  rewrite (rect_concat_lookup h w) by (done || apply tabulate_rect).
  by apply tabulate_lookup2.
Qed.

(** [blur] with a negative radius: no sample is taken, and the first average
    divides by zero; the image has not been touched yet. *)
Lemma blur_negative_run hp img (h w : nat) radius :
  rect h w img → (0 < h)%nat → (0 < w)%nat →
  (∀ x, x ∈ concat img → is_Some (hp !! x)) → radius < 0 →
  blur radius (World hp img)
  = (Raise ZeroDivisionError, World (hp ++ replicate (h * w) (RGB 0 0 0 0)) img).
Proof.
  intros Hrect Hh Hw Halloc Hradius. unfold blur.
  destruct (rect_dims h w img Hrect Hh) as (Hlen & row0 & Hrow0 & Hlen0).
  mstep ltac:(apply len_image_run).
  mstep ltac:(by apply (image_row_run _ _ 0%nat)).
  rewrite Hlen, Hlen0.
  destruct (comprehension_new_table (range 0 (Z.of_nat h)) (range 0 (Z.of_nat w)) hp img)
    as (b0 & Hb0 & Hnew).
  rewrite !range_nat, !length_fmap, !length_seq in Hb0, Hnew. rewrite <- !range_nat in Hnew.
  mstep ltac:(exact Hnew).
  apply run_bind_raise.
  rewrite (range_cons h), (range_cons w) by done.
  do 2 apply fold_for_raise_first.
  pose proof (blur_totals_run hp img h w radius Hrect Halloc
                (replicate (h * w) (RGB 0 0 0 0)) 0 0 Hh Hw) as Hsum.
  mstep ltac:(apply Hsum).
  pose proof (blur_totals_count_neg (World hp img) h w radius 0 0 Hradius) as Hcount.
  destruct (blur_totals _ _ _ _ _ _) as [[[[tr tg] tb] ta] n]. simpl in Hcount. subst n.
  apply run_bind_raise. unfold floordiv. by rewrite decide_True.
Qed.

(** ** The averages of [blur], as specified *)

Lemma well_formed_allocated h w hp img :
  well_formed h w (World hp img) → ∀ x, x ∈ concat img → is_Some (hp !! x).
Proof.
  intros (_ & _ & _ & _ & Hall) x Hx. unfold refs in Hall. simpl in Hall.
  rewrite Forall_forall in Hall. destruct (Hall x Hx) as (p & -> & _). by eexists.
Qed.

Lemma pixel_at_well_formed h w wd r c :
  well_formed h w wd → (r < h)%nat → (c < w)%nat →
  ∃ p, pixel_at wd r c = Some p ∧ pixel_ok p ∧
       heap wd !! cell 0%nat (image wd) r c = Some p.
Proof.
  intros (_ & _ & Hrect & _ & Hall) Hr Hc. unfold refs, pixel_at in *.
  rewrite (rect_lookup2 0%nat h w) by done. simpl.
  rewrite Forall_forall in Hall.
  destruct (Hall (cell 0%nat (image wd) r c)) as (p & Hp & Hok).
  { by apply (rect_cell_elem_of _ h w). }
  by exists p.
Qed.

Lemma pixel_of_ok h w wd (i j : Z) :
  well_formed h w wd → 0 ≤ i < Z.of_nat h → 0 ≤ j < Z.of_nat w → pixel_ok (pixel_of wd i j).
Proof.
  intros Hwf Hi Hj.
  destruct (pixel_at_well_formed h w wd (Z.to_nat i) (Z.to_nat j)) as (p & Hp & Hok & _);
    [done|lia..|].
  unfold pixel_of. by rewrite Hp.
Qed.

Lemma pixel_of_nat wd (r c : nat) p :
  pixel_at wd r c = Some p → pixel_of wd (Z.of_nat r) (Z.of_nat c) = p.
Proof. intros H. unfold pixel_of. by rewrite !Nat2Z.id, H. Qed.

Lemma average_pixel_blur h w wd radius (r c : nat) :
  well_formed h w wd → 0 ≤ radius → (r < h)%nat → (c < w)%nat →
  average_pixel (blur_totals wd h w radius r c) = blur_pixel wd h w radius r c.
Proof.
  intros Hwf Hradius Hr Hc. rewrite blur_totals_sums. cbv zeta.
  unfold average_pixel, blur_pixel, box_sum, clamp.
  rewrite !interval_shift, range_length by lia.
  replace ((radius + 1 - - radius) * (radius + 1 - - radius)) with ((2 * radius + 1) ^ 2) by lia.
  assert (0 < (2 * radius + 1) ^ 2) by (apply Z.pow_pos_nonneg; lia).
  assert (∀ (ch : Pixel → Z), (∀ p, pixel_ok p → 0 ≤ ch p) →
    sum_over (range (- radius) (radius + 1)) (λ i,
      sum_over (range (- radius) (radius + 1)) (λ j,
        ch (pixel_of wd (Z.max 0 (Z.min (Z.of_nat r + i) (Z.of_nat h - 1)))
                        (Z.max 0 (Z.min (Z.of_nat c + j) (Z.of_nat w - 1))))))
      `div` (2 * radius + 1) ^ 2
    = sum_over (Z.add (Z.of_nat r) <$> range (- radius) (radius + 1)) (λ i,
        sum_over (Z.add (Z.of_nat c) <$> range (- radius) (radius + 1)) (λ j,
          ch (pixel_of wd (Z.max 0 (Z.min i (Z.of_nat h - 1)))
                          (Z.max 0 (Z.min j (Z.of_nat w - 1))))))
      `quot` (2 * radius + 1) ^ 2) as Hch.
  { intros ch Hpos. rewrite sum_over_fmap.
    erewrite (sum_over_ext _ (_ ∘ _)); [|intros i _; simpl; apply sum_over_fmap].
    simpl. rewrite Z.quot_div_nonneg; [done| |done].
    apply sum_over_nonneg. intros i _. apply sum_over_nonneg. intros j _. simpl.
    apply Hpos, (pixel_of_ok h w); [done|lia..]. }
  rewrite <- !Hch by (intros p (? & ? & ? & ?); lia). done.
Qed.

Lemma average_pixel_single wd h w (r c : nat) p :
  (r < h)%nat → (c < w)%nat → pixel_at wd r c = Some p →
  average_pixel (blur_totals wd h w 0 r c) = p.
Proof.
  intros Hr Hc Hp. unfold blur_totals.
  change (range (- 0) (0 + 1)) with [0]. simpl.
  rewrite !Z.add_0_r, !Z.min_l, !Z.max_r by lia.
  rewrite (pixel_of_nat _ _ _ _ Hp), !Z.div_1_r. by destruct p.
Qed.

(** * pixellate *)

(** ** Nested loops *)

Lemma for_fmap {A B} (g : A → B) (l : list A) (body : B → M unit) w :
  for_ (g <$> l) body w = for_ l (body ∘ g) w.
Proof.
  revert w. induction l as [|x l IH]; intros w; [done|].
  rewrite fmap_cons, !for_cons, !run_bind. simpl.
  destruct (body (g x) w) as [[[]|e] w']; [apply IH|done].
Qed.

Lemma for_pairs {A B} (l1 : list A) (l2 : list B) (body : A → B → M unit) w :
  for_ l1 (λ a, for_ l2 (body a)) w = for_ (pairs l1 l2) (λ ab, body ab.1 ab.2) w.
Proof.
  revert w. induction l1 as [|a l1 IH]; intros w; [done|].
  unfold pairs in *. rewrite bind_cons, for_cons, for_app, !run_bind, for_fmap.
  change (for_ l2 ((λ ab, body ab.1 ab.2) ∘ pair a)) with (for_ l2 (body a)).
  destruct (for_ l2 (body a) w) as [[[]|e] w']; [apply IH|done].
Qed.

Lemma elem_of_pairs {A B} (l1 : list A) (l2 : list B) a b :
  (a, b) ∈ pairs l1 l2 ↔ a ∈ l1 ∧ b ∈ l2.
Proof.
  unfold pairs. rewrite list_elem_of_bind. split.
  - intros (a' & Hab & Ha'). apply list_elem_of_fmap in Hab as (b' & [= -> ->] & Hb'). done.
  - intros [Ha Hb]. exists a. split; [|done]. by apply list_elem_of_fmap_2.
Qed.

(** A loop that keeps an invariant of the elements already met. *)
Lemma for_invariant {A} (Inv : list A → world → Prop) (body : A → M unit) (l : list A) w :
  Inv [] w →
  (∀ met x rest w, l = met ++ x :: rest → Inv met w →
     ∃ w', body x w = (Done (), w') ∧ Inv (met ++ [x]) w') →
  ∃ w', for_ l body w = (Done (), w') ∧ Inv l w'.
Proof.
  intros H0 Hstep.
  assert (∀ rest met w, l = met ++ rest → Inv met w →
            ∃ w', for_ rest body w = (Done (), w') ∧ Inv l w') as Hgen.
  { induction rest as [|x rest IH]; intros met w0 Hl Hinv.
    - exists w0. rewrite app_nil_r in Hl. subst met. done.
    - destruct (Hstep met x rest w0 Hl Hinv) as (w1 & Hrun & Hinv1).
      destruct (IH (met ++ [x]) w1) as (w2 & Hrun2 & Hinv2); [by rewrite <- app_assoc|done|].
      exists w2. split; [|done]. rewrite for_cons. by erewrite run_bind_done. }
  by apply (Hgen l []).
Qed.

(** A loop that writes the same pixel to one object per iteration. *)
Lemma for_write_all {A} (ρ : A → ref) (v : Pixel) (body : A → M unit) img (l : list A) :
  ∀ hp,
  (∀ a hp p, a ∈ l → hp !! ρ a = Some p →
     body a (World hp img) = (Done (), World (<[ρ a := v]> hp) img)) →
  (∀ a, a ∈ l → is_Some (hp !! ρ a)) →
  ∃ hp', for_ l body (World hp img) = (Done (), World hp' img) ∧
         length hp' = length hp ∧
         ∀ x, hp' !! x = if decide (x ∈ ρ <$> l) then Some v else hp !! x.
Proof.
  induction l as [|a l IH]; intros hp Hbody Hall.
  - exists hp. split_and!; [done..|]. intros x. rewrite fmap_nil.
    case_decide as Hx; [by apply not_elem_of_nil in Hx|done].
  - destruct (Hall a) as [p Hp]; [left|].
    pose proof (lookup_lt_Some _ _ _ Hp) as Hlt.
    destruct (IH (<[ρ a := v]> hp)) as (hp' & Hrun & Hlen & Hlook).
    { intros b hp0 q Hb. apply Hbody. by right. }
    { intros b Hb. destruct (decide (ρ b = ρ a)) as [->|Hne].
      - rewrite list_lookup_insert_eq by done. by eexists.
      - rewrite list_lookup_insert_ne by done. apply Hall. by right. }
    exists hp'. split_and!.
    + rewrite for_cons. erewrite run_bind_done by (apply (Hbody a hp p); [left|done]). done.
    + by rewrite Hlen, length_insert.
    + intros x. rewrite Hlook, fmap_cons.
      destruct (decide (x ∈ ρ <$> l)) as [Hin|Hnin].
      * by rewrite decide_True by (by right).
      * destruct (decide (x = ρ a)) as [->|Hne].
        -- rewrite list_lookup_insert_eq by done. by rewrite decide_True by left.
        -- rewrite list_lookup_insert_ne by done.
           rewrite decide_False; [done|]. rewrite elem_of_cons. tauto.
Qed.

(** ** [range(0, n, step)] *)

Lemma range_step_pos n step :
  0 < step →
  range_step 0 n step = Some ((λ k, 0 + k * step) <$> seqZ 0 ((n - 0 + step - 1) `div` step)).
Proof. intros. unfold range_step. by rewrite decide_False, decide_True by lia. Qed.

Lemma elem_of_range_step n step l x :
  0 < step → range_step 0 n step = Some l →
  x ∈ l ↔ 0 ≤ x < n ∧ x `mod` step = 0.
Proof.
  intros Hstep. rewrite range_step_pos by done. intros [= <-].
  rewrite list_elem_of_fmap. setoid_rewrite elem_of_seqZ. split.
  - intros (k & -> & Hk0 & Hk).
    assert (k * step < n); [|split; [nia|]].
    { apply Z.lt_le_pred in Hk.
      assert (k * step ≤ (Z.pred ((n - 0 + step - 1) `div` step)) * step) by nia.
      pose proof (Z.mul_div_le (n - 0 + step - 1) step Hstep). lia. }
    rewrite Z.add_0_l. by apply Z_mod_mult.
  - intros [[Hx0 Hx] Hmod]. exists (x `div` step).
    pose proof (Z.div_mod x step) as Hdiv. rewrite Hmod in Hdiv.
    split; [lia|]. split; [apply Z.div_pos; lia|].
    rewrite Z.add_0_l. apply Z.div_lt_upper_bound; [done|].
    assert (n - 0 + step - 1 - step < step * ((n - 0 + step - 1) `div` step)); [|nia].
    pose proof (Z.mod_pos_bound (n - 0 + step - 1) step Hstep).
    pose proof (Z.div_mod (n - 0 + step - 1) step). lia.
Qed.

(** ** One block *)

Section block.
Variables (img : list (list ref)) (h w : nat) (step : Z).
Hypothesis Hrect : rect h w img.
Hypothesis Hstep : 0 < step.

(** The reading loops of a block. *)
Lemma block_totals_run hp row col :
  (∀ x, x ∈ concat img → is_Some (hp !! x)) →
  0 ≤ row < Z.of_nat h → 0 ≤ col < Z.of_nat w →
  fold_for (range 0 (Z.min step (Z.of_nat h - row))) (0, 0, 0, 0, 0) (λ i acc,
    fold_for (range 0 (Z.min step (Z.of_nat w - col))) acc
      (λ j '(avg_red, avg_green, avg_blue, avg_alpha, count),
        pixel ← image_get (row + i) (col + j);
        p ← load pixel;
        mret (avg_red + red p, avg_green + green p,
              avg_blue + blue p, avg_alpha + alpha p, count + 1)))
    (World hp img)
  = (Done (block_totals (World hp img) h w step row col), World hp img).
Proof using Hrect.
  intros Halloc Hrow Hcol. unfold block_totals.
  apply (fold_for_pure _ (λ acc i, foldl (λ acc j, add_pixel acc
    (pixel_of (World hp img) (row + i) (col + j)))
    acc (range 0 (Z.min step (Z.of_nat w - col))))).
  intros i acc Hi%elem_of_range. apply fold_for_pure.
  intros j [[[[tr tg] tb] ta] n] Hj%elem_of_range.
  destruct (read_pixel_run hp img h w Hrect Halloc [] (row + i) (col + j))
    as (x & Hget & Hload); [lia..|].
  rewrite app_nil_r in Hget, Hload.
  mstep ltac:(exact Hget). mstep ltac:(exact Hload). done.
Qed.

Lemma block_totals_sums wd row col :
  block_totals wd h w step row col
  = let l1 := range 0 (Z.min step (Z.of_nat h - row)) in
    let l2 := range 0 (Z.min step (Z.of_nat w - col)) in
    let px i j := pixel_of wd (row + i) (col + j) in
    (sum_over l1 (λ i, sum_over l2 (λ j, red (px i j))),
     sum_over l1 (λ i, sum_over l2 (λ j, green (px i j))),
     sum_over l1 (λ i, sum_over l2 (λ j, blue (px i j))),
     sum_over l1 (λ i, sum_over l2 (λ j, alpha (px i j))),
     Z.of_nat (length l1) * Z.of_nat (length l2)).
Proof using Type. unfold block_totals. by rewrite foldl_add_pixel2. Qed.

Lemma block_totals_count wd row col :
  row < Z.of_nat h → col < Z.of_nat w →
  (block_totals wd h w step row col).2
  = Z.min step (Z.of_nat h - row) * Z.min step (Z.of_nat w - col).
Proof using Hstep.
  intros. rewrite block_totals_sums. simpl. rewrite !range_length by lia. lia.
Qed.

Lemma elem_of_block_cells row col i j :
  (i, j) ∈ block_cells h w step row col
  ↔ 0 ≤ i < Z.min step (Z.of_nat h - row) ∧ 0 ≤ j < Z.min step (Z.of_nat w - col).
Proof using Type. unfold block_cells. by rewrite elem_of_pairs, !elem_of_range. Qed.

(** The body of the two outer loops of [pixellate] at the block whose first
    cell is [(row, col)]: every object of the block gets the averages over
    the block; no other object is written. *)
Lemma block_run hp row col :
  (∀ x, x ∈ concat img → is_Some (hp !! x)) →
  0 ≤ row < Z.of_nat h → 0 ≤ col < Z.of_nat w →
  ∃ hp',
    ('(avg_red, avg_green, avg_blue, avg_alpha, count) ←
       fold_for (range 0 (Z.min step (Z.of_nat h - row))) (0, 0, 0, 0, 0) (λ i acc,
         fold_for (range 0 (Z.min step (Z.of_nat w - col))) acc
           (λ j '(avg_red, avg_green, avg_blue, avg_alpha, count),
             pixel ← image_get (row + i) (col + j);
             p ← load pixel;
             mret (avg_red + red p, avg_green + green p,
                   avg_blue + blue p, avg_alpha + alpha p, count + 1)));
     avg_red ← floordiv avg_red count;
     avg_green ← floordiv avg_green count;
     avg_blue ← floordiv avg_blue count;
     avg_alpha ← floordiv avg_alpha count;
     for_ (range 0 (Z.min step (Z.of_nat h - row))) (λ i,
       for_ (range 0 (Z.min step (Z.of_nat w - col))) (λ j,
         pixel ← image_get (row + i) (col + j);
         set_red pixel avg_red;;
         set_green pixel avg_green;;
         set_blue pixel avg_blue;;
         set_alpha pixel avg_alpha))) (World hp img)
    = (Done (), World hp' img) ∧
    length hp' = length hp ∧
    ∀ x, hp' !! x =
      if decide (x ∈ block_ref img row col <$> block_cells h w step row col)
      then Some (average_pixel (block_totals (World hp img) h w step row col))
      else hp !! x.
Proof using Hrect Hstep.
  intros Halloc Hrow Hcol.
  pose proof (block_totals_count (World hp img) row col) as Hcount.
  destruct (block_totals (World hp img) h w step row col)
    as [[[[tr tg] tb] ta] n] eqn:Htotals. simpl in Hcount.
  assert (n ≠ 0) by (rewrite Hcount by lia; nia).
  destruct (for_write_all (block_ref img row col)
    (RGB (tr `div` n) (tg `div` n) (tb `div` n) (ta `div` n))
    (λ ij, pixel ← image_get (row + ij.1) (col + ij.2);
           set_red pixel (tr `div` n);; set_green pixel (tg `div` n);;
           set_blue pixel (tb `div` n);; set_alpha pixel (ta `div` n))
    img (block_cells h w step row col) hp) as (hp' & Hrun & Hlen & Hlook).
  - intros [i j] hp0 p [Hi Hj]%elem_of_block_cells Hp. simpl in *.
    erewrite run_bind_done; last first.
    { rewrite <- (Z2Nat.id (row + i)), <- (Z2Nat.id (col + j)) at 1 by lia.
      apply image_get_run. apply (rect_lookup2 0%nat h w); (done || lia). }
    apply (set_attributes_run _ _ _ p). exact Hp.
  - intros [i j] [Hi Hj]%elem_of_block_cells. apply Halloc.
    apply (rect_cell_elem_of _ h w); simpl; (done || lia).
  - exists hp'. split_and!; [|done..].
    mstep ltac:(by apply block_totals_run). rewrite Htotals.
    do 4 (mstep ltac:(by apply floordiv_run)).
    rewrite for_pairs. exact Hrun.
Qed.

End block.

(** ** The partition into blocks *)

Lemma block_origin_bounds step x :
  0 < step → block_origin step x ≤ x < block_origin step x + step.
Proof.
  intros Hstep. unfold block_origin.
  pose proof (Z.div_mod x step). pose proof (Z.mod_pos_bound x step Hstep). lia.
Qed.

Lemma block_origin_mod step x : 0 < step → block_origin step x `mod` step = 0.
Proof. intros. unfold block_origin. rewrite Z.mul_comm. by apply Z_mod_mult. Qed.

Lemma block_origin_nonneg step x : 0 < step → 0 ≤ x → 0 ≤ block_origin step x.
Proof. intros. unfold block_origin. apply Z.mul_nonneg_nonneg; [lia|]. apply Z.div_pos; lia. Qed.

Lemma block_origin_unique step x R :
  0 < step → R `mod` step = 0 → R ≤ x < R + step → block_origin step x = R.
Proof.
  intros Hstep Hmod Hx. unfold block_origin.
  pose proof (Z.div_mod R step) as HR. rewrite Hmod, Z.add_0_r in HR.
  rewrite <- (Z.div_unique x step (R `div` step) (x - R)); lia.
Qed.

Lemma foldl_ext_elem {A B} (f g : B → A → B) (l : list A) acc :
  (∀ acc x, x ∈ l → f acc x = g acc x) → foldl f acc l = foldl g acc l.
Proof.
  revert acc. induction l as [|x l IH]; intros acc H; simpl; [done|].
  rewrite H by left. apply IH. intros. apply H. by right.
Qed.

Lemma NoDup_pairs {A B} (l1 : list A) (l2 : list B) :
  NoDup l1 → NoDup l2 → NoDup (pairs l1 l2).
Proof.
  intros H1 H2. induction H1 as [|a l1 Ha _ IH]; [constructor|].
  unfold pairs in *. rewrite bind_cons. apply NoDup_app. split_and!; [|intros [a' b]|done].
  - apply NoDup_fmap_2; [|done]. by intros b b' [=].
  - intros (b' & [= -> ->] & _)%list_elem_of_fmap [Ha' _]%elem_of_pairs. done.
Qed.

(** [range(0, n, step)] with a positive step: the multiples of [step] below
    [n], each once. *)
Lemma range_step_multiples n step :
  0 < step →
  ∃ l, range_step 0 n step = Some l ∧ NoDup l ∧
       ∀ x, x ∈ l ↔ 0 ≤ x < n ∧ x `mod` step = 0.
Proof.
  intros Hstep. eexists. split; [by apply range_step_pos|]. split.
  - apply NoDup_fmap_2; [intros a b Hab; nia|apply NoDup_seqZ].
  - intros x. apply elem_of_range_step; [done|]. by apply range_step_pos.
Qed.

Section blocks.
Variables (img : list (list ref)) (h w : nat) (step : Z).
Hypothesis Hrect : rect h w img.
Hypothesis Hnodup : NoDup (concat img).
Hypothesis Hstep : 0 < step.

Lemma pixel_at_cell hp r c :
  (r < h)%nat → (c < w)%nat → pixel_at (World hp img) r c = hp !! cell 0%nat img r c.
Proof using Hrect.
  intros Hr Hc. unfold pixel_at. simpl. by rewrite (rect_lookup2 0%nat h w).
Qed.

(** The objects of a block are those of the cells whose block it is. *)
Lemma cell_in_block (r c : nat) R C :
  (r < h)%nat → (c < w)%nat →
  0 ≤ R < Z.of_nat h → R `mod` step = 0 → 0 ≤ C < Z.of_nat w → C `mod` step = 0 →
  cell 0%nat img r c ∈ block_ref img R C <$> block_cells h w step R C
  ↔ block_origin step (Z.of_nat r) = R ∧ block_origin step (Z.of_nat c) = C.
Proof using Hrect Hnodup Hstep.
  intros Hr Hc HR HRm HC HCm. rewrite list_elem_of_fmap. split.
  - intros ([i j] & Heq & [Hi Hj]%elem_of_block_cells). unfold block_ref in Heq. simpl in Heq.
    apply (rect_cell_inj _ h w) in Heq as [-> ->]; [|done|done|lia..].
    rewrite !Z2Nat.id by lia. split; apply block_origin_unique; (done || lia).
  - intros [<- <-].
    pose proof (block_origin_bounds step (Z.of_nat r) Hstep).
    pose proof (block_origin_bounds step (Z.of_nat c) Hstep).
    exists (Z.of_nat r - block_origin step (Z.of_nat r),
            Z.of_nat c - block_origin step (Z.of_nat c)). split.
    + unfold block_ref. simpl. f_equal; lia.
    + apply elem_of_block_cells. lia.
Qed.

(** The totals of a block depend on the pixels of its cells only. *)
Lemma block_totals_ext hp hp' R C :
  0 ≤ R → 0 ≤ C →
  (∀ r c : nat, (r < h)%nat → (c < w)%nat →
     R ≤ Z.of_nat r < R + step → C ≤ Z.of_nat c < C + step →
     hp' !! cell 0%nat img r c = hp !! cell 0%nat img r c) →
  block_totals (World hp' img) h w step R C = block_totals (World hp img) h w step R C.
Proof using Hrect Hstep.
  intros HR HC Heq. unfold block_totals.
  apply foldl_ext_elem. intros acc i Hi%elem_of_range.
  apply foldl_ext_elem. intros acc' j Hj%elem_of_range.
  f_equal. unfold pixel_of. rewrite !pixel_at_cell by lia. rewrite Heq by lia. done.
Qed.

End blocks.

(** The averages the code computes for a block are those specified for each
    of its cells. *)
Lemma average_pixel_block h w wd step (r c : nat) :
  well_formed h w wd → 0 < step → (r < h)%nat → (c < w)%nat →
  average_pixel (block_totals wd h w step (block_origin step (Z.of_nat r))
                                          (block_origin step (Z.of_nat c)))
  = pixellate_pixel wd h w step r c.
Proof.
  intros Hwf Hstep Hr Hc. rewrite block_totals_sums. cbv zeta.
  pose proof (block_origin_bounds step (Z.of_nat r) Hstep) as Hbr.
  pose proof (block_origin_bounds step (Z.of_nat c) Hstep) as Hbc.
  pose proof (block_origin_nonneg step (Z.of_nat r) Hstep) as Hnr.
  pose proof (block_origin_nonneg step (Z.of_nat c) Hstep) as Hnc.
  unfold average_pixel, pixellate_pixel, block_limit.
  set (R := block_origin step (Z.of_nat r)) in *.
  set (C := block_origin step (Z.of_nat c)) in *.
  rewrite !range_length by lia.
  assert (range R (Z.min (R + step) (Z.of_nat h))
          = Z.add R <$> range 0 (Z.min step (Z.of_nat h - R))) as ->.
  { unfold range. rewrite fmap_add_seqZ. f_equal; lia. }
  assert (range C (Z.min (C + step) (Z.of_nat w))
          = Z.add C <$> range 0 (Z.min step (Z.of_nat w - C))) as ->.
  { unfold range. rewrite fmap_add_seqZ. f_equal; lia. }
  replace ((Z.min (R + step) (Z.of_nat h) - R) * (Z.min (C + step) (Z.of_nat w) - C))
    with ((Z.min step (Z.of_nat h - R) - 0) * (Z.min step (Z.of_nat w - C) - 0)) by lia.
  set (n := (Z.min step (Z.of_nat h - R) - 0) * (Z.min step (Z.of_nat w - C) - 0)).
  assert (0 < n) by (unfold n; nia).
  assert (∀ (ch : Pixel → Z), (∀ p, pixel_ok p → 0 ≤ ch p) →
    sum_over (range 0 (Z.min step (Z.of_nat h - R))) (λ i,
      sum_over (range 0 (Z.min step (Z.of_nat w - C))) (λ j,
        ch (pixel_of wd (R + i) (C + j)))) `div` n
    = sum_over (Z.add R <$> range 0 (Z.min step (Z.of_nat h - R))) (λ i,
        sum_over (Z.add C <$> range 0 (Z.min step (Z.of_nat w - C))) (λ j,
          ch (pixel_of wd i j))) `quot` n) as Hch.
  { intros ch Hpos. rewrite sum_over_fmap.
    erewrite (sum_over_ext _ (_ ∘ _)); [|intros i _; simpl; apply sum_over_fmap].
    simpl. rewrite Z.quot_div_nonneg; [done| |done].
    apply sum_over_nonneg. intros i Hi%elem_of_range.
    apply sum_over_nonneg. intros j Hj%elem_of_range. simpl.
    apply Hpos, (pixel_of_ok h w); [done|lia..]. }
  rewrite <- !Hch by (intros p (? & ? & ? & ?); lia). done.
Qed.

(** ** pixellate *)

(** [pixellate] with a positive step: every object of the image ends with
    the averages over its block, computed from the pixels the grid had
    before the call; the image itself is not re-bound. *)
Lemma pixellate_run h w hp img step :
  well_formed h w (World hp img) → 0 < step →
  ∃ hp', pixellate step (World hp img) = (Done true, World hp' img) ∧
         length hp' = length hp ∧
         ∀ r c, (r < h)%nat → (c < w)%nat →
           hp' !! cell 0%nat img r c = Some (pixellate_pixel (World hp img) h w step r c).
Proof.
  intros Hwf Hstep. pose proof Hwf as (Hh & Hw & Hrect & Hnd & Hall).
  unfold refs in *. simpl in *.
  pose proof (well_formed_allocated h w hp img Hwf) as Halloc.
  destruct (rect_dims h w img Hrect Hh) as (Hlen & row0 & Hrow0 & Hlen0).
  destruct (range_step_multiples (Z.of_nat h) step Hstep) as (rows & Hrows & Hndr & Hinr).
  destruct (range_step_multiples (Z.of_nat w) step Hstep) as (cols & Hcols & Hndc & Hinc).
  pose (Inv := λ (met : list (Z * Z)) (wd : world),
    image wd = img ∧ length (heap wd) = length hp ∧
    ∀ r c, (r < h)%nat → (c < w)%nat →
      heap wd !! cell 0%nat img r c =
        if decide ((block_origin step (Z.of_nat r), block_origin step (Z.of_nat c)) ∈ met)
        then Some (pixellate_pixel (World hp img) h w step r c)
        else hp !! cell 0%nat img r c).
  destruct (for_invariant Inv
    (λ ab : Z * Z,
      '(avg_red, avg_green, avg_blue, avg_alpha, count) ←
         fold_for (range 0 (Z.min step (Z.of_nat h - ab.1))) (0, 0, 0, 0, 0) (λ i acc,
           fold_for (range 0 (Z.min step (Z.of_nat w - ab.2))) acc
             (λ j '(avg_red, avg_green, avg_blue, avg_alpha, count),
               pixel ← image_get (ab.1 + i) (ab.2 + j);
               p ← load pixel;
               mret (avg_red + red p, avg_green + green p,
                     avg_blue + blue p, avg_alpha + alpha p, count + 1)));
       avg_red ← floordiv avg_red count;
       avg_green ← floordiv avg_green count;
       avg_blue ← floordiv avg_blue count;
       avg_alpha ← floordiv avg_alpha count;
       for_ (range 0 (Z.min step (Z.of_nat h - ab.1))) (λ i,
         for_ (range 0 (Z.min step (Z.of_nat w - ab.2))) (λ j,
           pixel ← image_get (ab.1 + i) (ab.2 + j);
           set_red pixel avg_red;;
           set_green pixel avg_green;;
           set_blue pixel avg_blue;;
           set_alpha pixel avg_alpha)))
    (pairs rows cols) (World hp img)) as ([hp' img'] & Hrun & Himg & Hlen' & Hcells).
  - split_and!; [done..|]. intros r c _ _. rewrite decide_False; [done|apply not_elem_of_nil].
  - intros met [R C] rest [hp1 img1] Hl (Himg1 & Hlen1 & Hcells1). simpl in *. subst img1.
    assert ((R, C) ∈ pairs rows cols) as [HR HC]%elem_of_pairs.
    { rewrite Hl. apply elem_of_app. right. left. }
    apply Hinr in HR as [HR HRm]. apply Hinc in HC as [HC HCm].
    assert ((R, C) ∉ met) as Hfresh.
    { pose proof (NoDup_pairs rows cols Hndr Hndc) as Hndp. rewrite Hl in Hndp.
      apply NoDup_app in Hndp as (_ & Hdisj & _). intros Hin. apply (Hdisj _ Hin). left. }
    destruct (block_run img h w step Hrect Hstep hp1 R C) as (hp2 & Hrun2 & Hlen2 & Hlook2);
      [|done..|].
    { intros x Hx. apply lookup_lt_is_Some. rewrite Hlen1.
      apply lookup_lt_is_Some. by apply Halloc. }
    exists (World hp2 img). split; [exact Hrun2|]. split_and!; [done|simpl; lia|].
    intros r c Hr Hc. simpl. rewrite Hlook2.
    destruct (decide (block_origin step (Z.of_nat r) = R ∧ block_origin step (Z.of_nat c) = C))
      as [[HbR HbC]|Hne].
    + rewrite decide_True by (apply (cell_in_block img h w step); done).
      rewrite decide_True by (rewrite HbR, HbC; apply elem_of_app; right; left).
      f_equal. rewrite (block_totals_ext img h w step Hrect Hstep hp hp1); [|lia..|].
      * rewrite <- HbR, <- HbC. by apply average_pixel_block.
      * intros r' c' Hr' Hc' HR' HC'. rewrite Hcells1 by done.
        rewrite (block_origin_unique step _ R), (block_origin_unique step _ C) by done.
        by rewrite decide_False.
    + rewrite decide_False by (rewrite (cell_in_block img h w step); done).
      rewrite Hcells1 by done.
      destruct (decide (_ ∈ met)) as [Hin|Hnin].
      * rewrite decide_True; [done|]. apply elem_of_app. by left.
      * rewrite decide_False; [done|]. rewrite elem_of_app, list_elem_of_singleton.
        intros [?|[= ? ?]]; tauto.
  - simpl in *. subst img'. exists hp'. split_and!; [|done|].
    + unfold pixellate.
      mstep ltac:(apply len_image_run).
      mstep ltac:(apply (image_row_run _ _ 0%nat), Hrow0).
      rewrite Hlen, Hlen0, Hrows. mstep ltac:(reflexivity).
      erewrite run_bind_done; [reflexivity|].
      erewrite for_ext; last first.
      { intros row wd _. rewrite Hcols. erewrite run_bind_done; reflexivity. }
      rewrite for_pairs. exact Hrun.
    + intros r c Hr Hc. rewrite Hcells by done. rewrite decide_True; [done|].
      pose proof (block_origin_bounds step (Z.of_nat r) Hstep).
      pose proof (block_origin_bounds step (Z.of_nat c) Hstep).
      pose proof (block_origin_nonneg step (Z.of_nat r) Hstep).
      pose proof (block_origin_nonneg step (Z.of_nat c) Hstep).
      apply elem_of_pairs. split; [apply Hinr|apply Hinc];
        (split; [lia|by apply block_origin_mod]).
Qed.

(** [pixellate] with step 0: [range(0, height, 0)] is an error, met before
    any pixel is read. *)
Lemma pixellate_zero_run h w hp img :
  rect h w img → (0 < h)%nat →
  pixellate 0 (World hp img) = (Raise ValueError, World hp img).
Proof.
  intros Hrect Hh. unfold pixellate.
  destruct (rect_dims h w img Hrect Hh) as (Hlen & row0 & Hrow0 & Hlen0).
  mstep ltac:(apply len_image_run).
  mstep ltac:(apply (image_row_run _ _ 0%nat), Hrow0).
  reflexivity.
Qed.

(** [pixellate] with a negative step: [range(0, height, step)] is empty. *)
Lemma pixellate_negative_run h w hp img step :
  rect h w img → (0 < h)%nat → step < 0 →
  pixellate step (World hp img) = (Done true, World hp img).
Proof.
  intros Hrect Hh Hstep. unfold pixellate.
  destruct (rect_dims h w img Hrect Hh) as (Hlen & row0 & Hrow0 & Hlen0).
  mstep ltac:(apply len_image_run).
  mstep ltac:(apply (image_row_run _ _ 0%nat), Hrow0).
  rewrite Hlen. unfold range_step. rewrite !decide_False by lia.
  rewrite (seqZ_nil 0 ((0 - Z.of_nat h - step - 1) `div` (- step))); [reflexivity|].
  apply Z.lt_succ_r, Z.div_lt_upper_bound; lia.
Qed.

(** * vignette *)

(** A loop that updates one object per iteration, all of them distinct,
    each in its own way. *)
Lemma for_update_each {A} (ρ : A → ref) (f : A → Pixel → Pixel) (P : Pixel → Prop)
    (body : A → M unit) img (l : list A) : ∀ hp,
  NoDup (ρ <$> l) →
  (∀ a, a ∈ l → ∃ p, hp !! ρ a = Some p ∧ P p) →
  (∀ a hp p, a ∈ l → hp !! ρ a = Some p → P p →
     body a (World hp img) = (Done (), World (<[ρ a := f a p]> hp) img)) →
  ∃ hp', for_ l body (World hp img) = (Done (), World hp' img) ∧
         length hp' = length hp ∧
         (∀ a, a ∈ l → hp' !! ρ a = f a <$> hp !! ρ a) ∧
         (∀ x, x ∉ ρ <$> l → hp' !! x = hp !! x).
Proof.
  induction l as [|a l IH]; intros hp Hnd Hall Hbody.
  - exists hp. split_and!; [done..| |done]. by intros a Ha%not_elem_of_nil.
  - rewrite fmap_cons in Hnd. apply NoDup_cons in Hnd as [Ha Hnd].
    destruct (Hall a) as (p & Hp & HP); [left|].
    pose proof (lookup_lt_Some _ _ _ Hp) as Hlt.
    destruct (IH (<[ρ a := f a p]> hp)) as (hp' & Hrun & Hlen & Hin & Hout); [done| | |].
    { intros b Hb. destruct (Hall b) as (q & Hq & HQ); [by right|].
      exists q. split; [|done]. rewrite list_lookup_insert_ne; [done|].
      intros Heq. apply Ha. rewrite Heq. by apply list_elem_of_fmap_2. }
    { intros b hp0 q Hb. apply Hbody. by right. }
    exists hp'. split_and!.
    + rewrite for_cons. erewrite run_bind_done by (apply Hbody; [left|done..]). done.
    + by rewrite Hlen, length_insert.
    + intros b [->|Hb]%elem_of_cons.
      * rewrite Hout by done. by rewrite list_lookup_insert_eq, Hp.
      * rewrite Hin by done. rewrite list_lookup_insert_ne; [done|].
        intros Heq. apply Ha. rewrite Heq. by apply list_elem_of_fmap_2.
    + intros x Hx. rewrite fmap_cons, not_elem_of_cons in Hx. destruct Hx as [Hne Hx].
      rewrite Hout by done. by rewrite list_lookup_insert_ne.
Qed.

(** ** Exact quotients *)

(** A finite number divided by itself is 1. *)
Lemma SFdiv_self s m e :
  SFdiv prec emax (S754_finite s m e) (S754_finite s m e) = Prim2SF 1.
Proof.
  unfold SFdiv, SFdiv_core_binary. std_Z.
  replace (Zdigits2 (Z.pos m) + e - (Zdigits2 (Z.pos m) + e)) with 0 by lia.
  replace (e - e) with 0 by lia.
  change (Z.min (fexp prec emax 0) 0) with (-53). change (0 - -53) with 53.
  cbv iota. rewrite Z.shiftl_mul_pow2 by lia.
  destruct (Z.div_eucl (Z.pos m * 2 ^ 53) (Z.pos m)) as [q r] eqn:Hdiv.
  assert (q = (Z.pos m * 2 ^ 53) `div` Z.pos m) as Hq by (unfold Z.div; by rewrite Hdiv).
  assert (r = (Z.pos m * 2 ^ 53) `mod` Z.pos m) as Hr by (unfold Z.modulo; by rewrite Hdiv).
  rewrite Z.mul_comm, Z.div_mul in Hq by lia. rewrite Z.mul_comm, Z.mod_mul in Hr by lia.
  subst q r. replace (new_location (Z.pos m) 0) with loc_Exact.
  - destruct s; reflexivity.
  - unfold new_location, new_location_even, new_location_odd. by destruct (Z.even _).
Qed.

Lemma div_self x L K : sized L K (Prim2SF x) → (x / x)%float = 1%float.
Proof.
  intros Hx. apply Prim2SF_inj. rewrite FloatAxioms.div_spec.
  destruct (Prim2SF x) as [| | |s m e]; [done..|]. apply SFdiv_self.
Qed.

Lemma div_zero x L K : sized L K (Prim2SF x) → (0 / x)%float = 0%float.
Proof.
  intros Hx. apply Prim2SF_inj. rewrite FloatAxioms.div_spec.
  change (Prim2SF 0) with (S754_zero false).
  by destruct (Prim2SF x) as [| | |[] m e].
Qed.

(** ** Darkening a channel *)

Lemma darken_one v : 0 ≤ v ≤ 255 → darken 1 v = v.
Proof.
  intros Hv. apply Z.eqb_eq. revert v Hv. apply channel_values_forall.
  vm_compute. reflexivity.
Qed.

Lemma darken_zero v : 0 ≤ v ≤ 255 → darken 0 v = 0.
Proof.
  intros Hv. apply Z.eqb_eq. revert v Hv. apply channel_values_forall.
  vm_compute. reflexivity.
Qed.

Lemma nearest_float_channel v : 0 ≤ v ≤ 255 → small 9 (Prim2SF (nearest_float v)).
Proof.
  intros Hv. apply (nearest_float_small v 8); [lia| |lia].
  apply Zdigits2_le; [lia..|]. change (2 ^ 8) with 256. lia.
Qed.

Lemma darken_run factor v K :
  small K (Prim2SF factor) → 0 ≤ v ≤ 255 → -1083 ≤ K ≤ 961 →
  py_int (nearest_float v * factor)%float = Done (darken factor v).
Proof.
  intros Hf Hv HK.
  destruct (py_int_small (nearest_float v * factor) (9 + K + 1)) as [k Hk].
  { apply mul_small; [by apply nearest_float_channel|done|lia]. }
  unfold darken. by rewrite Hk.
Qed.

(** ** The factor *)

Lemma sum_squares_digits a b :
  Z.abs a < 2 ^ 400 → Z.abs b < 2 ^ 400 →
  0 ≤ a ^ 2 + b ^ 2 ∧ Zdigits2 (a ^ 2 + b ^ 2) ≤ 801.
Proof.
  intros Ha Hb. rewrite !Z.pow_2_r.
  assert (2 ^ 801 = 2 * (2 ^ 400 * 2 ^ 400)) as Hpow.
  { rewrite <- Z.pow_add_r, <- Z.pow_succ_r by lia. done. }
  assert (0 < 2 ^ 400) as Hpos by (apply Z.pow_pos_nonneg; lia).
  generalize dependent (2 ^ 400). intros B Ha Hb Hpow HB.
  split; [nia|]. apply Zdigits2_le; [nia|lia|]. rewrite Hpow. nia.
Qed.

(** ** The square *)

(** A number of the range on which the platform is regular has a square. *)
Lemma py_square_run pow2 x :
  regular_pow pow2 → sized (-401) 403 (Prim2SF x) →
  ∃ y, py_square pow2 x = Done y ∧ small 807 (Prim2SF y).
Proof.
  intros Hpow Hx. pose proof (sized_small _ _ _ Hx) as Hsmall. unfold py_square.
  rewrite (is_nan_small x 403), (is_infinity_small x 403) by done.
  rewrite (is_zero_sized x (-401) 403), (is_negative_sized x (-401) 403) by done.
  destruct (x =? 1)%float.
  - exists 1%float. split; [done|]. vm_compute. discriminate.
  - destruct (Hpow x Hx) as (y & -> & Hy). exists y.
    by rewrite (is_infinity_small y 807).
Qed.

(** The correctly rounded square is regular. *)
Lemma regular_rounded_pow : regular_pow rounded_pow.
Proof.
  intros x Hx. pose proof (sized_small _ _ _ Hx) as Hsmall.
  assert (small 807 (Prim2SF (x * x))) as Hy.
  { apply (mul_small _ _ 403 403); [done..|lia]. }
  exists (x * x)%float. split; [|done].
  unfold rounded_pow. by rewrite (is_infinity_small _ 807).
Qed.

Section factor.
Variable pow2 : float → float * errno.
Hypothesis Hpow : regular_pow pow2.
Variables (h w : nat).
Hypothesis Hdims : (1 < h ∧ 0 < w ∨ 0 < h ∧ 1 < w)%nat.
Hypothesis Hh : Z.of_nat h < 2 ^ 400.
Hypothesis Hw : Z.of_nat w < 2 ^ 400.

Lemma center_bounds :
  0 ≤ Z.of_nat h `div` 2 < 2 ^ 400 ∧ 0 ≤ Z.of_nat w `div` 2 < 2 ^ 400 ∧
  (0 < Z.of_nat h `div` 2 ∨ 0 < Z.of_nat w `div` 2).
Proof using Hdims Hh Hw.
  assert (0 < 2 ^ 400) by (apply Z.pow_pos_nonneg; lia).
  generalize dependent (2 ^ 400). intros B ? ? ?.
  Z.to_euclidean_division_equations. lia.
Qed.

(** The half diagonal is a positive finite number. *)
Lemma half_diagonal_run :
  let z := (Z.of_nat h `div` 2) ^ 2 + (Z.of_nat w `div` 2) ^ 2 in
  math_sqrt z = Done (PrimFloat.sqrt (nearest_float z)) ∧
  sized 1 402 (Prim2SF (PrimFloat.sqrt (nearest_float z))).
Proof using Hdims Hh Hw.
  destruct center_bounds as (Hr & Hc & Hpos).
  destruct (sum_squares_digits (Z.of_nat h `div` 2) (Z.of_nat w `div` 2)) as [H0 Hd]; [lia..|].
  cbv zeta.
  destruct (math_sqrt_run _ 801 H0 Hd) as (Hrun & _ & Hsized); [lia|].
  split; [done|]. apply Hsized. rewrite !Z.pow_2_r. nia.
Qed.

(** The float operations of a cell succeed, and the factor is finite. *)
Lemma vignette_factor_run (row col : Z) :
  0 ≤ row < Z.of_nat h → 0 ≤ col < Z.of_nat w →
  let half_diagonal :=
    PrimFloat.sqrt (nearest_float ((Z.of_nat h `div` 2) ^ 2 + (Z.of_nat w `div` 2) ^ 2)) in
  let z := (row - Z.of_nat h `div` 2) ^ 2 + (col - Z.of_nat w `div` 2) ^ 2 in
  let distance := PrimFloat.sqrt (nearest_float z) in
  let q := (distance / half_diagonal)%float in
  ∃ q2,
    math_sqrt z = Done distance ∧
    py_truediv distance half_diagonal = Done q ∧
    py_square pow2 q = Done q2 ∧
    vignette_factor pow2 h w row col = (1 - q2)%float ∧
    small 809 (Prim2SF (vignette_factor pow2 h w row col)).
Proof using Hpow Hdims Hh Hw.
  intros Hrow Hcol. destruct center_bounds as (Hr & Hc & _).
  destruct half_diagonal_run as [_ HH]. cbv zeta in *.
  set (half_diagonal := PrimFloat.sqrt (nearest_float ((Z.of_nat h `div` 2) ^ 2 + _))) in *.
  destruct (sum_squares_digits (row - Z.of_nat h `div` 2) (col - Z.of_nat w `div` 2))
    as [H0 Hd]; [lia..|].
  destruct (math_sqrt_run _ 801 H0 Hd) as (Hrun & _ & Hsized); [lia|].
  change ((801 + 2) `div` 2 + 1) with 402 in Hsized.
  assert (∃ q2,
    py_square pow2
      (PrimFloat.sqrt (nearest_float
         ((row - Z.of_nat h `div` 2) ^ 2 + (col - Z.of_nat w `div` 2) ^ 2)) / half_diagonal)
    = Done q2 ∧ small 807 (Prim2SF q2)) as (q2 & Hq2 & Hsmall).
  { destruct (decide ((row - Z.of_nat h `div` 2) ^ 2 + (col - Z.of_nat w `div` 2) ^ 2 = 0))
      as [->|Hne].
    - change (PrimFloat.sqrt (nearest_float 0)) with 0%float.
      rewrite (div_zero _ 1 402) by done. by exists 0%float.
    - apply py_square_run; [done|].
      apply (div_sized _ _ 1 402 1 402); [apply Hsized; lia|done|lia..]. }
  exists q2.
  assert (vignette_factor pow2 h w row col = (1 - q2)%float) as Hfactor.
  { unfold vignette_factor. fold half_diagonal. by rewrite Hq2. }
  split_and!; [done| |done|done|].
  - unfold py_truediv. by rewrite (is_zero_sized _ 1 402).
  - rewrite Hfactor. apply (sub_small _ _ 1 807); [|done|lia]. vm_compute. discriminate.
Qed.

(** The body of the loops at a cell whose object holds channel values. *)
Lemma vignette_body_run hp img (r c : nat) x p :
  (r < h)%nat → (c < w)%nat →
  img !! r ≫= (.!! c) = Some x → hp !! x = Some p → pixel_ok p →
  vignette_body pow2 (Z.of_nat h `div` 2) (Z.of_nat w `div` 2)
    (PrimFloat.sqrt (nearest_float ((Z.of_nat h `div` 2) ^ 2 + (Z.of_nat w `div` 2) ^ 2)))
    (Z.of_nat r) (Z.of_nat c) (World hp img)
  = (Done (), World (<[x := vignette_pixel pow2 h w r c p]> hp) img).
Proof using Hpow Hdims Hh Hw.
  intros Hr Hc Hx Hp (Hred & Hgreen & Hblue & Halpha).
  pose proof (lookup_lt_Some _ _ _ Hp) as Hlt.
  destruct (vignette_factor_run (Z.of_nat r) (Z.of_nat c))
    as (q2 & Hd & Hq & Hq2 & Hfactor & Hf); [lia..|].
  cbv zeta in *. unfold vignette_body. rewrite Hd.
  erewrite run_bind_done by apply run_eval. rewrite Hq.
  erewrite run_bind_done by apply run_eval. rewrite Hq2.
  erewrite run_bind_done by apply run_eval. cbv zeta.
  rewrite <- Hfactor.
  set (factor := vignette_factor pow2 h w (Z.of_nat r) (Z.of_nat c)) in *.
  mstep ltac:(by apply image_get_run).
  mstep ltac:(by apply load_run).
  unfold vignette_pixel. fold factor. case_decide as Hopaque; last first.
  { rewrite run_ret, list_insert_id by done. done. }
  rewrite (py_float_channel (red p)) by done.
  erewrite run_bind_done by apply run_eval.
  rewrite (darken_run factor (red p) 809) by (done || lia).
  erewrite run_bind_done by apply run_eval.
  unfold set_red, set_green, set_blue.
  mstep ltac:(by apply update_run).
  mstep ltac:(apply load_run; by apply list_lookup_insert_eq).
  cbn [green blue alpha red].
  rewrite (py_float_channel (green p)) by done.
  erewrite run_bind_done by apply run_eval.
  rewrite (darken_run factor (green p) 809) by (done || lia).
  erewrite run_bind_done by apply run_eval.
  mstep ltac:(apply update_run; by apply list_lookup_insert_eq).
  mstep ltac:(apply load_run; apply list_lookup_insert_eq; by rewrite length_insert).
  cbn [green blue alpha red].
  rewrite (py_float_channel (blue p)) by done.
  erewrite run_bind_done by apply run_eval.
  rewrite (darken_run factor (blue p) 809) by (done || lia).
  erewrite run_bind_done by apply run_eval.
  erewrite update_run by (apply list_lookup_insert_eq; by rewrite length_insert).
  cbn [green blue alpha red]. by rewrite !list_insert_insert_eq.
Qed.

End factor.

(** ** The centre and the first corner *)

(** At the centre the quotient is zero and at the first corner it is one:
    the interpreter settles both squares without the platform. *)
Lemma vignette_factor_center pow2 h w :
  (1 < h ∧ 0 < w ∨ 0 < h ∧ 1 < w)%nat → Z.of_nat h < 2 ^ 400 → Z.of_nat w < 2 ^ 400 →
  vignette_factor pow2 h w (Z.of_nat h `div` 2) (Z.of_nat w `div` 2) = 1%float.
Proof.
  intros Hdims Hh Hw. destruct (half_diagonal_run h w Hdims Hh Hw) as [_ HH].
  cbv zeta in HH. unfold vignette_factor. rewrite !Z.sub_diag.
  change (PrimFloat.sqrt (nearest_float (0 ^ 2 + 0 ^ 2))) with 0%float.
  by rewrite (div_zero _ 1 402).
Qed.

Lemma vignette_factor_corner pow2 h w :
  (1 < h ∧ 0 < w ∨ 0 < h ∧ 1 < w)%nat → Z.of_nat h < 2 ^ 400 → Z.of_nat w < 2 ^ 400 →
  vignette_factor pow2 h w 0 0 = 0%float.
Proof.
  intros Hdims Hh Hw. destruct (half_diagonal_run h w Hdims Hh Hw) as [_ HH].
  cbv zeta in HH. unfold vignette_factor.
  replace ((0 - Z.of_nat h `div` 2) ^ 2 + (0 - Z.of_nat w `div` 2) ^ 2)
    with ((Z.of_nat h `div` 2) ^ 2 + (Z.of_nat w `div` 2) ^ 2) by (rewrite !Z.pow_2_r; ring).
  by rewrite (div_self _ 1 402).
Qed.

(** ** The filter *)

(** [vignette] on a grid of more than one cell: every object of the image
    is darkened by the factor of its cell, unless it is opaque. *)
Lemma vignette_run pow2 h w hp img :
  regular_pow pow2 →
  well_formed h w (World hp img) → (1 < h ∨ 1 < w)%nat →
  Z.of_nat h < 2 ^ 400 → Z.of_nat w < 2 ^ 400 →
  ∃ hp', vignette pow2 (World hp img) = (Done true, World hp' img) ∧
         length hp' = length hp ∧
         (∀ r c, (r < h)%nat → (c < w)%nat →
            hp' !! cell 0%nat img r c
            = vignette_pixel pow2 h w r c <$> hp !! cell 0%nat img r c) ∧
         (∀ x, x ∉ concat img → hp' !! x = hp !! x).
Proof.
  intros Hpow Hwf Hbig Hh Hw. pose proof Hwf as (Hh0 & Hw0 & Hrect & Hnd & Hall).
  unfold refs in *. simpl in *. rewrite Forall_forall in Hall.
  assert (1 < h ∧ 0 < w ∨ 0 < h ∧ 1 < w)%nat as Hdims by lia.
  destruct (rect_dims h w img Hrect Hh0) as (Hlen & row0 & Hrow0 & Hlen0).
  destruct (half_diagonal_run h w Hdims Hh Hw) as [Hsqrt _]. cbv zeta in Hsqrt.
  set (ρ := λ ab : Z * Z, cell 0%nat img (Z.to_nat ab.1) (Z.to_nat ab.2)).
  destruct (for_update_each ρ (λ ab, vignette_pixel pow2 h w (Z.to_nat ab.1) (Z.to_nat ab.2))
    pixel_ok
    (λ ab, vignette_body pow2 (Z.of_nat h `div` 2) (Z.of_nat w `div` 2)
       (PrimFloat.sqrt (nearest_float ((Z.of_nat h `div` 2) ^ 2 + (Z.of_nat w `div` 2) ^ 2)))
       ab.1 ab.2)
    img (pairs (range 0 (Z.of_nat h)) (range 0 (Z.of_nat w))) hp)
    as (hp' & Hrun & Hlen' & Hin & Hout).
  - apply NoDup_fmap_2_strong; [|apply NoDup_pairs; apply NoDup_seqZ].
    intros [r c] [r' c'] [Hr Hc]%elem_of_pairs [Hr' Hc']%elem_of_pairs Heq.
    apply elem_of_range in Hr, Hc, Hr', Hc'. unfold ρ in Heq. simpl in Heq.
    apply (rect_cell_inj _ h w) in Heq as [? ?]; [|done|done|lia..]. f_equal; lia.
  - intros [r c] [Hr Hc]%elem_of_pairs. apply elem_of_range in Hr, Hc.
    apply Hall. apply (rect_cell_elem_of _ h w); simpl; (done || lia).
  - intros [r c] hp0 p [Hr Hc]%elem_of_pairs Hp Hok. apply elem_of_range in Hr, Hc.
    simpl. rewrite <- (Z2Nat.id r), <- (Z2Nat.id c) at 1 by lia.
    apply vignette_body_run; [done..|lia|lia| |done|done].
    apply (rect_lookup2 0%nat h w); (done || lia).
  - exists hp'. split_and!; [|done| |].
    + unfold vignette.
      mstep ltac:(apply len_image_run).
      mstep ltac:(apply (image_row_run _ _ 0%nat), Hrow0).
      rewrite Hlen, Hlen0. cbv zeta. rewrite Hsqrt.
      erewrite run_bind_done by apply run_eval.
      erewrite run_bind_done; [reflexivity|].
      change (for_ (range 0 (Z.of_nat h)) _) with
        (for_ (range 0 (Z.of_nat h)) (λ row, for_ (range 0 (Z.of_nat w))
          (vignette_body pow2 (Z.of_nat h `div` 2) (Z.of_nat w `div` 2)
            (PrimFloat.sqrt (nearest_float
              ((Z.of_nat h `div` 2) ^ 2 + (Z.of_nat w `div` 2) ^ 2))) row))).
      rewrite for_pairs. exact Hrun.
    + intros r c Hr Hc.
      specialize (Hin (Z.of_nat r, Z.of_nat c)). unfold ρ in Hin. simpl in Hin.
      rewrite !Nat2Z.id in Hin. apply Hin.
      apply elem_of_pairs. rewrite !elem_of_range. lia.
    + intros x Hx. apply Hout. intros ([r c] & -> & [Hr Hc]%elem_of_pairs)%list_elem_of_fmap.
      apply elem_of_range in Hr, Hc. apply Hx.
      apply (rect_cell_elem_of _ h w); simpl; (done || lia).
Qed.

(** [vignette] on a grid of one cell: the half diagonal is zero, and the
    first division fails. *)
Lemma vignette_single_run pow2 hp img :
  rect 1 1 img → vignette pow2 (World hp img) = (Raise ZeroDivisionError, World hp img).
Proof.
  intros Hrect.
  destruct (rect_dims 1 1 img Hrect) as (Hlen & row0 & Hrow0 & Hlen0); [lia|].
  unfold vignette.
  mstep ltac:(apply len_image_run).
  mstep ltac:(apply (image_row_run _ _ 0%nat), Hrow0).
  rewrite Hlen, Hlen0. reflexivity.
Qed.

(** * The filters that do not re-bind the image *)

Lemma keeps_ret {A} (a : A) : keeps_image (mret a).
Proof. by intros wd. Qed.

Lemma keeps_raise {A} e : keeps_image (raise e : M A).
Proof. by intros wd. Qed.

Lemma keeps_eval {A} (o : outcome A) : keeps_image (eval o).
Proof. by intros wd. Qed.

Lemma keeps_lift {A} e (o : option A) : keeps_image (lift e o).
Proof. by destruct o. Qed.

Lemma keeps_bind {A B} (m : M A) (k : A → M B) :
  keeps_image m → (∀ a, keeps_image (k a)) → keeps_image (m ≫= k).
Proof.
  intros Hm Hk wd. rewrite run_bind. specialize (Hm wd).
  destruct (m wd) as [[a|e] wd1]; simpl in *; [|done]. by rewrite Hk.
Qed.

Lemma keeps_fold_for {A B} (l : list A) (body : A → B → M B) acc :
  (∀ x acc, keeps_image (body x acc)) → keeps_image (fold_for l acc body).
Proof.
  intros Hbody. revert acc. induction l as [|x l IH]; intros acc; simpl.
  - apply keeps_ret.
  - apply keeps_bind; [apply Hbody|apply IH].
Qed.

Lemma keeps_for {A} (l : list A) (body : A → M unit) :
  (∀ x, keeps_image (body x)) → keeps_image (for_ l body).
Proof. intros Hbody. apply keeps_fold_for. intros x _. apply Hbody. Qed.

Lemma keeps_get_image : keeps_image get_image.
Proof. by intros wd. Qed.

Lemma keeps_len_image : keeps_image len_image.
Proof. by intros wd. Qed.

Lemma keeps_image_row i : keeps_image (image_row i).
Proof. apply keeps_bind; [apply keeps_get_image|intros; apply keeps_lift]. Qed.

Lemma keeps_image_get i j : keeps_image (image_get i j).
Proof. apply keeps_bind; [apply keeps_get_image|intros; apply keeps_lift]. Qed.

Lemma keeps_load x : keeps_image (load x).
Proof. intros wd. unfold load. by destruct (heap wd !! x). Qed.

Lemma keeps_update f x : keeps_image (update f x).
Proof. intros wd. unfold update. by destruct (heap wd !! x). Qed.

Lemma keeps_floordiv a b : keeps_image (floordiv a b).
Proof. unfold floordiv. case_decide; [apply keeps_raise|apply keeps_ret]. Qed.

Ltac keeps_step :=
  lazymatch goal with
  | |- ∀ _, _ => intros
  | |- keeps_image (mret _) => apply keeps_ret
  | |- keeps_image (_ ≫= _) => apply keeps_bind
  | |- keeps_image (fold_for _ _ _) => apply keeps_fold_for
  | |- keeps_image (for_ _ _) => apply keeps_for
  | |- keeps_image (eval _) => apply keeps_eval
  | |- keeps_image (lift _ _) => apply keeps_lift
  | |- keeps_image get_image => apply keeps_get_image
  | |- keeps_image len_image => apply keeps_len_image
  | |- keeps_image (image_row _) => apply keeps_image_row
  | |- keeps_image (image_get _ _) => apply keeps_image_get
  | |- keeps_image (load _) => apply keeps_load
  | |- keeps_image (set_red _ _) => apply keeps_update
  | |- keeps_image (set_green _ _) => apply keeps_update
  | |- keeps_image (set_blue _ _) => apply keeps_update
  | |- keeps_image (set_alpha _ _) => apply keeps_update
  | |- keeps_image (floordiv _ _) => apply keeps_floordiv
  | |- keeps_image (if ?b then _ else _) => destruct b
  | |- keeps_image (match ?x with _ => _ end) => destruct x
  end.

Lemma dered_keeps_image : keeps_image dered.
Proof. unfold dered. repeat keeps_step. Qed.

Lemma mono_keeps_image sepia : keeps_image (mono sepia).
Proof. unfold mono. repeat keeps_step. Qed.

Lemma vignette_keeps_image pow2 : keeps_image (vignette pow2).
Proof. unfold vignette. repeat keeps_step. Qed.

Lemma pixellate_keeps_image step : keeps_image (pixellate step).
Proof. unfold pixellate. repeat keeps_step. Qed.

(** * The claims *)

(** Well-formedness of a concrete grid, by evaluation. *)
Ltac solve_well_formed :=
  unfold well_formed, refs; simpl; split_and!;
  [ lia | lia
  | split; [reflexivity | repeat constructor]
  | apply (bool_decide_unpack _); vm_compute; exact I
  | repeat (constructor; [eexists; split; [reflexivity | unfold pixel_ok; simpl; lia] |]);
    try constructor ].

Lemma sample_2x3_well_formed : well_formed 2 3 sample_2x3.
Proof. solve_well_formed. Qed.

Ltac cells_ext :=
  unfold rotate_cells, flip_cells, transpose_cells;
  repeat first
    [ progress (rewrite cell_tabulate by lia)
    | apply tabulate_ext; intros ];
  try (f_equal; lia).

Lemma flip_cells_involutive vertical h w (img : list (list ref)) :
  rect h w img → flip_cells vertical h w (flip_cells vertical h w img) = img.
Proof.
  intros Hrect. rewrite (rect_tabulate 0%nat h w img Hrect) at 2.
  destruct vertical; cells_ext.
Qed.

(** C6 — flip is an involution for each fixed axis: on a well-formed grid,
    [flip(g, v)] followed by [flip(g, v)] returns normally and leaves every
    cell of the grid holding the object it held at the start. *)
Theorem flip_involution h w wd vertical :
  well_formed h w wd →
  (flip vertical ;; flip vertical) wd = (Done true, wd).
Proof.
  intros (-> & Hrect & Hh & Hw)%well_formed_world.
  mstep ltac:(by apply (flip_run _ _ _ h w)).
  rewrite (flip_run _ _ _ h w) by (done || apply tabulate_rect || destruct vertical; apply tabulate_rect).
  by rewrite flip_cells_involutive.
Qed.

Lemma flip_involution_witness :
  well_formed 2 3 sample_2x3 ∧
  (flip true ;; flip true) sample_2x3 = (Done true, sample_2x3).
Proof.
  split; [solve_well_formed | apply (flip_involution 2 3); solve_well_formed].
Defined.

Lemma rotate_left_twice h w (img : list (list ref)) :
  rotate_cells false w h (rotate_cells false h w img)
  = tabulate h w (λ r c, cell 0%nat img (h - 1 - r) (w - 1 - c)).
Proof. cells_ext. Qed.

Lemma rotate_left_four_times h w (img : list (list ref)) :
  rect h w img →
  rotate_cells false w h (rotate_cells false h w
    (rotate_cells false w h (rotate_cells false h w img))) = img.
Proof.
  intros Hrect. rewrite (rect_tabulate 0%nat h w img Hrect) at 2.
  rewrite rotate_left_twice. cells_ext.
Qed.

Lemma rotate_right_left h w (img : list (list ref)) :
  rect h w img → rotate_cells true w h (rotate_cells false h w img) = img.
Proof.
  intros Hrect. rewrite (rect_tabulate 0%nat h w img Hrect) at 2. cells_ext.
Qed.

Lemma rotate_left_right h w (img : list (list ref)) :
  rect h w img → rotate_cells false w h (rotate_cells true h w img) = img.
Proof.
  intros Hrect. rewrite (rect_tabulate 0%nat h w img Hrect) at 2. cells_ext.
Qed.

Lemma rotate_cells_rect to_right h w (img : list (list ref)) :
  rect w h (rotate_cells to_right h w img).
Proof. destruct to_right; apply tabulate_rect. Qed.

(** C7 — on a well-formed H x W grid, a left rotation is a transpose followed
    by a vertical flip and a right rotation is a vertical flip followed by a
    transpose; both give a well-formed W x H grid; four left rotations
    restore the grid; and a left and a right rotation undo each other, in
    either order. *)
Theorem rotate_spec h w wd :
  well_formed h w wd →
  rotate false wd = (transpose ;; flip true) wd ∧
  rotate true wd = (flip true ;; transpose) wd ∧
  (∀ to_right, ∃ wd', rotate to_right wd = (Done true, wd') ∧ well_formed w h wd') ∧
  (rotate false ;; rotate false ;; rotate false ;; rotate false) wd = (Done true, wd) ∧
  (rotate false ;; rotate true) wd = (Done true, wd) ∧
  (rotate true ;; rotate false) wd = (Done true, wd).
Proof.
  intros Hwf. pose proof Hwf as (Hwd & Hrect & Hh & Hw)%well_formed_world.
  rewrite Hwd in Hwf |- *. set (hp := heap wd) in *. set (img := image wd) in *.
  clearbody hp img. clear Hwd.
  split_and!.
  - rewrite (rotate_run false _ _ h w) by done.
    mstep ltac:(by apply (transpose_run _ _ h w)).
    rewrite (flip_run true _ _ w h) by (done || apply tabulate_rect).
    do 2 f_equal. cells_ext.
  - rewrite (rotate_run true _ _ h w) by done.
    mstep ltac:(by apply (flip_run true _ _ h w)).
    rewrite (transpose_run _ _ h w) by (done || apply tabulate_rect).
    do 2 f_equal. cells_ext.
  - intros to_right. eexists. split; [by apply (rotate_run _ _ _ h w)|].
    by apply rotate_well_formed.
  - mstep ltac:(by apply (rotate_run false _ _ h w)).
    mstep ltac:(apply (rotate_run false _ _ w h); [apply rotate_cells_rect|done..]).
    mstep ltac:(apply (rotate_run false _ _ h w); [apply rotate_cells_rect|done..]).
    rewrite (rotate_run false _ _ w h) by (done || apply rotate_cells_rect).
    by rewrite rotate_left_four_times.
  - mstep ltac:(by apply (rotate_run false _ _ h w)).
    rewrite (rotate_run true _ _ w h) by (done || apply rotate_cells_rect).
    by rewrite rotate_right_left.
  - mstep ltac:(by apply (rotate_run true _ _ h w)).
    rewrite (rotate_run false _ _ w h) by (done || apply rotate_cells_rect).
    by rewrite rotate_left_right.
Qed.

Lemma rotate_spec_witness :
  well_formed 2 3 sample_2x3 ∧
  (rotate false ;; rotate false ;; rotate false ;; rotate false) sample_2x3
  = (Done true, sample_2x3).
Proof.
  split; [solve_well_formed|].
  apply (rotate_spec 2 3 sample_2x3). solve_well_formed.
Defined.

(** ** mono *)

(** C5, as worded, fails: on the pixel (1, 1, 1) the exact value of
    [0.3 + 0.6 + 0.1] is 1, but the binary64 sum is 0.99999999999999989 and
    the filter stores 0. *)
Lemma mono_exact_floor_counterexample :
  ¬ (∀ sepia h w wd, well_formed h w wd →
       ∃ wd', mono sepia wd = (Done true, wd') ∧
         ∀ r c, (r < h)%nat → (c < w)%nat →
           pixel_at wd' r c = mono_pixel_exact sepia <$> pixel_at wd r c).
Proof.
  intros H.
  destruct (H false 1%nat 1%nat (grid_of 1 1 [RGB 1 1 1 255])) as (wd' & Hrun & Hpx).
  { solve_well_formed. }
  vm_compute in Hrun. injection Hrun as <-.
  specialize (Hpx 0%nat 0%nat). vm_compute in Hpx.
  discriminate Hpx; constructor.
Qed.

(** C5, amended — on a well-formed grid [mono] returns True and replaces
    every pixel by a pixel with the same alpha whose colour is computed from
    brightness = int(0.3*red + 0.6*green + 0.1*blue), evaluated in binary64
    arithmetic from left to right: brightness is the floor of the exact value
    or, where 3*red + 6*green + blue is a multiple of 10, possibly one less;
    it never exceeds 255.  Without sepia red = green = blue = brightness; with
    sepia red = brightness, green = floor(0.6*brightness) and blue =
    floor(0.4*brightness).  On (200, 100, 50, 255) the brightness is 125 and
    the results are (125, 125, 125, 255) and (125, 75, 50, 255). *)
Theorem mono_spec sepia h w wd :
  well_formed h w wd →
  (∃ wd', mono sepia wd = (Done true, wd') ∧ image wd' = image wd ∧
     well_formed h w wd' ∧
     ∀ r c, (r < h)%nat → (c < w)%nat →
       ∃ p, pixel_at wd r c = Some p ∧
         let k := brightness (red p) (green p) (blue p) in
         let e := 3 * red p + 6 * green p + blue p in
         0 ≤ k ≤ 255 ∧
         (k = e `div` 10 ∨ (e `mod` 10 = 0 ∧ k = e `div` 10 - 1)) ∧
         pixel_at wd' r c =
           Some (if sepia then RGB k ((6 * k) `div` 10) ((4 * k) `div` 10) (alpha p)
                 else RGB k k k (alpha p))) ∧
  brightness 200 100 50 = 125 ∧
  mono false (grid_of 1 1 [RGB 200 100 50 255])
    = (Done true, grid_of 1 1 [RGB 125 125 125 255]) ∧
  mono true (grid_of 1 1 [RGB 200 100 50 255])
    = (Done true, grid_of 1 1 [RGB 125 75 50 255]).
Proof.
  intros Hwf. split; [|by vm_compute].
  pose proof Hwf as (Hwd & _)%well_formed_world. rewrite Hwd in Hwf |- *.
  set (hp := heap wd) in *. set (img := image wd) in *. clearbody hp img. clear Hwd.
  eexists. split; [by apply (mono_run _ h w)|]. split; [done|].
  split; [apply heap_map_well_formed; [apply mono_pixel_ok|done]|].
  intros r c Hr Hc.
  destruct (pixel_at_heap_map (mono_pixel sepia) h w hp img r c) as (p & Hp & Hok & Hp');
    [done..|].
  exists p. split; [done|]. simpl.
  destruct (mono_pixel_channel sepia p Hok) as [Hk Hmono].
  pose proof Hok as (? & ? & ? & ?).
  destruct (brightness_channel (red p) (green p) (blue p)) as (_ & _ & Hex); [done..|].
  split; [done|]. split; [exact Hex|]. by rewrite Hp', Hmono.
Qed.

Lemma mono_spec_witness :
  well_formed 2 3 sample_2x3 ∧
  ∃ wd', mono true sample_2x3 = (Done true, wd') ∧ image wd' = image sample_2x3 ∧
    well_formed 2 3 wd' ∧
    ∀ r c, (r < 2)%nat → (c < 3)%nat →
      ∃ p, pixel_at sample_2x3 r c = Some p ∧
        let k := brightness (red p) (green p) (blue p) in
        let e := 3 * red p + 6 * green p + blue p in
        0 ≤ k ≤ 255 ∧
        (k = e `div` 10 ∨ (e `mod` 10 = 0 ∧ k = e `div` 10 - 1)) ∧
        pixel_at wd' r c = Some (RGB k ((6 * k) `div` 10) ((4 * k) `div` 10) (alpha p)).
Proof.
  split; [solve_well_formed|].
  apply (mono_spec true 2 3 sample_2x3). solve_well_formed.
Defined.

(** C8, as worded, fails for both values of [sepia]: mono without sepia
    takes (0, 2, 0) to grey level 1 and then to grey level 0; mono with sepia
    takes (200, 100, 50) to (125, 75, 50) and then to (87, 52, 34). *)
Lemma mono_not_idempotent : ¬ mono_idempotent false ∧ ¬ mono_idempotent true.
Proof.
  split; intros H.
  - destruct (H 1%nat 1%nat (grid_of 1 1 [RGB 0 2 0 255])) as (wd1 & wd2 & H1 & H2 & Hs).
    { solve_well_formed. }
    vm_compute in H1, H2. injection H1 as <-. injection H2 as <-.
    specialize (Hs 0%nat 0%nat). vm_compute in Hs. discriminate Hs; constructor.
  - destruct (H 1%nat 1%nat (grid_of 1 1 [RGB 200 100 50 255])) as (wd1 & wd2 & H1 & H2 & Hs).
    { solve_well_formed. }
    vm_compute in H1, H2. injection H1 as <-. injection H2 as <-.
    specialize (Hs 0%nat 0%nat). vm_compute in Hs. discriminate Hs; constructor.
Qed.

Lemma mono_pixel_twice sepia p :
  pixel_ok p →
  let p1 := mono_pixel sepia p in
  let p2 := mono_pixel sepia p1 in
  alpha p2 = alpha p1 ∧
  if sepia then (p2 = p1 ↔ red p1 = 0)
  else p2 = (if decide (red p1 ∈ grey_drift)
             then RGB (red p1 - 1) (red p1 - 1) (red p1 - 1) (alpha p1) else p1).
Proof.
  intros Hok. simpl.
  pose proof (mono_pixel_ok sepia p Hok) as Hok1.
  destruct (mono_pixel_channel sepia p Hok) as [Hk H1].
  destruct (mono_pixel_channel sepia _ Hok1) as [Hk' H2].
  rewrite H2. rewrite H1 in Hk' |- *. clear H1 H2.
  set (k := brightness (red p) (green p) (blue p)) in *. clearbody k.
  destruct sepia; simpl in *.
  - split; [done|]. rewrite <- (brightness_sepia k Hk).
    split; [intros H; apply (f_equal red) in H; exact H|intros H; by rewrite !H].
  - rewrite (brightness_grey k Hk). split; [done|].
    by destruct (decide (k ∈ grey_drift)).
Qed.

(** C8, amended — [mono] is not idempotent in general.  On a well-formed
    grid a second application keeps every alpha and
    - without sepia, leaves a pixel of grey level k as it is unless k is one
      of the levels of [grey_drift], at which 0.3*k + 0.6*k + 0.1*k evaluates
      below k in binary64 arithmetic and the level becomes k - 1;
    - with sepia, changes every pixel whose brightness is not 0.
    So two applications show the same pixel values as one exactly when,
    after the first, no grey level is in [grey_drift] (without sepia), or
    every brightness is 0 (with sepia). *)
Theorem mono_twice sepia h w wd :
  well_formed h w wd →
  ∃ wd1 wd2,
    mono sepia wd = (Done true, wd1) ∧
    (mono sepia ;; mono sepia) wd = (Done true, wd2) ∧
    (∀ r c, (r < h)%nat → (c < w)%nat →
       ∃ p1 p2, pixel_at wd1 r c = Some p1 ∧ pixel_at wd2 r c = Some p2 ∧
         alpha p2 = alpha p1 ∧
         if sepia then (p2 = p1 ↔ red p1 = 0)
         else p2 = (if decide (red p1 ∈ grey_drift)
                    then RGB (red p1 - 1) (red p1 - 1) (red p1 - 1) (alpha p1) else p1)) ∧
    (same_pixels h w wd1 wd2 ↔
       ∀ r c, (r < h)%nat → (c < w)%nat →
         ∃ p1, pixel_at wd1 r c = Some p1 ∧
               if sepia then red p1 = 0 else red p1 ∉ grey_drift).
Proof.
  intros Hwf. pose proof Hwf as (Hwd & _)%well_formed_world. rewrite Hwd in Hwf |- *.
  set (hp := heap wd) in *. set (img := image wd) in *. clearbody hp img. clear Hwd.
  pose proof (heap_map_well_formed (mono_pixel sepia) h w hp img (mono_pixel_ok sepia) Hwf)
    as Hwf1.
  set (hp1 := heap_map (mono_pixel sepia) (concat img) hp) in *.
  exists (World hp1 img), (World (heap_map (mono_pixel sepia) (concat img) hp1) img).
  assert (∀ r c, (r < h)%nat → (c < w)%nat →
     ∃ p1 p2, pixel_at (World hp1 img) r c = Some p1 ∧
       pixel_at (World (heap_map (mono_pixel sepia) (concat img) hp1) img) r c = Some p2 ∧
       alpha p2 = alpha p1 ∧
       if sepia then (p2 = p1 ↔ red p1 = 0)
       else p2 = (if decide (red p1 ∈ grey_drift)
                  then RGB (red p1 - 1) (red p1 - 1) (red p1 - 1) (alpha p1) else p1)) as Hcells.
  { intros r c Hr Hc.
    destruct (pixel_at_heap_map (mono_pixel sepia) h w hp img r c) as (p & _ & Hok & Hp1);
      [done..|].
    destruct (pixel_at_heap_map (mono_pixel sepia) h w hp1 img r c) as (p1 & Hp1' & _ & Hp2);
      [done..|].
    fold hp1 in Hp1. rewrite Hp1 in Hp1'. injection Hp1' as <-.
    eexists _, _. split; [exact Hp1|]. split; [exact Hp2|].
    apply (mono_pixel_twice sepia p Hok). }
  split; [by apply (mono_run _ h w)|].
  split; [mstep ltac:(by apply (mono_run _ h w)); by apply (mono_run _ h w)|].
  split; [exact Hcells|].
  split.
  - intros Hsame r c Hr Hc.
    destruct (Hcells r c Hr Hc) as (p1 & p2 & Hp1 & Hp2 & _ & Hrel).
    exists p1. split; [done|].
    rewrite (Hsame r c Hr Hc), Hp2 in Hp1. injection Hp1 as ->.
    destruct sepia; [by apply Hrel|].
    destruct (decide (red p1 ∈ grey_drift)); [|done].
    apply (f_equal red) in Hrel. simpl in Hrel. lia.
  - intros Hstable r c Hr Hc.
    destruct (Hcells r c Hr Hc) as (p1 & p2 & Hp1 & Hp2 & _ & Hrel).
    destruct (Hstable r c Hr Hc) as (p1' & Hp1' & Hst).
    rewrite Hp1 in Hp1'. injection Hp1' as <-.
    rewrite Hp1, Hp2. f_equal. symmetry.
    destruct sepia; [by apply Hrel|]. by rewrite decide_False in Hrel.
Qed.

Lemma mono_twice_witness :
  well_formed 2 3 sample_2x3 ∧
  ∃ wd1 wd2,
    mono false sample_2x3 = (Done true, wd1) ∧
    (mono false ;; mono false) sample_2x3 = (Done true, wd2) ∧
    (∀ r c, (r < 2)%nat → (c < 3)%nat →
       ∃ p1 p2, pixel_at wd1 r c = Some p1 ∧ pixel_at wd2 r c = Some p2 ∧
         alpha p2 = alpha p1 ∧
         p2 = (if decide (red p1 ∈ grey_drift)
               then RGB (red p1 - 1) (red p1 - 1) (red p1 - 1) (alpha p1) else p1)) ∧
    (same_pixels 2 3 wd1 wd2 ↔
       ∀ r c, (r < 2)%nat → (c < 3)%nat →
         ∃ p1, pixel_at wd1 r c = Some p1 ∧ red p1 ∉ grey_drift).
Proof.
  split; [solve_well_formed|].
  apply (mono_twice false 2 3 sample_2x3). solve_well_formed.
Defined.

(** ** blur *)

(** C1 — on a well-formed grid and for a radius above 0, [blur] returns True
    and binds every cell [(r, c)] to a pixel whose four channels are the
    averages of the pre-blur channels over the rows [r - radius .. r + radius]
    and the columns [c - radius .. c + radius], each row and column clamped
    to the grid, the sum divided by [(2 * radius + 1) ^ 2] with truncation;
    the objects of the pre-blur grid are left as they were. *)
Theorem blur_spec h w wd radius :
  well_formed h w wd → 0 < radius →
  ∃ wd', blur radius wd = (Done true, wd') ∧
    rect h w (image wd') ∧
    heap wd `prefix_of` heap wd' ∧
    ∀ r c, (r < h)%nat → (c < w)%nat →
      pixel_at wd' r c = Some (blur_pixel wd h w radius r c).
Proof.
  intros Hwf Hradius. pose proof Hwf as (Hwd & Hrect & Hh & Hw)%well_formed_world.
  rewrite Hwd in Hwf |- *. set (hp := heap wd) in *. set (img := image wd) in *.
  clearbody hp img. clear Hwd.
  eexists. split.
  { apply (blur_run _ _ h w); [done..|by eapply well_formed_allocated|lia]. }
  simpl. split; [apply tabulate_rect|]. split.
  { rewrite <- app_assoc. by apply prefix_app_r. }
  intros r c Hr Hc. rewrite pixel_at_blurred by done.
  f_equal. apply average_pixel_blur; (done || lia).
Qed.

Lemma blur_spec_witness :
  well_formed 2 3 sample_2x3 ∧ 0 < 2 ∧
  ∃ wd', blur 2 sample_2x3 = (Done true, wd') ∧
    rect 2 3 (image wd') ∧
    heap sample_2x3 `prefix_of` heap wd' ∧
    ∀ r c, (r < 2)%nat → (c < 3)%nat →
      pixel_at wd' r c = Some (blur_pixel sample_2x3 2 3 2 r c).
Proof.
  split; [solve_well_formed|]. split; [lia|].
  apply (blur_spec 2 3 sample_2x3 2); [solve_well_formed|lia].
Defined.

(** C10 — [blur] with radius 0 raises nothing, returns True and shows in
    every cell the channel values that were there: the precondition
    [radius > 0] of its documentation is not enforced. *)
Theorem blur_radius_zero h w wd :
  well_formed h w wd →
  ∃ wd', blur 0 wd = (Done true, wd') ∧
    rect h w (image wd') ∧
    ∀ r c, (r < h)%nat → (c < w)%nat → pixel_at wd' r c = pixel_at wd r c.
Proof.
  intros Hwf. pose proof Hwf as (Hwd & Hrect & Hh & Hw)%well_formed_world.
  rewrite Hwd in Hwf |- *. set (hp := heap wd) in *. set (img := image wd) in *.
  clearbody hp img. clear Hwd.
  eexists. split.
  { apply (blur_run _ _ h w); [done..|by eapply well_formed_allocated|lia]. }
  simpl. split; [apply tabulate_rect|].
  intros r c Hr Hc. rewrite pixel_at_blurred by done.
  destruct (pixel_at_well_formed h w (World hp img) r c) as (p & Hp & _); [done..|].
  rewrite Hp. f_equal. by apply average_pixel_single.
Qed.

Lemma blur_radius_zero_witness :
  well_formed 2 3 sample_2x3 ∧
  ∃ wd', blur 0 sample_2x3 = (Done true, wd') ∧
    rect 2 3 (image wd') ∧
    ∀ r c, (r < 2)%nat → (c < 3)%nat → pixel_at wd' r c = pixel_at sample_2x3 r c.
Proof.
  split; [solve_well_formed|].
  apply (blur_radius_zero 2 3 sample_2x3). solve_well_formed.
Defined.

(** ** pixellate *)

Lemma pixellate_pixel_block wd h w step (r c r' c' : nat) :
  block_origin step (Z.of_nat r) = block_origin step (Z.of_nat r') →
  block_origin step (Z.of_nat c) = block_origin step (Z.of_nat c') →
  pixellate_pixel wd h w step r c = pixellate_pixel wd h w step r' c'.
Proof. intros Hr Hc. unfold pixellate_pixel, block_limit. by rewrite Hr, Hc. Qed.

Ltac closed_indices :=
  repeat match goal with
  | |- context [Z.of_nat ?n + ?k] =>
      let v := eval vm_compute in (Z.of_nat n + k) in change (Z.of_nat n + k) with v
  | |- context [block_limit ?s (Z.of_nat ?n) ?x] =>
      let v := eval vm_compute in (block_limit s (Z.of_nat n) x) in
      change (block_limit s (Z.of_nat n) x) with v
  | |- context [Z.of_nat (S ?n)] =>
      let v := eval vm_compute in (Z.of_nat (S n)) in change (Z.of_nat (S n)) with v
  end.

Lemma pixellate_2x4 wd (r c : nat) :
  (r < 2)%nat → (c < 4)%nat →
  pixellate_pixel wd 2 4 3 r c =
    if decide (c < 3)%nat
    then mean_pixel [pixel_of wd 0 0; pixel_of wd 0 1; pixel_of wd 0 2;
                     pixel_of wd 1 0; pixel_of wd 1 1; pixel_of wd 1 2]
    else mean_pixel [pixel_of wd 0 3; pixel_of wd 1 3].
Proof.
  intros Hr Hc.
  assert (∀ a b, (a ≤ 1)%nat → (b ≤ 2)%nat →
    pixellate_pixel wd 2 4 3 r c = pixellate_pixel wd 2 4 3 a b
    → pixellate_pixel wd 2 4 3 r c = pixellate_pixel wd 2 4 3 0 0) as Hsame.
  { intros a b Ha Hb ->. apply pixellate_pixel_block; unfold block_origin.
    - rewrite !Z.div_small by lia. done.
    - rewrite !Z.div_small by lia. done. }
  case_decide as Hlt.
  - rewrite (Hsame r c) by (done || lia).
    unfold pixellate_pixel, mean_pixel. simpl. closed_indices. f_equal; f_equal; lia.
  - replace c with 3%nat by lia.
    rewrite (pixellate_pixel_block wd 2 4 3 r 3 0 3); [|unfold block_origin..|done].
    + unfold pixellate_pixel, mean_pixel. simpl. closed_indices. f_equal; f_equal; lia.
    + rewrite !Z.div_small by lia. done.
Qed.

(** C2 — on a well-formed grid and for a step above 0, [pixellate] returns
    True, keeps the objects of the image in their cells, and leaves in every
    cell [(r, c)] the truncated averages of the four channels of the
    pre-call grid over the block of [(r, c)]: the rows from
    [step * (r / step)] and the columns from [step * (c / step)], [step] of
    each or as many as the grid has left, the sums divided by the number of
    cells of the block.  The blocks start at the multiples of [step], a cell
    lies in its block, and the cells of one block get the same pixel.  On a
    2 by 4 grid with step 3 the columns 0 to 2 get the means of the six
    pixels of these columns and column 3 the means of its two pixels. *)
Theorem pixellate_spec h w wd step :
  well_formed h w wd → 0 < step →
  (∃ wd', pixellate step wd = (Done true, wd') ∧
     image wd' = image wd ∧
     ∀ r c, (r < h)%nat → (c < w)%nat →
       pixel_at wd' r c = Some (pixellate_pixel wd h w step r c)) ∧
  (∀ (x n : Z), 0 ≤ x < n →
     ∃ i, 0 ≤ i ∧ block_origin step x = i * step ∧
          block_limit step n x = Z.min ((i + 1) * step) n ∧
          block_origin step x ≤ x < block_limit step n x) ∧
  (∀ r c r' c' : nat,
     block_origin step (Z.of_nat r) = block_origin step (Z.of_nat r') →
     block_origin step (Z.of_nat c) = block_origin step (Z.of_nat c') →
     pixellate_pixel wd h w step r c = pixellate_pixel wd h w step r' c') ∧
  (h = 2%nat → w = 4%nat → step = 3 →
     ∀ r c, (r < h)%nat → (c < w)%nat →
       pixellate_pixel wd h w step r c =
         if decide (c < 3)%nat
         then mean_pixel [pixel_of wd 0 0; pixel_of wd 0 1; pixel_of wd 0 2;
                          pixel_of wd 1 0; pixel_of wd 1 1; pixel_of wd 1 2]
         else mean_pixel [pixel_of wd 0 3; pixel_of wd 1 3]).
Proof.
  intros Hwf Hstep. split_and!.
  - pose proof Hwf as (Hwd & Hrect & Hh & Hw)%well_formed_world.
    rewrite Hwd in Hwf |- *. set (hp := heap wd) in *. set (img := image wd) in *.
    clearbody hp img. clear Hwd.
    destruct (pixellate_run h w hp img step Hwf Hstep) as (hp' & Hrun & _ & Hcells).
    exists (World hp' img). split_and!; [done..|].
    intros r c Hr Hc. rewrite (pixel_at_cell img h w) by done. by apply Hcells.
  - intros x n Hx. exists (x `div` step).
    pose proof (block_origin_bounds step x Hstep).
    unfold block_limit, block_origin in *. split_and!; [apply Z.div_pos; lia|lia|f_equal; lia|lia..].
  - intros r c r' c'. apply pixellate_pixel_block.
  - intros -> -> -> r c. apply pixellate_2x4.
Qed.

Lemma pixellate_spec_witness :
  well_formed 2 4 sample_2x4 ∧ 0 < 3 ∧
  pixellate 3 sample_2x4
  = (Done true,
     grid_of 2 4 [RGB 35 45 55 65; RGB 35 45 55 65; RGB 35 45 55 65; RGB 150 160 170 180;
                  RGB 35 45 55 65; RGB 35 45 55 65; RGB 35 45 55 65; RGB 150 160 170 180]) ∧
  ∃ wd', pixellate 3 sample_2x4 = (Done true, wd') ∧
    image wd' = image sample_2x4 ∧
    ∀ r c, (r < 2)%nat → (c < 4)%nat →
      pixel_at wd' r c = Some (pixellate_pixel sample_2x4 2 4 3 r c).
Proof.
  split; [solve_well_formed|]. split; [lia|]. split; [vm_compute; reflexivity|].
  apply (pixellate_spec 2 4 sample_2x4 3); [solve_well_formed|lia].
Defined.

(** ** Errors *)

(** C3, as worded, fails, whatever the error is called: [blur] with radius 0
    and [pixellate] with step -1 raise nothing and return True; [mono] on an
    image without rows returns True; [flip] on an image whose second row is
    shorter than the first stops with IndexError after it has reversed the
    first row. *)
Lemma fail_fast_counterexample :
  ¬ (∀ h w wd radius, well_formed h w wd → radius ≤ 0 → fails_fast (blur radius) wd) ∧
  ¬ (∀ h w wd step, well_formed h w wd → step ≤ 0 → fails_fast (pixellate step) wd) ∧
  (∀ pow2, ¬ (∀ f wd, degenerate (image wd) → fails_fast (run_filter pow2 f) wd)) ∧
  ¬ (∀ wd, degenerate (image wd) → fails_fast (flip false) wd).
Proof.
  split_and!; [intros H|intros H|intros pow2 H|intros H].
  - destruct (H 2%nat 3%nat sample_2x3 0) as (e & wd' & Hrun & _); [solve_well_formed|lia|].
    vm_compute in Hrun. discriminate Hrun.
  - destruct (H 2%nat 3%nat sample_2x3 (-1)) as (e & wd' & Hrun & _); [solve_well_formed|lia|].
    vm_compute in Hrun. discriminate Hrun.
  - destruct (H (Mono false) (World [] [])) as (e & wd' & Hrun & _); [by left|].
    vm_compute in Hrun. discriminate Hrun.
  - destruct (H ragged) as (e & wd' & Hrun & Himg & _).
    { right. exists [0; 1]%nat, [2]%nat. split_and!; [left|right; left|simpl; lia]. }
    vm_compute in Hrun. injection Hrun as _ <-. vm_compute in Himg. discriminate Himg.
Qed.

Lemma empty_image_run pow2 f hp :
  run_filter pow2 f (World hp [])
  = if is_mono f then (Done true, World hp []) else (Raise IndexError, World hp []).
Proof. destruct f as [| | | |[]| | |]; reflexivity. Qed.

(** C3, amended — on a well-formed grid, [blur] with a negative radius
    raises ZeroDivisionError and leaves the grid unmodified, [blur] with
    radius 0 raises nothing and returns True, [pixellate] with step 0 raises
    ValueError and leaves the grid unmodified, and [pixellate] with a negative
    step raises nothing, returns True and leaves the grid unmodified.  On an
    image without rows every filter but [mono] raises IndexError and leaves
    the image as it is; [mono] returns True. *)
Theorem errors_spec h w wd :
  well_formed h w wd →
  (∀ radius, radius < 0 →
     ∃ wd', blur radius wd = (Raise ZeroDivisionError, wd') ∧ grid_unmodified wd wd') ∧
  (∃ wd', blur 0 wd = (Done true, wd')) ∧
  pixellate 0 wd = (Raise ValueError, wd) ∧
  (∀ step, step < 0 → pixellate step wd = (Done true, wd)) ∧
  (∀ pow2 f hp, run_filter pow2 f (World hp [])
           = if is_mono f then (Done true, World hp []) else (Raise IndexError, World hp [])).
Proof.
  intros Hwf. pose proof Hwf as (Hwd & Hrect & Hh & Hw)%well_formed_world.
  rewrite Hwd in Hwf |- *. set (hp := heap wd) in *. set (img := image wd) in *.
  clearbody hp img. clear Hwd.
  pose proof (well_formed_allocated h w hp img Hwf) as Halloc.
  split_and!.
  - intros radius Hradius. eexists. split; [by apply (blur_negative_run _ _ h w)|].
    split; [done|]. simpl. by apply prefix_app_r.
  - eexists. apply (blur_run _ _ h w); (done || lia).
  - by apply (pixellate_zero_run h w).
  - intros step Hstep. by apply (pixellate_negative_run h w).
  - apply empty_image_run.
Qed.

Lemma errors_spec_witness :
  well_formed 2 3 sample_2x3 ∧
  (∀ radius, radius < 0 →
     ∃ wd', blur radius sample_2x3 = (Raise ZeroDivisionError, wd') ∧
            grid_unmodified sample_2x3 wd') ∧
  (∃ wd', blur 0 sample_2x3 = (Done true, wd')) ∧
  pixellate 0 sample_2x3 = (Raise ValueError, sample_2x3) ∧
  (∀ step, step < 0 → pixellate step sample_2x3 = (Done true, sample_2x3)) ∧
  (∀ pow2 f hp, run_filter pow2 f (World hp [])
           = if is_mono f then (Done true, World hp []) else (Raise IndexError, World hp [])).
Proof.
  split; [solve_well_formed|].
  apply (errors_spec 2 3 sample_2x3). solve_well_formed.
Defined.

(** ** The rectangular invariant *)

(** C9 — on a grid of H rows of W cells, H and W at least 1, whatever the
    filter, its parameters and the pixels, and whether the filter returns or
    raises, the image is left with rows of one length: [transpose] and
    [rotate] return True and leave W rows of H cells, every other filter
    leaves H rows of W cells.  Moreover [transpose] and [rotate] turn a
    well-formed H x W grid into a well-formed W x H grid. *)
Theorem rectangular_invariant pow2 f h w wd :
  rect h w (image wd) → (0 < h)%nat → (0 < w)%nat → allocated wd →
  let '(o, wd') := run_filter pow2 f wd in
  (if reshapes f then o = Done true ∧ rect w h (image wd') else rect h w (image wd')) ∧
  (reshapes f = true → well_formed h w wd → well_formed w h wd').
Proof.
  intros Hrect Hh Hw Halloc. unfold allocated, refs in Halloc.
  rewrite Forall_forall in Halloc.
  assert (∀ m : M bool, keeps_image m →
    let '(o, wd') := m wd in
    rect h w (image wd') ∧ (false = true → well_formed h w wd → well_formed w h wd'))
    as Hkeeps.
  { intros m Hm. specialize (Hm wd). destruct (m wd) as [o wd']. simpl in Hm.
    by rewrite Hm. }
  destruct wd as [hp img]. simpl in Hrect, Halloc.
  destruct f as [|sepia|vertical| |to_right| |radius|step]; simpl.
  - apply Hkeeps, dered_keeps_image.
  - apply Hkeeps, mono_keeps_image.
  - rewrite (flip_run _ _ _ h w) by done. split; [|done].
    simpl. destruct vertical; apply tabulate_rect.
  - rewrite (transpose_run _ _ h w) by done. simpl. split_and!; [done|apply tabulate_rect|].
    intros _. apply transpose_well_formed.
  - rewrite (rotate_run _ _ _ h w) by done. simpl. split_and!; [done|apply rotate_cells_rect|].
    intros _. apply rotate_well_formed.
  - apply Hkeeps, vignette_keeps_image.
  - destruct (decide (radius < 0)).
    + rewrite (blur_negative_run _ _ h w) by done. done.
    + rewrite (blur_run _ _ h w) by (done || lia). split; [|done]. apply tabulate_rect.
  - apply Hkeeps, pixellate_keeps_image.
Qed.

Lemma rectangular_invariant_witness :
  rect 2 3 (image sample_2x3) ∧ (0 < 2)%nat ∧ (0 < 3)%nat ∧ allocated sample_2x3 ∧
  let '(o, wd') := run_filter rounded_pow (Rotate false) sample_2x3 in
  (o = Done true ∧ rect 3 2 (image wd')) ∧
  (true = true → well_formed 2 3 sample_2x3 → well_formed 3 2 wd').
Proof.
  assert (rect 2 3 (image sample_2x3)) as Hrect by (split; [reflexivity|repeat constructor]).
  assert (allocated sample_2x3) as Halloc by (repeat constructor; by eexists).
  split; [exact Hrect|]. split; [lia|]. split; [lia|]. split; [exact Halloc|].
  apply (rectangular_invariant rounded_pow (Rotate false) 2 3 sample_2x3 Hrect);
    [lia|lia|exact Halloc].
Defined.

(** ** vignette *)

(** C4, as worded, fails, whatever the square of the platform.  On a grid
    of one cell the half diagonal is zero and [vignette] raises
    ZeroDivisionError.  On a grid of one row of two cells the centre is the
    cell (0, 1), itself a corner: its pixel (100, 150, 200, 128) keeps its
    colour. *)
Lemma vignette_counterexample :
  (∀ pow2,
    ¬ (∀ h w wd, well_formed h w wd → ∃ wd', vignette pow2 wd = (Done true, wd'))) ∧
  (∀ pow2,
    ¬ (∀ h w wd wd' r c p, well_formed h w wd → vignette pow2 wd = (Done true, wd') →
         (r = 0 ∨ r = h - 1)%nat → (c = 0 ∨ c = w - 1)%nat →
         pixel_at wd r c = Some p → alpha p < 255 →
         pixel_at wd' r c = Some (RGB 0 0 0 (alpha p)))).
Proof.
  split; intros pow2 H.
  - destruct (H 1%nat 1%nat (grid_of 1 1 [RGB 100 150 200 128])) as [wd' Hrun].
    { solve_well_formed. }
    vm_compute in Hrun. discriminate Hrun.
  - assert (well_formed 1 2 sample_1x2) as Hwf by solve_well_formed.
    pose proof (H 1%nat 2%nat sample_1x2 _ 0%nat 1%nat (RGB 100 150 200 128) Hwf eq_refl) as Hpx.
    vm_compute in Hpx. discriminate Hpx; (by right) || (by left) || done.
Qed.

(** C4, amended — take a platform whose [pow(x, 2.0)] reports no error and
    returns a finite number below 2^807 for every finite [x] from 2^-402 and
    below 2^403.  On a well-formed grid of more than one cell and of fewer
    than 2^400 rows and columns, [vignette] returns True, keeps the objects
    of the image in their cells, leaves every pixel whose alpha is 255
    untouched and every alpha as it was, and replaces red, green and blue of
    the other pixels by [int(channel * factor)], where, in binary64
    arithmetic, factor = 1 - (d / H) ** 2 with the square of the platform, d
    is the square root of [(r - height // 2) ** 2 + (c - width // 2) ** 2]
    and H the square root of [(height // 2) ** 2 + (width // 2) ** 2].  On
    every platform the factor of the centre [(height // 2, width // 2)] is 1
    and its pixel is unchanged; the factor of the corner (0, 0) is 0 and its
    pixel becomes black unless its alpha is 255. *)
Theorem vignette_spec pow2 h w wd :
  regular_pow pow2 →
  well_formed h w wd → (1 < h ∨ 1 < w)%nat →
  Z.of_nat h < 2 ^ 400 → Z.of_nat w < 2 ^ 400 →
  ∃ wd', vignette pow2 wd = (Done true, wd') ∧
    image wd' = image wd ∧
    (∀ r c, (r < h)%nat → (c < w)%nat →
       pixel_at wd' r c = vignette_pixel pow2 h w r c <$> pixel_at wd r c) ∧
    (∀ r c p, alpha (vignette_pixel pow2 h w r c p) = alpha p ∧
              (alpha p = 255 → vignette_pixel pow2 h w r c p = p)) ∧
    vignette_factor pow2 h w (Z.of_nat h `div` 2) (Z.of_nat w `div` 2) = 1%float ∧
    vignette_factor pow2 h w 0 0 = 0%float ∧
    (∀ p, pixel_ok p → vignette_pixel pow2 h w (h / 2) (w / 2) p = p) ∧
    (∀ p, pixel_ok p → alpha p < 255 →
       vignette_pixel pow2 h w 0 0 p = RGB 0 0 0 (alpha p)).
Proof.
  intros Hpow Hwf Hbig Hh Hw.
  pose proof Hwf as (Hwd & Hrect & Hh0 & Hw0)%well_formed_world.
  rewrite Hwd in Hwf |- *. set (hp := heap wd) in *. set (img := image wd) in *.
  clearbody hp img. clear Hwd.
  assert (1 < h ∧ 0 < w ∨ 0 < h ∧ 1 < w)%nat as Hdims by lia.
  destruct (vignette_run pow2 h w hp img) as (hp' & Hrun & _ & Hcells & _); [done..|].
  pose proof (vignette_factor_center pow2 h w Hdims Hh Hw) as Hcenter.
  pose proof (vignette_factor_corner pow2 h w Hdims Hh Hw) as Hcorner.
  exists (World hp' img). split_and!; [done..| | |done|done| |].
  - intros r c Hr Hc. rewrite !(pixel_at_cell img h w) by done. by apply Hcells.
  - intros r c p. unfold vignette_pixel. case_decide; simpl; split; (done || lia).
  - intros p (Hr & Hg & Hb & Ha). unfold vignette_pixel.
    rewrite !Nat2Z.inj_div. change (Z.of_nat 2) with 2. rewrite Hcenter.
    case_decide; [|done]. rewrite !darken_one by done. by destruct p.
  - intros p (Hr & Hg & Hb & Ha) Halpha. unfold vignette_pixel.
    change (Z.of_nat 0) with 0. rewrite Hcorner, decide_True by done.
    by rewrite !darken_zero by done.
Qed.

Lemma vignette_spec_witness :
  regular_pow rounded_pow ∧
  well_formed 2 2 sample_2x2 ∧ (1 < 2 ∨ 1 < 2)%nat ∧ Z.of_nat 2 < 2 ^ 400 ∧
  ∃ wd', vignette rounded_pow sample_2x2 = (Done true, wd') ∧
    image wd' = image sample_2x2 ∧
    (∀ r c, (r < 2)%nat → (c < 2)%nat →
       pixel_at wd' r c = vignette_pixel rounded_pow 2 2 r c <$> pixel_at sample_2x2 r c) ∧
    (∀ r c p, alpha (vignette_pixel rounded_pow 2 2 r c p) = alpha p ∧
              (alpha p = 255 → vignette_pixel rounded_pow 2 2 r c p = p)) ∧
    vignette_factor rounded_pow 2 2 (Z.of_nat 2 `div` 2) (Z.of_nat 2 `div` 2) = 1%float ∧
    vignette_factor rounded_pow 2 2 0 0 = 0%float ∧
    (∀ p, pixel_ok p → vignette_pixel rounded_pow 2 2 (2 / 2) (2 / 2) p = p) ∧
    (∀ p, pixel_ok p → alpha p < 255 →
       vignette_pixel rounded_pow 2 2 0 0 p = RGB 0 0 0 (alpha p)).
Proof.
  split; [exact regular_rounded_pow|].
  split; [solve_well_formed|]. split; [left; lia|]. split; [reflexivity|].
  apply (vignette_spec rounded_pow 2 2 sample_2x2);
    [exact regular_rounded_pow|solve_well_formed|left; lia|reflexivity..].
Defined.

(** * What the filters leave alone *)

(** ** Computations that only read *)

Lemma reads_ret {A} (a : A) : reads (mret a).
Proof. by intros wd. Qed.

Lemma reads_raise {A} e : reads (raise e : M A).
Proof. by intros wd. Qed.

Lemma reads_eval {A} (o : outcome A) : reads (eval o).
Proof. by intros wd. Qed.

Lemma reads_lift {A} e (o : option A) : reads (lift e o).
Proof. by destruct o. Qed.

Lemma reads_bind {A B} (m : M A) (k : A → M B) :
  reads m → (∀ a, reads (k a)) → reads (m ≫= k).
Proof.
  intros Hm Hk wd. rewrite run_bind. specialize (Hm wd).
  destruct (m wd) as [[a|e] wd1]; simpl in *; subst; [apply Hk|done].
Qed.

Lemma reads_get_image : reads get_image.
Proof. by intros wd. Qed.

Lemma reads_len_image : reads len_image.
Proof. by intros wd. Qed.

Lemma reads_image_row i : reads (image_row i).
Proof. apply reads_bind; [apply reads_get_image|intros; apply reads_lift]. Qed.

Lemma reads_image_get i j : reads (image_get i j).
Proof. apply reads_bind; [apply reads_get_image|intros; apply reads_lift]. Qed.

Lemma reads_load x : reads (load x).
Proof. intros wd. unfold load. by destruct (heap wd !! x). Qed.

Lemma reads_floordiv a b : reads (floordiv a b).
Proof. unfold floordiv. case_decide; [apply reads_raise|apply reads_ret]. Qed.

Create HintDb reads discriminated.
#[export] Hint Resolve reads_ret reads_raise reads_eval reads_lift reads_get_image
  reads_len_image reads_image_row reads_image_get reads_load reads_floordiv : reads.

(** ** Relations kept along a computation *)

Section preserved.
Variable R : world → world → Prop.
Hypothesis R_refl : ∀ wd, R wd wd.
Hypothesis R_trans : ∀ wd1 wd2 wd3, R wd1 wd2 → R wd2 wd3 → R wd1 wd3.

Lemma preserves_reads {A} (m : M A) : reads m → preserves R m.
Proof using R_refl. intros Hm wd. rewrite Hm. apply R_refl. Qed.

Lemma preserves_bind {A B} (m : M A) (k : A → M B) :
  preserves R m → (∀ a, preserves R (k a)) → preserves R (m ≫= k).
Proof using R_trans.
  intros Hm Hk wd. rewrite run_bind. specialize (Hm wd).
  destruct (m wd) as [[a|e] wd1]; simpl in *; [|done].
  eapply R_trans; [exact Hm|apply Hk].
Qed.

Lemma preserves_fold_for {A B} (l : list A) (body : A → B → M B) acc :
  (∀ x acc, preserves R (body x acc)) → preserves R (fold_for l acc body).
Proof using R_refl R_trans.
  intros Hbody. revert acc. induction l as [|x l IH]; intros acc; simpl.
  - apply preserves_reads, reads_ret.
  - apply preserves_bind; [apply Hbody|apply IH].
Qed.

Lemma preserves_for {A} (l : list A) (body : A → M unit) :
  (∀ x, preserves R (body x)) → preserves R (for_ l body).
Proof using R_refl R_trans. intros Hbody. apply preserves_fold_for. intros x _. apply Hbody. Qed.

Lemma preserves_comprehension {A B} (l : list A) (f : A → M B) :
  (∀ x, preserves R (f x)) → preserves R (comprehension l f).
Proof using R_refl R_trans.
  intros Hf. induction l as [|x l IH]; simpl.
  - apply preserves_reads, reads_ret.
  - apply preserves_bind; [apply Hf|]. intros y.
    apply preserves_bind; [apply IH|]. intros ys. apply preserves_reads, reads_ret.
Qed.

End preserved.

(** One step of a proof that a computation keeps [R], given the proofs that
    [R] is reflexive and transitive; the writes are left to the caller. *)
Ltac preserves_step Hrefl Htrans :=
  lazymatch goal with
  | |- ∀ _, _ => intros
  | |- preserves _ (_ ≫= _) => apply (preserves_bind _ Htrans)
  | |- preserves _ (fold_for _ _ _) => apply (preserves_fold_for _ Hrefl Htrans)
  | |- preserves _ (for_ _ _) => apply (preserves_for _ Hrefl Htrans)
  | |- preserves _ (comprehension _ _) => apply (preserves_comprehension _ Hrefl Htrans)
  | |- preserves _ (if ?b then _ else _) => destruct b
  | |- preserves _ (match ?x with _ => _ end) => destruct x
  | |- preserves _ _ => apply (preserves_reads _ Hrefl); solve [auto with reads]
  end.

(** ** The three relations *)

Lemma same_store_refl wd : same_store wd wd.
Proof. done. Qed.

Lemma same_store_trans wd1 wd2 wd3 :
  same_store wd1 wd2 → same_store wd2 wd3 → same_store wd1 wd3.
Proof. unfold same_store. congruence. Qed.

Lemma same_cells_refl wd : same_cells wd wd.
Proof. done. Qed.

Lemma same_cells_trans wd1 wd2 wd3 :
  same_cells wd1 wd2 → same_cells wd2 wd3 → same_cells wd1 wd3.
Proof. unfold same_cells. intros [H1 H2] [H3 H4]. split; congruence. Qed.

Lemma store_extended_refl wd : store_extended wd wd.
Proof. unfold store_extended. reflexivity. Qed.

Lemma store_extended_trans wd1 wd2 wd3 :
  store_extended wd1 wd2 → store_extended wd2 wd3 → store_extended wd1 wd3.
Proof. unfold store_extended. intros. by etrans. Qed.

(** The writes. *)
Lemma put_image_same_store img : preserves same_store (put_image img).
Proof. by intros wd. Qed.

Lemma image_set_same_store i j x : preserves same_store (image_set i j x).
Proof.
  unfold image_set.
  repeat first [apply put_image_same_store | preserves_step same_store_refl same_store_trans].
Qed.

Lemma image_append_same_store row : preserves same_store (image_append row).
Proof.
  unfold image_append.
  repeat first [apply put_image_same_store | preserves_step same_store_refl same_store_trans].
Qed.

Lemma update_same_cells f x : preserves same_cells (update f x).
Proof.
  intros wd. unfold update. destruct (heap wd !! x); [|done].
  split; [done|]. simpl. by rewrite length_insert.
Qed.

Lemma same_store_extended {A} (m : M A) : preserves same_store m → preserves store_extended m.
Proof. intros Hm wd. unfold store_extended. by rewrite Hm. Qed.

Lemma new_RGB_store_extended r g b a : preserves store_extended (new_RGB r g b a).
Proof. intros wd. by apply prefix_app_r. Qed.

Ltac same_store_tac :=
  repeat first
    [ apply put_image_same_store | apply image_set_same_store | apply image_append_same_store
    | apply (put_image_same_store [])
    | preserves_step same_store_refl same_store_trans ].

Ltac same_cells_tac :=
  repeat first
    [ apply update_same_cells
    | preserves_step same_cells_refl same_cells_trans ].

Ltac store_extended_tac :=
  repeat first
    [ apply new_RGB_store_extended
    | apply same_store_extended, image_set_same_store
    | preserves_step store_extended_refl store_extended_trans ].

(** * Further properties of the filters *)

(** ** What the filters never do *)

(** X1 — [flip], [transpose] and [rotate] never write or add a pixel object,
    whatever the world and the arguments, and also when they raise. *)
Theorem geometric_filters_keep_store :
  (∀ vertical, preserves same_store (flip vertical)) ∧
  preserves same_store transpose ∧
  (∀ to_right, preserves same_store (rotate to_right)).
Proof.
  assert (∀ vertical, preserves same_store (flip vertical)) as Hflip.
  { intros vertical. unfold flip. same_store_tac. }
  assert (preserves same_store transpose) as Htranspose.
  { unfold transpose, image_clear. same_store_tac. }
  split_and!; [done..|].
  intros to_right. unfold rotate.
  repeat first [apply Hflip | apply Htranspose | preserves_step same_store_refl same_store_trans].
Qed.

(** X2 — [dered], [mono], [vignette] and [pixellate] never re-bind a cell of
    the image and never add a pixel object, whatever the world and the
    arguments, and also when they raise. *)
Theorem pixel_filters_in_place :
  preserves same_cells dered ∧
  (∀ sepia, preserves same_cells (mono sepia)) ∧
  (∀ pow2, preserves same_cells (vignette pow2)) ∧
  (∀ step, preserves same_cells (pixellate step)).
Proof.
  split_and!; [|intros sepia|intros pow2|intros step].
  - unfold dered, set_red. same_cells_tac.
  - unfold mono, set_red, set_green, set_blue. same_cells_tac.
  - unfold vignette, set_red, set_green, set_blue. same_cells_tac.
  - unfold pixellate, set_red, set_green, set_blue, set_alpha. same_cells_tac.
Qed.

(** X3 — [blur] never writes a pixel object that was there before the call:
    whatever the world and the radius, and also when it raises, the old
    objects keep their attributes. *)
Theorem blur_keeps_objects radius : preserves store_extended (blur radius).
Proof. unfold blur. store_extended_tac. Qed.

(** ** Where the geometric filters put the objects *)

(** X4 — [flip] returns True and leaves in the cell [(r, c)] the object that
    was in the mirror cell: [(h - 1 - r, c)] for a vertical flip,
    [(r, w - 1 - c)] for a horizontal one. *)
Theorem flip_mapping h w wd vertical :
  rect h w (image wd) → (0 < h)%nat →
  ∃ wd', flip vertical wd = (Done true, wd') ∧
    heap wd' = heap wd ∧ rect h w (image wd') ∧
    ∀ r c, (r < h)%nat → (c < w)%nat →
      cell 0%nat (image wd') r c =
        if vertical then cell 0%nat (image wd) (h - 1 - r) c
        else cell 0%nat (image wd) r (w - 1 - c).
Proof.
  intros Hrect Hh. destruct wd as [hp img]. simpl in *.
  eexists. split; [by apply (flip_run _ _ _ h w)|]. simpl. split; [done|].
  split; [destruct vertical; apply tabulate_rect|].
  intros r c Hr Hc. destruct vertical; unfold flip_cells; by rewrite cell_tabulate.
Qed.

Lemma flip_mapping_witness :
  rect 2 3 (image sample_2x3) ∧ (0 < 2)%nat ∧
  ∃ wd', flip false sample_2x3 = (Done true, wd') ∧
    heap wd' = heap sample_2x3 ∧ rect 2 3 (image wd') ∧
    ∀ r c, (r < 2)%nat → (c < 3)%nat →
      cell 0%nat (image wd') r c = cell 0%nat (image sample_2x3) r (3 - 1 - c).
Proof.
  assert (rect 2 3 (image sample_2x3)) as Hrect by (split; [reflexivity|repeat constructor]).
  split; [exact Hrect|]. split; [lia|].
  apply (flip_mapping 2 3 sample_2x3 false Hrect). lia.
Defined.

(** X5 — [transpose] returns True and turns H rows of W cells into W rows of
    H cells, the cell [(c, r)] holding the object that was in [(r, c)]. *)
Theorem transpose_mapping h w wd :
  rect h w (image wd) → (0 < h)%nat →
  ∃ wd', transpose wd = (Done true, wd') ∧
    heap wd' = heap wd ∧ rect w h (image wd') ∧
    ∀ r c, (r < h)%nat → (c < w)%nat →
      cell 0%nat (image wd') c r = cell 0%nat (image wd) r c.
Proof.
  intros Hrect Hh. destruct wd as [hp img]. simpl in *.
  eexists. split; [by apply (transpose_run _ _ h w)|]. simpl. split; [done|].
  split; [apply tabulate_rect|].
  intros r c Hr Hc. unfold transpose_cells. by rewrite cell_tabulate.
Qed.

Lemma transpose_mapping_witness :
  rect 2 3 (image sample_2x3) ∧ (0 < 2)%nat ∧
  ∃ wd', transpose sample_2x3 = (Done true, wd') ∧
    heap wd' = heap sample_2x3 ∧ rect 3 2 (image wd') ∧
    ∀ r c, (r < 2)%nat → (c < 3)%nat →
      cell 0%nat (image wd') c r = cell 0%nat (image sample_2x3) r c.
Proof.
  assert (rect 2 3 (image sample_2x3)) as Hrect by (split; [reflexivity|repeat constructor]).
  split; [exact Hrect|]. split; [lia|].
  apply (transpose_mapping 2 3 sample_2x3 Hrect). lia.
Defined.

(** X6 — transposing twice restores the grid, cells and objects. *)
Theorem transpose_involution h w wd :
  rect h w (image wd) → (0 < h)%nat → (0 < w)%nat →
  (transpose ;; transpose) wd = (Done true, wd).
Proof.
  intros Hrect Hh Hw. destruct wd as [hp img]. simpl in *.
  mstep ltac:(by apply (transpose_run _ _ h w)).
  rewrite (transpose_run _ _ w h) by (done || apply tabulate_rect).
  do 2 f_equal. rewrite (rect_tabulate 0%nat h w img Hrect) at 2. cells_ext.
Qed.

Lemma transpose_involution_witness :
  rect 2 3 (image sample_2x3) ∧ (0 < 2)%nat ∧ (0 < 3)%nat ∧
  (transpose ;; transpose) sample_2x3 = (Done true, sample_2x3).
Proof.
  assert (rect 2 3 (image sample_2x3)) as Hrect by (split; [reflexivity|repeat constructor]).
  split; [exact Hrect|]. split; [lia|]. split; [lia|].
  apply (transpose_involution 2 3 sample_2x3 Hrect); lia.
Defined.

(** X7 — [rotate] turns H rows of W cells into W rows of H cells: after a left
    rotation the cell [(r, c)] holds the object that was in [(c, W - 1 - r)],
    after a right rotation the one that was in [(H - 1 - c, r)]. *)
Theorem rotate_mapping h w wd to_right :
  rect h w (image wd) → (0 < h)%nat → (0 < w)%nat →
  ∃ wd', rotate to_right wd = (Done true, wd') ∧
    heap wd' = heap wd ∧ rect w h (image wd') ∧
    ∀ r c, (r < w)%nat → (c < h)%nat →
      cell 0%nat (image wd') r c =
        if to_right then cell 0%nat (image wd) (h - 1 - c) r
        else cell 0%nat (image wd) c (w - 1 - r).
Proof.
  intros Hrect Hh Hw. destruct wd as [hp img]. simpl in *.
  eexists. split; [by apply (rotate_run _ _ _ h w)|]. simpl. split; [done|].
  split; [destruct to_right; apply tabulate_rect|].
  intros r c Hr Hc. destruct to_right; unfold rotate_cells; by rewrite cell_tabulate.
Qed.

Lemma rotate_mapping_witness :
  rect 2 3 (image sample_2x3) ∧ (0 < 2)%nat ∧ (0 < 3)%nat ∧
  ∃ wd', rotate false sample_2x3 = (Done true, wd') ∧
    heap wd' = heap sample_2x3 ∧ rect 3 2 (image wd') ∧
    ∀ r c, (r < 3)%nat → (c < 2)%nat →
      cell 0%nat (image wd') r c = cell 0%nat (image sample_2x3) c (3 - 1 - r).
Proof.
  assert (rect 2 3 (image sample_2x3)) as Hrect by (split; [reflexivity|repeat constructor]).
  split; [exact Hrect|]. split; [lia|]. split; [lia|].
  apply (rotate_mapping 2 3 sample_2x3 false Hrect); lia.
Defined.

(** ** How the geometric filters compose *)

(** X8 — the two flips commute, and one after the other they are a half
    turn: the same as two left rotations, or two right rotations. *)
Theorem flips_half_turn h w wd :
  rect h w (image wd) → (0 < h)%nat → (0 < w)%nat →
  (flip false ;; flip true) wd = (flip true ;; flip false) wd ∧
  (rotate false ;; rotate false) wd = (flip false ;; flip true) wd ∧
  (rotate true ;; rotate true) wd = (flip false ;; flip true) wd.
Proof.
  intros Hrect Hh Hw. destruct wd as [hp img]. simpl in *.
  assert (∀ v1 v2, (flip v1 ;; flip v2) (World hp img)
    = (Done true, World hp (flip_cells v2 h w (flip_cells v1 h w img)))) as Hflips.
  { intros v1 v2. mstep ltac:(by apply (flip_run _ _ _ h w)).
    apply (flip_run _ _ _ h w); [destruct v1; apply tabulate_rect|done]. }
  assert (∀ t, (rotate t ;; rotate t) (World hp img)
    = (Done true, World hp (rotate_cells t w h (rotate_cells t h w img)))) as Hrots.
  { intros t. mstep ltac:(by apply (rotate_run _ _ _ h w)).
    apply (rotate_run _ _ _ w h); [apply rotate_cells_rect|done..]. }
  rewrite !Hflips, !Hrots. split_and!; do 2 f_equal; cells_ext.
Qed.

Lemma flips_half_turn_witness :
  rect 2 3 (image sample_2x3) ∧ (0 < 2)%nat ∧ (0 < 3)%nat ∧
  (flip false ;; flip true) sample_2x3 = (flip true ;; flip false) sample_2x3 ∧
  (rotate false ;; rotate false) sample_2x3 = (flip false ;; flip true) sample_2x3 ∧
  (rotate true ;; rotate true) sample_2x3 = (flip false ;; flip true) sample_2x3.
Proof.
  assert (rect 2 3 (image sample_2x3)) as Hrect by (split; [reflexivity|repeat constructor]).
  split; [exact Hrect|]. split; [lia|]. split; [lia|].
  apply (flips_half_turn 2 3 sample_2x3 Hrect); lia.
Defined.

(** X9 — three left rotations are one right rotation, and three right
    rotations are one left rotation. *)
Theorem three_quarter_turns h w wd to_right :
  rect h w (image wd) → (0 < h)%nat → (0 < w)%nat →
  (rotate to_right ;; rotate to_right ;; rotate to_right) wd = rotate (negb to_right) wd.
Proof.
  intros Hrect Hh Hw. destruct wd as [hp img]. simpl in *.
  mstep ltac:(by apply (rotate_run _ _ _ h w)).
  mstep ltac:(apply (rotate_run _ _ _ w h); [apply rotate_cells_rect|done..]).
  rewrite (rotate_run _ _ _ h w), (rotate_run _ _ _ h w) by (done || apply rotate_cells_rect).
  do 2 f_equal. destruct to_right; cells_ext.
Qed.

Lemma three_quarter_turns_witness :
  rect 2 3 (image sample_2x3) ∧ (0 < 2)%nat ∧ (0 < 3)%nat ∧
  (rotate false ;; rotate false ;; rotate false) sample_2x3 = rotate true sample_2x3.
Proof.
  assert (rect 2 3 (image sample_2x3)) as Hrect by (split; [reflexivity|repeat constructor]).
  split; [exact Hrect|]. split; [lia|]. split; [lia|].
  apply (three_quarter_turns 2 3 sample_2x3 false Hrect); lia.
Defined.

(** ** Grids without columns *)

Lemma for_skip {A} (l : list A) w : for_ l (λ _, mret ()) w = (Done (), w).
Proof. induction l as [|x l IH]; [done|]. rewrite for_cons. by erewrite run_bind_done. Qed.

(** X10 — on an image of H rows without cells, [transpose] returns True and
    leaves an image without rows; so does a right rotation, while a left
    rotation raises IndexError after it has emptied the image.  [flip],
    [dered] and [mono] return True and change nothing. *)
Theorem no_columns h wd :
  rect h 0 (image wd) → (0 < h)%nat →
  transpose wd = (Done true, World (heap wd) []) ∧
  rotate true wd = (Done true, World (heap wd) []) ∧
  rotate false wd = (Raise IndexError, World (heap wd) []) ∧
  (∀ vertical, flip vertical wd = (Done true, wd)) ∧
  dered wd = (Done true, wd) ∧
  (∀ sepia, mono sepia wd = (Done true, wd)).
Proof.
  intros Hrect Hh. destruct wd as [hp img]. simpl in *.
  destruct (rect_dims h 0 img Hrect Hh) as (Hlen & row0 & Hrow0 & Hlen0).
  assert (∀ vertical, flip vertical (World hp img) = (Done true, World hp img)) as Hflip.
  { intros vertical. rewrite (flip_run _ _ _ h 0) by done. do 2 f_equal.
    rewrite (rect_tabulate 0%nat h 0 img Hrect) at 2. by destruct vertical. }
  assert (transpose (World hp img) = (Done true, World hp [])) as Htranspose.
  { by rewrite (transpose_run _ _ h 0). }
  split_and!; [done| | |done| |].
  - unfold rotate.
    mstep ltac:(apply len_image_run).
    mstep ltac:(apply (image_row_run _ _ 0%nat), Hrow0).
    erewrite run_bind_done; [reflexivity|].
    mstep ltac:(apply Hflip). by mstep ltac:(apply Htranspose).
  - unfold rotate.
    mstep ltac:(apply len_image_run).
    mstep ltac:(apply (image_row_run _ _ 0%nat), Hrow0).
    erewrite run_bind_raise; [reflexivity|].
    by mstep ltac:(apply Htranspose).
  - unfold dered.
    mstep ltac:(apply len_image_run).
    mstep ltac:(apply (image_row_run _ _ 0%nat), Hrow0).
    rewrite Hlen0. change (range 0 (Z.of_nat 0)) with (@nil Z).
    erewrite run_bind_done; [reflexivity|]. apply for_skip.
  - intros sepia. unfold mono. mstep ltac:(apply get_image_run).
    erewrite run_bind_done; [reflexivity|]. rewrite for_concat.
    assert (concat img = []) as ->; [|done].
    apply length_zero_iff_nil. by rewrite (rect_concat_length h 0), Nat.mul_0_r.
Qed.

Lemma no_columns_witness :
  rect 2 0 (image no_columns_2) ∧ (0 < 2)%nat ∧
  transpose no_columns_2 = (Done true, World (heap no_columns_2) []) ∧
  rotate true no_columns_2 = (Done true, World (heap no_columns_2) []) ∧
  rotate false no_columns_2 = (Raise IndexError, World (heap no_columns_2) []) ∧
  (∀ vertical, flip vertical no_columns_2 = (Done true, no_columns_2)) ∧
  dered no_columns_2 = (Done true, no_columns_2) ∧
  (∀ sepia, mono sepia no_columns_2 = (Done true, no_columns_2)).
Proof.
  assert (rect 2 0 (image no_columns_2)) as Hrect by (split; [reflexivity|repeat constructor]).
  split; [exact Hrect|]. split; [lia|].
  apply (no_columns 2 no_columns_2 Hrect). lia.
Defined.

(** ** The geometric filters move the objects, and lose none *)

Lemma pairs_fmap_concat {A B C} (F : A → B → C) (l1 : list A) (l2 : list B) :
  (λ ab, F ab.1 ab.2) <$> pairs l1 l2 = concat ((λ a, F a <$> l2) <$> l1).
Proof.
  unfold pairs. induction l1 as [|a l1 IH]; [done|].
  rewrite bind_cons, fmap_app, IH, fmap_cons. simpl. f_equal.
  by rewrite <- list_fmap_compose.
Qed.

Lemma concat_tabulate {A} h w (G : nat → nat → A) :
  concat (tabulate h w G) = (λ ab, G ab.1 ab.2) <$> pairs (seq 0 h) (seq 0 w).
Proof. by rewrite pairs_fmap_concat. Qed.

(** A table read through a one-to-one correspondence of the positions holds
    the same elements, as many times. *)
Lemma reindex_Permutation {A} (d : A) h w h' w' (t : list (list A)) (f g : nat → nat → nat) :
  rect h w t →
  (∀ r c, (r < h')%nat → (c < w')%nat → (f r c < h)%nat ∧ (g r c < w)%nat) →
  (∀ r c r' c', (r < h')%nat → (c < w')%nat → (r' < h')%nat → (c' < w')%nat →
     f r c = f r' c' → g r c = g r' c' → r = r' ∧ c = c') →
  (∀ r c, (r < h)%nat → (c < w)%nat →
     ∃ r' c', (r' < h')%nat ∧ (c' < w')%nat ∧ f r' c' = r ∧ g r' c' = c) →
  concat (tabulate h' w' (λ r c, cell d t (f r c) (g r c))) ≡ₚ concat t.
Proof.
  intros Hrect Hin Hinj Hsurj.
  assert (concat t = concat (tabulate h w (cell d t))) as ->
    by (by rewrite <- (rect_tabulate d h w t Hrect)).
  rewrite !concat_tabulate.
  change (λ ab : nat * nat, cell d t (f ab.1 ab.2) (g ab.1 ab.2))
    with ((λ ab : nat * nat, cell d t ab.1 ab.2) ∘ (λ ab : nat * nat, (f ab.1 ab.2, g ab.1 ab.2))).
  rewrite list_fmap_compose. apply fmap_Permutation.
  apply NoDup_Permutation.
  - apply NoDup_fmap_2_strong; [|apply NoDup_pairs; apply NoDup_seq].
    intros [r c] [r' c'] [Hr Hc]%elem_of_pairs [Hr' Hc']%elem_of_pairs [= Hf Hg].
    apply elem_of_seq in Hr, Hc, Hr', Hc'. simpl in *.
    destruct (Hinj r c r' c') as [-> ->]; (done || lia).
  - apply NoDup_pairs; apply NoDup_seq.
  - intros [r c]. rewrite list_elem_of_fmap, elem_of_pairs, !elem_of_seq. split.
    + intros ([r' c'] & [= -> ->] & [Hr Hc]%elem_of_pairs).
      apply elem_of_seq in Hr, Hc. simpl. destruct (Hin r' c'); lia.
    + intros [Hr Hc]. destruct (Hsurj r c) as (r' & c' & Hr' & Hc' & <- & <-); [lia..|].
      exists (r', c'). split; [done|]. apply elem_of_pairs. rewrite !elem_of_seq. lia.
Qed.

Lemma geometric_cells_Permutation h w (img : list (list ref)) :
  rect h w img →
  (∀ vertical, concat (flip_cells vertical h w img) ≡ₚ concat img) ∧
  concat (transpose_cells h w img) ≡ₚ concat img ∧
  (∀ to_right, concat (rotate_cells to_right h w img) ≡ₚ concat img).
Proof.
  intros Hrect. split_and!.
  - intros vertical. destruct vertical; unfold flip_cells.
    + apply (reindex_Permutation 0%nat h w h w img (λ r c, h - 1 - r)%nat (λ r c, c));
        [done|lia..|].
      intros r c Hr Hc. exists (h - 1 - r)%nat, c. lia.
    + apply (reindex_Permutation 0%nat h w h w img (λ r c, r) (λ r c, w - 1 - c)%nat);
        [done|lia..|].
      intros r c Hr Hc. exists r, (w - 1 - c)%nat. lia.
  - unfold transpose_cells.
    apply (reindex_Permutation 0%nat h w w h img (λ r c, c) (λ r c, r)); [done|lia..|].
    intros r c Hr Hc. exists c, r. lia.
  - intros to_right. destruct to_right; unfold rotate_cells.
    + apply (reindex_Permutation 0%nat h w w h img (λ r c, h - 1 - c)%nat (λ r c, r));
        [done|lia..|].
      intros r c Hr Hc. exists c, (h - 1 - r)%nat. lia.
    + apply (reindex_Permutation 0%nat h w w h img (λ r c, c) (λ r c, w - 1 - r)%nat);
        [done|lia..|].
      intros r c Hr Hc. exists (w - 1 - c)%nat, r. lia.
Qed.

(** X11 — [flip], [transpose] and [rotate] only move the objects of the image:
    the cells after the call hold the objects of the cells before it, each
    as many times; none is lost or duplicated. *)
Theorem geometric_filters_permute h w wd :
  rect h w (image wd) → (0 < h)%nat → (0 < w)%nat →
  (∀ vertical, refs (flip vertical wd).2 ≡ₚ refs wd) ∧
  refs (transpose wd).2 ≡ₚ refs wd ∧
  (∀ to_right, refs (rotate to_right wd).2 ≡ₚ refs wd).
Proof.
  intros Hrect Hh Hw. destruct wd as [hp img]. unfold refs. simpl in *.
  destruct (geometric_cells_Permutation h w img Hrect) as (Hflip & Htranspose & Hrotate).
  split_and!.
  - intros vertical. rewrite (flip_run _ _ _ h w) by done. apply Hflip.
  - rewrite (transpose_run _ _ h w) by done. apply Htranspose.
  - intros to_right. rewrite (rotate_run _ _ _ h w) by done. apply Hrotate.
Qed.

Lemma geometric_filters_permute_witness :
  rect 2 3 (image sample_2x3) ∧ (0 < 2)%nat ∧ (0 < 3)%nat ∧
  (∀ vertical, refs (flip vertical sample_2x3).2 ≡ₚ refs sample_2x3) ∧
  refs (transpose sample_2x3).2 ≡ₚ refs sample_2x3 ∧
  (∀ to_right, refs (rotate to_right sample_2x3).2 ≡ₚ refs sample_2x3).
Proof.
  assert (rect 2 3 (image sample_2x3)) as Hrect by (split; [reflexivity|repeat constructor]).
  split; [exact Hrect|]. split; [lia|]. split; [lia|].
  apply (geometric_filters_permute 2 3 sample_2x3 Hrect); lia.
Defined.

(** ** dered *)

Lemma cells_concat h w (img : list (list ref)) :
  rect h w img →
  (λ ab : Z * Z, cell 0%nat img (Z.to_nat ab.1) (Z.to_nat ab.2))
    <$> pairs (range 0 (Z.of_nat h)) (range 0 (Z.of_nat w)) = concat img.
Proof.
  intros Hrect.
  rewrite (pairs_fmap_concat (λ a b, cell 0%nat img (Z.to_nat a) (Z.to_nat b))).
  assert (concat img = concat (tabulate h w (cell 0%nat img))) as ->
    by (by rewrite <- (rect_tabulate 0%nat h w img Hrect)).
  unfold tabulate. f_equal.
  rewrite !range_nat, <- list_fmap_compose. apply list_fmap_ext. intros _ r _. simpl.
  rewrite <- list_fmap_compose. apply list_fmap_ext. intros _ c _. simpl.
  by rewrite !Nat2Z.id.
Qed.

Lemma dered_run h w hp img :
  well_formed h w (World hp img) →
  dered (World hp img) = (Done true, World (heap_map dered_pixel (concat img) hp) img).
Proof.
  intros Hwf. pose proof Hwf as (Hh & Hw & Hrect & Hnd & Hall).
  unfold refs in *. simpl in *. rewrite Forall_forall in Hall.
  destruct (rect_dims h w img Hrect Hh) as (Hlen & row0 & Hrow0 & Hlen0).
  unfold dered.
  mstep ltac:(apply len_image_run).
  mstep ltac:(apply (image_row_run _ _ 0%nat), Hrow0).
  rewrite Hlen, Hlen0. erewrite run_bind_done; [reflexivity|].
  rewrite for_pairs.
  rewrite (for_update_all (λ ab : Z * Z, cell 0%nat img (Z.to_nat ab.1) (Z.to_nat ab.2))
             dered_pixel pixel_ok).
  - by rewrite (cells_concat h w).
  - by rewrite (cells_concat h w).
  - intros [r c] [Hr Hc]%elem_of_pairs. apply elem_of_range in Hr, Hc.
    apply Hall. apply (rect_cell_elem_of _ h w); simpl; (done || lia).
  - intros [r c] hp0 p [Hr Hc]%elem_of_pairs Hp _. apply elem_of_range in Hr, Hc. simpl in *.
    erewrite run_bind_done; [by apply update_run|].
    rewrite <- (Z2Nat.id r), <- (Z2Nat.id c) at 1 by lia.
    apply image_get_run. apply (rect_lookup2 0%nat h w); (done || lia).
Qed.

Lemma dered_pixel_ok p : pixel_ok p → pixel_ok (dered_pixel p).
Proof. intros (? & ? & ? & ?). unfold pixel_ok. simpl. lia. Qed.

(** X12 — on a well-formed grid [dered] returns True, sets the red of every
    pixel to 0 and leaves green, blue and alpha as they were; the grid stays
    well formed, with the same objects in the same cells. *)
Theorem dered_clears_red h w wd :
  well_formed h w wd →
  ∃ wd', dered wd = (Done true, wd') ∧ image wd' = image wd ∧ well_formed h w wd' ∧
    ∀ r c, (r < h)%nat → (c < w)%nat →
      ∃ p, pixel_at wd r c = Some p ∧
           pixel_at wd' r c = Some (RGB 0 (green p) (blue p) (alpha p)).
Proof.
  intros Hwf. pose proof Hwf as (Hwd & _)%well_formed_world. rewrite Hwd in Hwf |- *.
  set (hp := heap wd) in *. set (img := image wd) in *. clearbody hp img. clear Hwd.
  eexists. split; [by apply (dered_run h w)|]. split; [done|].
  split; [apply heap_map_well_formed; [apply dered_pixel_ok|done]|].
  intros r c Hr Hc.
  destruct (pixel_at_heap_map dered_pixel h w hp img r c) as (p & Hp & _ & Hp'); [done..|].
  by exists p.
Qed.

Lemma dered_clears_red_witness :
  well_formed 2 3 sample_2x3 ∧
  ∃ wd', dered sample_2x3 = (Done true, wd') ∧ image wd' = image sample_2x3 ∧
    well_formed 2 3 wd' ∧
    ∀ r c, (r < 2)%nat → (c < 3)%nat →
      ∃ p, pixel_at sample_2x3 r c = Some p ∧
           pixel_at wd' r c = Some (RGB 0 (green p) (blue p) (alpha p)).
Proof.
  split; [solve_well_formed|].
  apply (dered_clears_red 2 3 sample_2x3). solve_well_formed.
Defined.

Lemma heap_map_Permutation f l l' hp :
  NoDup l → l ≡ₚ l' → heap_map f l hp = heap_map f l' hp.
Proof.
  intros Hnd Hperm. assert (NoDup l') as Hnd' by (by rewrite <- Hperm).
  apply list_eq. intros x. rewrite !heap_map_lookup by done.
  destruct (decide (x ∈ l)) as [Hx|Hx].
  - rewrite decide_True; [done|]. by rewrite <- Hperm.
  - rewrite decide_False; [done|]. by rewrite <- Hperm.
Qed.

Lemma heap_map_twice f l hp :
  NoDup l → (∀ p, f (f p) = f p) → heap_map f l (heap_map f l hp) = heap_map f l hp.
Proof.
  intros Hnd Hf. apply list_eq. intros x. rewrite !heap_map_lookup by done.
  case_decide; [|done]. destruct (hp !! x); simpl; [by rewrite Hf|done].
Qed.

(** X13 — [dered] is idempotent: a second call leaves the world the first call
    made. *)
Theorem dered_idempotent h w wd :
  well_formed h w wd → (dered ;; dered) wd = dered wd.
Proof.
  intros Hwf. pose proof Hwf as (Hwd & _)%well_formed_world. rewrite Hwd in Hwf |- *.
  set (hp := heap wd) in *. set (img := image wd) in *. clearbody hp img. clear Hwd.
  pose proof (heap_map_well_formed dered_pixel h w hp img dered_pixel_ok Hwf) as Hwf1.
  mstep ltac:(by apply (dered_run h w)).
  rewrite !(dered_run h w) by done. do 2 f_equal.
  apply heap_map_twice; [apply Hwf|done].
Qed.

Lemma dered_idempotent_witness :
  well_formed 2 3 sample_2x3 ∧ (dered ;; dered) sample_2x3 = dered sample_2x3.
Proof.
  split; [solve_well_formed|].
  apply (dered_idempotent 2 3 sample_2x3). solve_well_formed.
Defined.

(** ** Pixel-wise and geometric filters commute *)

Lemma pointwise_run pow2 f h w hp img :
  pointwise f = true → well_formed h w (World hp img) →
  ∃ F, (∀ p, pixel_ok p → pixel_ok (F p)) ∧
    ∀ hp' img', well_formed h w (World hp' img') ∨ well_formed w h (World hp' img') →
      run_filter pow2 f (World hp' img')
      = (Done true, World (heap_map F (concat img') hp') img').
Proof.
  intros Hf _. destruct f as [|sepia| | | | | |]; try done; simpl.
  - exists dered_pixel. split; [apply dered_pixel_ok|].
    intros hp' img' [?|?]; by eapply dered_run.
  - exists (mono_pixel sepia). split; [apply mono_pixel_ok|].
    intros hp' img' [?|?]; by eapply mono_run.
Qed.

Lemma geometric_run pow2 g h w hp img :
  geometric g = true → well_formed h w (World hp img) →
  ∃ img', run_filter pow2 g (World hp img) = (Done true, World hp img') ∧
    (well_formed h w (World hp img') ∨ well_formed w h (World hp img')) ∧
    concat img' ≡ₚ concat img ∧
    ∀ hp', length hp' = length hp →
      run_filter pow2 g (World hp' img) = (Done true, World hp' img').
Proof.
  intros Hg Hwf. pose proof Hwf as (Hh & Hw & Hrect & _). simpl in Hrect.
  pose proof (geometric_cells_Permutation h w img Hrect) as (Hpf & Hpt & Hpr).
  destruct g as [| |vertical| |to_right| | |]; try done; simpl.
  - exists (flip_cells vertical h w img). split_and!.
    + by apply (flip_run _ _ _ h w).
    + left. by apply flip_well_formed.
    + apply Hpf.
    + intros hp' _. by apply (flip_run _ _ _ h w).
  - exists (transpose_cells h w img). split_and!.
    + by apply (transpose_run _ _ h w).
    + right. by apply transpose_well_formed.
    + apply Hpt.
    + intros hp' _. by apply (transpose_run _ _ h w).
  - exists (rotate_cells to_right h w img). split_and!.
    + by apply (rotate_run _ _ _ h w).
    + right. by apply rotate_well_formed.
    + apply Hpr.
    + intros hp' _. by apply (rotate_run _ _ _ h w).
Qed.

(** X14 — [dered] and [mono] commute with [flip], [transpose] and [rotate]:
    on a well-formed grid, either order gives the same world. *)
Theorem pointwise_geometric_commute pow2 f g h w wd :
  pointwise f = true → geometric g = true → well_formed h w wd →
  (run_filter pow2 f ;; run_filter pow2 g) wd = (run_filter pow2 g ;; run_filter pow2 f) wd.
Proof.
  intros Hf Hg Hwf. pose proof Hwf as (Hwd & _)%well_formed_world. rewrite Hwd in Hwf |- *.
  set (hp := heap wd) in *. set (img := image wd) in *. clearbody hp img. clear Hwd.
  destruct (pointwise_run pow2 f h w hp img Hf Hwf) as (F & HF & Hfrun).
  destruct (geometric_run pow2 g h w hp img Hg Hwf)
    as (img' & Hgrun & Hwf' & Hperm & Hgrun').
  mstep ltac:(apply Hfrun; by left).
  rewrite Hgrun' by apply heap_map_length.
  mstep ltac:(exact Hgrun).
  rewrite Hfrun by done. do 2 f_equal.
  apply heap_map_Permutation; [apply Hwf|done].
Qed.

Lemma pointwise_geometric_commute_witness :
  pointwise (Mono true) = true ∧ geometric (Rotate false) = true ∧
  well_formed 2 3 sample_2x3 ∧
  (run_filter rounded_pow (Mono true) ;; run_filter rounded_pow (Rotate false)) sample_2x3
  = (run_filter rounded_pow (Rotate false) ;; run_filter rounded_pow (Mono true)) sample_2x3.
Proof.
  split; [reflexivity|]. split; [reflexivity|]. split; [solve_well_formed|].
  apply (pointwise_geometric_commute rounded_pow (Mono true) (Rotate false) 2 3 sample_2x3);
    [reflexivity|reflexivity|solve_well_formed].
Defined.

(** ** Averages *)

Lemma sum_over_bounds (l : list Z) (f : Z → Z) a b :
  (∀ x, x ∈ l → a ≤ f x ≤ b) →
  Z.of_nat (length l) * a ≤ sum_over l f ≤ Z.of_nat (length l) * b.
Proof.
  unfold sum_over. induction l as [|x l IH]; intros H; simpl length; simpl foldr; [lia|].
  assert (a ≤ f x ≤ b) by (apply H; left).
  destruct IH as [? ?]; [intros; apply H; by right|]. lia.
Qed.

Lemma sum_over2_bounds (l1 l2 : list Z) (f : Z → Z → Z) a b :
  (∀ i j, i ∈ l1 → j ∈ l2 → a ≤ f i j ≤ b) →
  let n := Z.of_nat (length l1) * Z.of_nat (length l2) in
  n * a ≤ sum_over l1 (λ i, sum_over l2 (f i)) ≤ n * b.
Proof.
  intros H. cbv zeta.
  destruct (sum_over_bounds l1 (λ i, sum_over l2 (f i))
              (Z.of_nat (length l2) * a) (Z.of_nat (length l2) * b)) as [? ?]; [|lia].
  intros i Hi. apply sum_over_bounds. intros j Hj. by apply H.
Qed.

Lemma sum_over2_const (l1 l2 : list Z) (f : Z → Z → Z) v :
  (∀ i j, i ∈ l1 → j ∈ l2 → f i j = v) →
  sum_over l1 (λ i, sum_over l2 (f i)) = Z.of_nat (length l1) * Z.of_nat (length l2) * v.
Proof.
  intros H. destruct (sum_over2_bounds l1 l2 f v v) as [? ?]; [|lia].
  intros i j Hi Hj. rewrite H by done. lia.
Qed.

(** The truncated mean of values between 0 and 255 is between 0 and 255. *)
Lemma mean_channel s n : 0 < n → n * 0 ≤ s ≤ n * 255 → 0 ≤ s `div` n ≤ 255.
Proof.
  intros Hn Hs. split; [apply Z.div_pos; lia|].
  apply Z.div_le_upper_bound; lia.
Qed.

(** ** blur *)

Lemma blur_totals_ok h w wd radius (r c : nat) :
  well_formed h w wd → 0 ≤ radius → (r < h)%nat → (c < w)%nat →
  pixel_ok (average_pixel (blur_totals wd h w radius r c)).
Proof.
  intros Hwf Hradius Hr Hc. rewrite blur_totals_sums. cbv zeta. unfold average_pixel.
  set (l := range (- radius) (radius + 1)).
  assert (0 < Z.of_nat (length l) * Z.of_nat (length l)) as Hn.
  { unfold l. rewrite range_length by lia. nia. }
  assert (∀ i j, pixel_ok (pixel_of wd (Z.max 0 (Z.min (Z.of_nat r + i) (Z.of_nat h - 1)))
                                       (Z.max 0 (Z.min (Z.of_nat c + j) (Z.of_nat w - 1))))) as Hok.
  { intros i j. apply (pixel_of_ok h w); [done|lia..]. }
  unfold pixel_ok. simpl.
  split_and!; apply mean_channel; try done;
    apply (sum_over2_bounds l l (λ i j, _ (pixel_of wd _ _)) 0 255); intros i j _ _;
    destruct (Hok i j) as (? & ? & ? & ?); done.
Qed.

(** X15 — [blur] with a radius that is not negative turns a well-formed grid
    into a well-formed grid: every cell holds a new object of its own, with
    channels from 0 to 255. *)
Theorem blur_well_formed h w wd radius :
  well_formed h w wd → 0 ≤ radius →
  ∃ wd', blur radius wd = (Done true, wd') ∧ well_formed h w wd' ∧
    ∀ x, x ∈ refs wd' → (length (heap wd) ≤ x)%nat.
Proof.
  intros Hwf Hradius. pose proof Hwf as (Hwd & Hrect & Hh & Hw)%well_formed_world.
  rewrite Hwd in Hwf |- *. set (hp := heap wd) in *. set (img := image wd) in *.
  clearbody hp img. clear Hwd.
  eexists. split.
  { apply (blur_run _ _ h w); [done..|by eapply well_formed_allocated|done]. }
  unfold well_formed, refs. simpl. split_and!; [done|done|apply tabulate_rect| | |].
  - apply tabulate_NoDup. intros r c r' c' Hr Hc Hr' Hc' Heq.
    assert (r = r') by nia. subst r'. split; [done|lia].
  - apply Forall_forall. intros x (r & c & Hr & Hc & <-)%tabulate_elem_of.
    exists (average_pixel (blur_totals (World hp img) h w radius r c)).
    split; [|by apply blur_totals_ok].
    pose proof (pixel_at_blurred hp h w
      (λ r c, average_pixel (blur_totals (World hp img) h w radius r c)) r c Hr Hc) as Hat.
    unfold pixel_at in Hat. simpl in Hat. rewrite tabulate_lookup2 in Hat by done. done.
  - intros x (r & c & Hr & Hc & <-)%tabulate_elem_of. lia.
Qed.

Lemma blur_well_formed_witness :
  well_formed 2 3 sample_2x3 ∧ 0 ≤ 1 ∧
  ∃ wd', blur 1 sample_2x3 = (Done true, wd') ∧ well_formed 2 3 wd' ∧
    ∀ x, x ∈ refs wd' → (length (heap sample_2x3) ≤ x)%nat.
Proof.
  split; [solve_well_formed|]. split; [lia|].
  apply (blur_well_formed 2 3 sample_2x3 1); [solve_well_formed|lia].
Defined.

(** X16 — [blur] leaves a grid of one colour as it looks: if every cell shows
    the pixel [p], every cell shows [p] after the call, whatever the radius
    from 0 on. *)
Theorem blur_uniform h w wd radius p :
  rect h w (image wd) → (0 < h)%nat → 0 ≤ radius →
  (∀ r c, (r < h)%nat → (c < w)%nat → pixel_at wd r c = Some p) →
  ∃ wd', blur radius wd = (Done true, wd') ∧
    ∀ r c, (r < h)%nat → (c < w)%nat → pixel_at wd' r c = Some p.
Proof.
  intros Hrect Hh Hradius Hall. destruct wd as [hp img]. simpl in *.
  eexists. split.
  { apply (blur_run _ _ h w); [done..| |done].
    intros x (r & c & Hr & Hc & <-)%(rect_elem_of_cell 0%nat h w); [|done].
    specialize (Hall r c Hr Hc). rewrite (pixel_at_cell img h w) in Hall by done.
    by eexists. }
  intros r c Hr Hc. rewrite pixel_at_blurred by done. f_equal.
  rewrite blur_totals_sums. cbv zeta. unfold average_pixel.
  set (l := range (- radius) (radius + 1)).
  assert (0 < Z.of_nat (length l) * Z.of_nat (length l)) as Hn.
  { unfold l. rewrite range_length by lia. nia. }
  assert (∀ i j, pixel_of (World hp img) (Z.max 0 (Z.min (Z.of_nat r + i) (Z.of_nat h - 1)))
                          (Z.max 0 (Z.min (Z.of_nat c + j) (Z.of_nat w - 1))) = p) as Hp.
  { intros i j. unfold pixel_of. rewrite Hall by lia. done. }
  assert (∀ ch : Pixel → Z,
    sum_over l (λ i, sum_over l (λ j,
      ch (pixel_of (World hp img) (Z.max 0 (Z.min (Z.of_nat r + i) (Z.of_nat h - 1)))
                                  (Z.max 0 (Z.min (Z.of_nat c + j) (Z.of_nat w - 1))))))
    `div` (Z.of_nat (length l) * Z.of_nat (length l)) = ch p) as Hmean.
  { intros ch.
    rewrite (sum_over2_const l l (λ i j, ch (pixel_of (World hp img)
      (Z.max 0 (Z.min (Z.of_nat r + i) (Z.of_nat h - 1)))
      (Z.max 0 (Z.min (Z.of_nat c + j) (Z.of_nat w - 1))))) (ch p)).
    - rewrite Z.mul_comm. apply Z.div_mul. lia.
    - intros i j _ _. by rewrite Hp. }
  rewrite (Hmean red), (Hmean green), (Hmean blue), (Hmean alpha). by destruct p.
Qed.

Lemma blur_uniform_witness :
  rect 2 2 (image uniform_2x2) ∧ (0 < 2)%nat ∧ 0 ≤ 3 ∧
  (∀ r c, (r < 2)%nat → (c < 2)%nat → pixel_at uniform_2x2 r c = Some (RGB 10 20 30 40)) ∧
  ∃ wd', blur 3 uniform_2x2 = (Done true, wd') ∧
    ∀ r c, (r < 2)%nat → (c < 2)%nat → pixel_at wd' r c = Some (RGB 10 20 30 40).
Proof.
  assert (rect 2 2 (image uniform_2x2)) as Hrect by (split; [reflexivity|repeat constructor]).
  assert (∀ r c, (r < 2)%nat → (c < 2)%nat →
            pixel_at uniform_2x2 r c = Some (RGB 10 20 30 40)) as Hall.
  { intros [|[|r]] [|[|c]] Hr Hc; (reflexivity || lia). }
  split; [exact Hrect|]. split; [lia|]. split; [lia|]. split; [exact Hall|].
  apply (blur_uniform 2 2 uniform_2x2 3 _ Hrect); [lia|lia|exact Hall].
Defined.

(** ** pixellate *)

Lemma pixellate_pixel_ok h w wd step (r c : nat) :
  well_formed h w wd → 0 < step → (r < h)%nat → (c < w)%nat →
  pixel_ok (pixellate_pixel wd h w step r c).
Proof.
  intros Hwf Hstep Hr Hc. rewrite <- average_pixel_block by done.
  pose proof (block_origin_bounds step (Z.of_nat r) Hstep) as Hbr.
  pose proof (block_origin_bounds step (Z.of_nat c) Hstep) as Hbc.
  pose proof (block_origin_nonneg step (Z.of_nat r) Hstep) as Hnr.
  pose proof (block_origin_nonneg step (Z.of_nat c) Hstep) as Hnc.
  rewrite block_totals_sums. cbv zeta. unfold average_pixel.
  set (R := block_origin step (Z.of_nat r)) in *.
  set (C := block_origin step (Z.of_nat c)) in *.
  set (l1 := range 0 (Z.min step (Z.of_nat h - R))).
  set (l2 := range 0 (Z.min step (Z.of_nat w - C))).
  assert (0 < Z.of_nat (length l1) * Z.of_nat (length l2)) as Hn.
  { unfold l1, l2. rewrite !range_length by lia. nia. }
  assert (∀ i j, i ∈ l1 → j ∈ l2 → pixel_ok (pixel_of wd (R + i) (C + j))) as Hok.
  { intros i j Hi%elem_of_range Hj%elem_of_range. apply (pixel_of_ok h w); [done|lia..]. }
  unfold pixel_ok. simpl.
  split_and!; apply mean_channel; try done;
    apply (sum_over2_bounds l1 l2 (λ i j, _ (pixel_of wd _ _)) 0 255); intros i j Hi Hj;
    destruct (Hok i j Hi Hj) as (? & ? & ? & ?); done.
Qed.

Lemma pixellate_run_well_formed h w hp img step :
  well_formed h w (World hp img) → 0 < step →
  ∃ hp', pixellate step (World hp img) = (Done true, World hp' img) ∧
    well_formed h w (World hp' img) ∧
    ∀ r c, (r < h)%nat → (c < w)%nat →
      pixel_at (World hp' img) r c = Some (pixellate_pixel (World hp img) h w step r c).
Proof.
  intros Hwf Hstep. pose proof Hwf as (Hh & Hw & Hrect & Hnd & Hall). simpl in *.
  destruct (pixellate_run h w hp img step Hwf Hstep) as (hp' & Hrun & Hlen & Hcells).
  exists hp'. split; [done|]. split.
  - unfold well_formed, refs in *. simpl in *. split_and!; [done..|].
    apply Forall_forall.
    intros x (r & c & Hr & Hc & <-)%(rect_elem_of_cell 0%nat h w); [|done].
    eexists. split; [by apply Hcells|]. by apply pixellate_pixel_ok.
  - intros r c Hr Hc. rewrite (pixel_at_cell img h w) by done. by apply Hcells.
Qed.

(** X17 — [pixellate] with a step above 0 turns a well-formed grid into a
    well-formed grid: the same objects in the same cells, with channels from
    0 to 255. *)
Theorem pixellate_well_formed h w wd step :
  well_formed h w wd → 0 < step →
  ∃ wd', pixellate step wd = (Done true, wd') ∧ image wd' = image wd ∧ well_formed h w wd'.
Proof.
  intros Hwf Hstep. pose proof Hwf as (Hwd & _)%well_formed_world. rewrite Hwd in Hwf |- *.
  set (hp := heap wd) in *. set (img := image wd) in *. clearbody hp img. clear Hwd.
  destruct (pixellate_run_well_formed h w hp img step Hwf Hstep) as (hp' & Hrun & Hwf' & _).
  by exists (World hp' img).
Qed.

Lemma pixellate_well_formed_witness :
  well_formed 2 3 sample_2x3 ∧ 0 < 2 ∧
  ∃ wd', pixellate 2 sample_2x3 = (Done true, wd') ∧ image wd' = image sample_2x3 ∧
    well_formed 2 3 wd'.
Proof.
  split; [solve_well_formed|]. split; [lia|].
  apply (pixellate_well_formed 2 3 sample_2x3 2); [solve_well_formed|lia].
Defined.

(** The specified pixel of a cell, when every cell of its block shows the
    same pixel. *)
Lemma pixellate_pixel_const h w wd step (r c : nat) v :
  0 < step → (r < h)%nat → (c < w)%nat →
  (∀ i j : nat, (i < h)%nat → (j < w)%nat →
     block_origin step (Z.of_nat i) = block_origin step (Z.of_nat r) →
     block_origin step (Z.of_nat j) = block_origin step (Z.of_nat c) →
     pixel_at wd i j = Some v) →
  pixellate_pixel wd h w step r c = v.
Proof.
  intros Hstep Hr Hc Hall.
  pose proof (block_origin_bounds step (Z.of_nat r) Hstep) as Hbr.
  pose proof (block_origin_bounds step (Z.of_nat c) Hstep) as Hbc.
  pose proof (block_origin_nonneg step (Z.of_nat r) Hstep) as Hnr.
  pose proof (block_origin_nonneg step (Z.of_nat c) Hstep) as Hnc.
  pose proof (block_origin_mod step (Z.of_nat r) Hstep) as Hmr.
  pose proof (block_origin_mod step (Z.of_nat c) Hstep) as Hmc.
  unfold pixellate_pixel, block_limit. cbv zeta.
  set (R := block_origin step (Z.of_nat r)) in *.
  set (C := block_origin step (Z.of_nat c)) in *.
  set (l1 := range R (Z.min (R + step) (Z.of_nat h))).
  set (l2 := range C (Z.min (C + step) (Z.of_nat w))).
  assert (Z.of_nat (length l1) = Z.min (R + step) (Z.of_nat h) - R) as Hl1
    by (unfold l1; rewrite range_length; lia).
  assert (Z.of_nat (length l2) = Z.min (C + step) (Z.of_nat w) - C) as Hl2
    by (unfold l2; rewrite range_length; lia).
  rewrite <- Hl1, <- Hl2.
  assert (∀ i j, i ∈ l1 → j ∈ l2 → pixel_of wd i j = v) as Hv.
  { intros i j Hi%elem_of_range Hj%elem_of_range. unfold pixel_of.
    rewrite (Hall (Z.to_nat i) (Z.to_nat j)); [done|lia|lia|..]; rewrite Z2Nat.id by lia;
      apply block_origin_unique; (done || lia). }
  assert (∀ ch : Pixel → Z,
    sum_over l1 (λ i, sum_over l2 (λ j, ch (pixel_of wd i j)))
    `quot` (Z.of_nat (length l1) * Z.of_nat (length l2)) = ch v) as Hmean.
  { intros ch. rewrite (sum_over2_const l1 l2 (λ i j, ch (pixel_of wd i j)) (ch v)).
    - rewrite Z.mul_comm. apply Z.quot_mul. nia.
    - intros i j Hi Hj. by rewrite Hv. }
  rewrite (Hmean red), (Hmean green), (Hmean blue), (Hmean alpha). by destruct v.
Qed.

(** X18 — [pixellate] with step 1 leaves every pixel of a well-formed grid as
    it was: a block of one cell averages to itself. *)
Theorem pixellate_step_one h w wd :
  well_formed h w wd →
  ∃ wd', pixellate 1 wd = (Done true, wd') ∧ image wd' = image wd ∧
    ∀ r c, (r < h)%nat → (c < w)%nat → pixel_at wd' r c = pixel_at wd r c.
Proof.
  intros Hwf. pose proof Hwf as (Hwd & _)%well_formed_world. rewrite Hwd in Hwf |- *.
  set (hp := heap wd) in *. set (img := image wd) in *. clearbody hp img. clear Hwd.
  destruct (pixellate_run_well_formed h w hp img 1 Hwf) as (hp' & Hrun & _ & Hcells); [lia|].
  exists (World hp' img). split_and!; [done..|].
  intros r c Hr Hc. rewrite Hcells by done.
  destruct (pixel_at_well_formed h w (World hp img) r c) as (p & Hp & _); [done..|].
  rewrite Hp. f_equal. apply pixellate_pixel_const; [lia|done..|].
  intros i j _ _ Hi Hj. unfold block_origin in Hi, Hj. rewrite !Z.div_1_r in Hi, Hj.
  by replace i with r by lia; replace j with c by lia.
Qed.

Lemma pixellate_step_one_witness :
  well_formed 2 3 sample_2x3 ∧
  ∃ wd', pixellate 1 sample_2x3 = (Done true, wd') ∧ image wd' = image sample_2x3 ∧
    ∀ r c, (r < 2)%nat → (c < 3)%nat → pixel_at wd' r c = pixel_at sample_2x3 r c.
Proof.
  split; [solve_well_formed|].
  apply (pixellate_step_one 2 3 sample_2x3). solve_well_formed.
Defined.

(** X19 — [pixellate] is idempotent on a well-formed grid: a second call with
    the same step leaves every pixel as the first call made it. *)
Theorem pixellate_idempotent h w wd step :
  well_formed h w wd → 0 < step →
  ∃ wd1 wd2,
    pixellate step wd = (Done true, wd1) ∧
    (pixellate step ;; pixellate step) wd = (Done true, wd2) ∧
    image wd2 = image wd1 ∧
    ∀ r c, (r < h)%nat → (c < w)%nat → pixel_at wd2 r c = pixel_at wd1 r c.
Proof.
  intros Hwf Hstep. pose proof Hwf as (Hwd & _)%well_formed_world. rewrite Hwd in Hwf |- *.
  set (hp := heap wd) in *. set (img := image wd) in *. clearbody hp img. clear Hwd.
  destruct (pixellate_run_well_formed h w hp img step Hwf Hstep) as (hp1 & Hrun1 & Hwf1 & Hc1).
  destruct (pixellate_run_well_formed h w hp1 img step Hwf1 Hstep) as (hp2 & Hrun2 & _ & Hc2).
  exists (World hp1 img), (World hp2 img). split_and!; [done| |done|].
  - by mstep ltac:(exact Hrun1).
  - intros r c Hr Hc. rewrite Hc2, Hc1 by done. f_equal.
    apply pixellate_pixel_const; [done..|].
    intros i j Hi Hj Hbi Hbj. rewrite Hc1 by done. f_equal.
    by apply pixellate_pixel_block.
Qed.

Lemma pixellate_idempotent_witness :
  well_formed 2 4 sample_2x4 ∧ 0 < 3 ∧
  ∃ wd1 wd2,
    pixellate 3 sample_2x4 = (Done true, wd1) ∧
    (pixellate 3 ;; pixellate 3) sample_2x4 = (Done true, wd2) ∧
    image wd2 = image wd1 ∧
    ∀ r c, (r < 2)%nat → (c < 4)%nat → pixel_at wd2 r c = pixel_at wd1 r c.
Proof.
  split; [solve_well_formed|]. split; [lia|].
  apply (pixellate_idempotent 2 4 sample_2x4 3); [solve_well_formed|lia].
Defined.

(** X20 — [pixellate] with a step that is at least the height and the width
    makes the whole grid one block: every cell shows the truncated means of
    the four channels over the grid. *)
Theorem pixellate_one_block h w wd step :
  well_formed h w wd → Z.of_nat h ≤ step → Z.of_nat w ≤ step →
  ∃ wd', pixellate step wd = (Done true, wd') ∧ image wd' = image wd ∧
    ∀ r c, (r < h)%nat → (c < w)%nat → pixel_at wd' r c = Some (grid_mean wd h w).
Proof.
  intros Hwf Hsh Hsw. pose proof Hwf as (Hwd & _ & Hh & Hw)%well_formed_world.
  rewrite Hwd in Hwf |- *. set (hp := heap wd) in *. set (img := image wd) in *.
  clearbody hp img. clear Hwd.
  destruct (pixellate_run_well_formed h w hp img step Hwf) as (hp' & Hrun & _ & Hcells); [lia|].
  exists (World hp' img). split_and!; [done..|].
  intros r c Hr Hc. rewrite Hcells by done. f_equal.
  unfold pixellate_pixel, grid_mean, block_limit, block_origin.
  rewrite !Z.div_small by lia. rewrite !Z.mul_0_r, !Z.add_0_l, !Z.min_r by lia.
  by rewrite !Z.sub_0_r.
Qed.

Lemma pixellate_one_block_witness :
  well_formed 2 3 sample_2x3 ∧ Z.of_nat 2 ≤ 5 ∧ Z.of_nat 3 ≤ 5 ∧
  ∃ wd', pixellate 5 sample_2x3 = (Done true, wd') ∧ image wd' = image sample_2x3 ∧
    ∀ r c, (r < 2)%nat → (c < 3)%nat → pixel_at wd' r c = Some (grid_mean sample_2x3 2 3).
Proof.
  split; [solve_well_formed|]. split; [lia|]. split; [lia|].
  apply (pixellate_one_block 2 3 sample_2x3 5); [solve_well_formed|lia|lia].
Defined.

(** X21 — [vignette] leaves a fully opaque image exactly as it was: only a
    pixel whose alpha is below 255 is darkened, so when every cell has alpha
    255 no object of the store changes.  The factor of every cell is computed
    all the same, so the square of the platform has to be regular. *)
Theorem vignette_opaque pow2 h w wd :
  regular_pow pow2 →
  well_formed h w wd → (1 < h ∨ 1 < w)%nat →
  Z.of_nat h < 2 ^ 400 → Z.of_nat w < 2 ^ 400 →
  (∀ r c p, (r < h)%nat → (c < w)%nat → pixel_at wd r c = Some p → alpha p = 255) →
  vignette pow2 wd = (Done true, wd).
Proof.
  intros Hpow Hwf Hbig Hh Hw Hopaque. pose proof Hwf as (Hwd & _)%well_formed_world.
  rewrite Hwd in Hwf, Hopaque |- *.
  set (hp := heap wd) in *. set (img := image wd) in *. clearbody hp img. clear Hwd.
  pose proof Hwf as (_ & _ & Hrect & _).  simpl in Hrect.
  destruct (vignette_run pow2 h w hp img Hpow Hwf Hbig Hh Hw)
    as (hp' & Hrun & _ & Hin & Hout).
  rewrite Hrun. do 2 f_equal. apply list_eq. intros x.
  destruct (decide (x ∈ concat img)) as [Hx|Hx]; [|by apply Hout].
  rewrite <- (cells_concat h w img Hrect) in Hx.
  apply list_elem_of_fmap in Hx as ([a b] & -> & [Ha Hb]%elem_of_pairs).
  apply elem_of_range in Ha, Hb. simpl.
  rewrite Hin by lia.
  destruct (pixel_at_well_formed h w (World hp img) (Z.to_nat a) (Z.to_nat b))
    as (p & Hp & _ & Hcell); [done|lia..|]. simpl in Hcell.
  rewrite Hcell. simpl. f_equal. unfold vignette_pixel.
  rewrite (Hopaque (Z.to_nat a) (Z.to_nat b) p) by (done || lia).
  by rewrite decide_False by lia.
Qed.

Lemma vignette_opaque_witness :
  regular_pow rounded_pow ∧
  well_formed 2 2 opaque_2x2 ∧ (1 < 2 ∨ 1 < 2)%nat ∧
  Z.of_nat 2 < 2 ^ 400 ∧ Z.of_nat 2 < 2 ^ 400 ∧
  (∀ r c p, (r < 2)%nat → (c < 2)%nat →
     pixel_at opaque_2x2 r c = Some p → alpha p = 255) ∧
  vignette rounded_pow opaque_2x2 = (Done true, opaque_2x2).
Proof.
  assert (well_formed 2 2 opaque_2x2) as Hwf by solve_well_formed.
  assert (∀ r c p, (r < 2)%nat → (c < 2)%nat →
     pixel_at opaque_2x2 r c = Some p → alpha p = 255) as Hopaque.
  { intros r c p Hr Hc.
    destruct r as [|[|r]], c as [|[|c]]; try lia; intros [= <-]; reflexivity. }
  split; [exact regular_rounded_pow|].
  split; [solve_well_formed|]. split; [lia|]. split; [lia|]. split; [lia|].
  split; [exact Hopaque|].
  apply (vignette_opaque rounded_pow 2 2 opaque_2x2 regular_rounded_pow Hwf);
    [lia|lia|lia|exact Hopaque].
Defined.

(** * The debugging printer *)

Lemma io_bind_done {A B} (m : IO A) (k : A → IO B) s a s' :
  m s = (Done a, s') → (m ≫= k) s = k a s'.
Proof. intros H. unfold mbind, IO_bind. by rewrite H. Qed.

Lemma io_bind_raise {A B} (m : IO A) (k : A → IO B) s e s' :
  m s = (Raise e, s') → (m ≫= k) s = (Raise e, s').
Proof. intros H. unfold mbind, IO_bind. by rewrite H. Qed.

Lemma run_done {A} (m : M A) out wd a wd' :
  m wd = (Done a, wd') → run m (out, wd) = (Done a, (out, wd')).
Proof. intros H. unfold run. simpl. by rewrite H. Qed.

Lemma run_raise {A} (m : M A) out wd e wd' :
  m wd = (Raise e, wd') → run m (out, wd) = (Raise e, (out, wd')).
Proof. intros H. unfold run. simpl. by rewrite H. Qed.

Lemma print_run text out wd : print text (out, wd) = (Done (), (out ++ [text], wd)).
Proof. reflexivity. Qed.

Ltac iostep tac := erewrite io_bind_done; [|solve [tac]].

Lemma io_fold_pure {A B} (l : list A) (step : B → A → B) body acc s :
  (∀ x acc, x ∈ l → body x acc s = (Done (step acc x), s)) →
  io_fold l acc body s = (Done (foldl step acc l), s).
Proof.
  revert acc. induction l as [|x l IH]; intros acc H; simpl; [reflexivity|].
  erewrite io_bind_done by (apply H; left). apply IH. intros. apply H. by right.
Qed.

(** A loop whose body only prints. *)
Lemma io_for_prints {A} (l : list A) (lines : A → list string) body wd out :
  (∀ x out, x ∈ l → body x (out, wd) = (Done (), (out ++ lines x, wd))) →
  io_for l body (out, wd) = (Done (), (out ++ (l ≫= lines), wd)).
Proof.
  unfold io_for. revert out. induction l as [|x l IH]; intros out H; simpl.
  - by rewrite app_nil_r.
  - erewrite io_bind_done by (apply H; left).
    rewrite IH by (intros; apply H; by right). by rewrite app_assoc.
Qed.

Lemma foldl_max {A} (f : A → Z) (l : list A) acc :
  0 ≤ acc → foldl (λ m x, Z.max m (f x)) acc l = Z.max acc (foldr Z.max 0 (f <$> l)).
Proof.
  revert acc. induction l as [|x l IH]; intros acc Hacc.
  - cbn [foldl fmap list_fmap foldr]. lia.
  - rewrite fmap_cons. cbn [foldl foldr]. rewrite IH by lia. lia.
Qed.

Lemma foldl_concat {A B} (step : B → A → B) (ll : list (list A)) acc :
  foldl (λ m row, foldl step m row) acc ll = foldl step acc (concat ll).
Proof.
  revert acc. induction ll as [|row ll IH]; intros acc; simpl; [done|].
  by rewrite IH, foldl_app.
Qed.

Lemma foldr_max_nonneg (l : list Z) : 0 ≤ foldr Z.max 0 l.
Proof. induction l; cbn [foldr]; lia. Qed.

Lemma foldr_max_elem_of (l : list Z) x : x ∈ l → x ≤ foldr Z.max 0 l.
Proof.
  induction l as [|y l IH]; [by intros ?%elem_of_nil|].
  intros [->|Hx%IH]%elem_of_cons; cbn [foldr]; lia.
Qed.

Lemma str_len_app s1 s2 : str_len (s1 +:+ s2) = str_len s1 + str_len s2.
Proof.
  unfold str_len. induction s1 as [|a s1 IH]; [done|].
  change (String a s1 +:+ s2) with (String a (s1 +:+ s2)).
  cbn [String.length]. lia.
Qed.

Lemma str_len_mul_space n : str_len (str_mul " " n) = Z.max 0 n.
Proof.
  unfold str_mul. replace (Z.max 0 n) with (Z.of_nat (Z.to_nat n)) by lia.
  induction (Z.to_nat n) as [|k IH]; [done|].
  cbn [str_repeat]. rewrite str_len_app, IH. change (str_len " ") with 1. lia.
Qed.

Lemma elem_of_concat_row {A} (x : A) (row : list A) (ll : list (list A)) :
  x ∈ row → row ∈ ll → x ∈ concat ll.
Proof.
  intros Hx. induction ll as [|row' ll IH]; [by intros ?%elem_of_nil|].
  simpl. rewrite elem_of_app. intros [->|Hrow%IH]%elem_of_cons; [by left|by right].
Qed.

(** The first loop finds the widest text. *)
Lemma widest_run repr hp img out :
  Forall (λ x, is_Some (hp !! x)) (concat img) →
  io_fold img 0 (λ row maxsize,
    io_fold row maxsize (λ pixel maxsize,
      p ← run (load pixel);
      let text := repr p in
      mret (if decide (str_len text > maxsize) then str_len text else maxsize)))
    (out, World hp img)
  = (Done (widest repr (World hp img)), (out, World hp img)).
Proof.
  intros Hall. rewrite Forall_forall in Hall.
  set (f := λ x : ref, str_len (repr (default (RGB 0 0 0 0) (hp !! x)))).
  rewrite (io_fold_pure img (λ m row, foldl (λ m x, Z.max m (f x)) m row)).
  - rewrite foldl_concat, foldl_max by lia.
    unfold widest, refs. simpl. fold f.
    pose proof (foldr_max_nonneg (f <$> concat img)). do 2 f_equal. lia.
  - intros row acc Hrow.
    apply (io_fold_pure row (λ m x, Z.max m (f x))). intros x m Hx.
    destruct (Hall x) as [p Hp].
    { by apply (elem_of_concat_row x row). }
    iostep ltac:(apply run_done, load_run, Hp). cbv zeta.
    unfold f. rewrite Hp. simpl. unfold mret, IO_ret. do 2 f_equal.
    case_decide; lia.
Qed.

Lemma bind_singleton_fmap {A B} (F : A → B) (l : list A) : l ≫= (λ c, [F c]) = F <$> l.
Proof. induction l as [|c l IH]; [done|]. by rewrite bind_cons, fmap_cons, IH. Qed.

(** The lines of a grid, row by row. *)
Lemma display_run repr h w hp img out :
  rect h w img → (0 < h)%nat → Forall (λ x, is_Some (hp !! x)) (concat img) →
  display repr (out, World hp img) =
    (Done (),
     (out ++ "" ::
        ((λ rc : Z * Z,
            display_text (widest repr (World hp img)) (Z.of_nat h) (Z.of_nat w) rc.1 rc.2
              (repr (pixel_of (World hp img) rc.1 rc.2)))
         <$> pairs (range 0 (Z.of_nat h)) (range 0 (Z.of_nat w))),
      World hp img)).
Proof.
  intros Hrect Hh Hall.
  destruct (rect_dims h w img Hrect Hh) as (Hlen & row0 & Hrow0 & Hlen0).
  unfold display.
  iostep ltac:(apply run_done, len_image_run).
  iostep ltac:(apply run_done, (image_row_run hp img 0%nat row0 Hrow0)).
  cbv zeta. iostep ltac:(apply run_done, get_image_run).
  iostep ltac:(by apply widest_run).
  iostep ltac:(apply print_run).
  rewrite Hlen, Hlen0.
  set (maxsize := widest repr (World hp img)).
  rewrite (io_for_prints _ (λ r, (λ c,
    display_text maxsize (Z.of_nat h) (Z.of_nat w) r c (repr (pixel_of (World hp img) r c)))
      <$> range 0 (Z.of_nat w))).
  - rewrite <- app_assoc. simpl. do 4 f_equal.
    unfold pairs. generalize (range 0 (Z.of_nat h)). intros l.
    induction l as [|r l IH]; [done|].
    by rewrite !bind_cons, fmap_app, <- list_fmap_compose, IH.
  - intros r out' Hr%elem_of_range.
    destruct (rect_lookup h w img (Z.to_nat r) Hrect) as (row & Hrow & Hlenrow); [lia|].
    iostep ltac:(apply run_done; rewrite <- (Z2Nat.id r) by lia; apply image_row_run, Hrow).
    rewrite (io_for_prints _ (λ c,
      [display_text maxsize (Z.of_nat h) (Z.of_nat w) r c (repr (pixel_of (World hp img) r c))])).
    + by rewrite bind_singleton_fmap.
    + intros c out'' Hc%elem_of_range.
      destruct (lookup_lt_is_Some_2 row (Z.to_nat c)) as [x Hx]; [lia|].
      rewrite Forall_forall in Hall. destruct (Hall x) as [p Hp].
      { apply (elem_of_concat_row x row); by eapply list_elem_of_lookup_2. }
      assert (pixel_of (World hp img) r c = p) as ->.
      { unfold pixel_of, pixel_at. simpl. by rewrite Hrow; simpl; rewrite Hx; simpl; rewrite Hp. }
      iostep ltac:(apply run_done; rewrite <- (Z2Nat.id c) by lia; rewrite getitem_nat, Hx;
                   reflexivity).
      iostep ltac:(apply run_done, load_run, Hp).
      apply print_run.
Qed.

Lemma lines_lookup {A} h w (F : Z → Z → A) r c :
  (r < h)%nat → (c < w)%nat →
  ((λ rc : Z * Z, F rc.1 rc.2) <$> pairs (range 0 (Z.of_nat h)) (range 0 (Z.of_nat w)))
    !! (r * w + c)%nat = Some (F (Z.of_nat r) (Z.of_nat c)).
Proof.
  intros Hr Hc. rewrite (pairs_fmap_concat F), !range_nat, <- list_fmap_compose.
  assert ((λ a, F a <$> (Z.of_nat <$> seq 0 w)) ∘ Z.of_nat <$> seq 0 h
          = tabulate h w (λ r c, F (Z.of_nat r) (Z.of_nat c))) as ->.
  { unfold tabulate. apply list_fmap_ext. intros _ a _. simpl.
    by rewrite <- list_fmap_compose. }
  rewrite (rect_concat_lookup h w) by (done || apply tabulate_rect).
  by apply (tabulate_lookup2 h w (λ r c, F (Z.of_nat r) (Z.of_nat c))).
Qed.

Lemma pairs_length {A B} (l1 : list A) (l2 : list B) :
  length (pairs l1 l2) = (length l1 * length l2)%nat.
Proof.
  unfold pairs. induction l1 as [|a l1 IH]; [done|].
  rewrite bind_cons, length_app, length_fmap, IH. simpl. lia.
Qed.

Lemma lines_length {A} h w (F : Z * Z → A) :
  length (F <$> pairs (range 0 (Z.of_nat h)) (range 0 (Z.of_nat w))) = (h * w)%nat.
Proof. by rewrite length_fmap, pairs_length, !range_nat, !length_fmap, !length_seq. Qed.

(** The length of the line that ends a row. *)
Lemma display_text_row_end maxsize height width pos1 middle :
  str_len middle ≤ maxsize →
  str_len (display_text maxsize height width pos1 (width - 1) middle)
  = maxsize + (if decide (pos1 = height - 1) then 11 else 9).
Proof.
  intros Hmax. unfold display_text. cbv zeta.
  assert (∀ (b1 b2 : Prop) `{Decision b1, Decision b2},
    str_len (if decide b1 then "[  [  " else if decide b2 then "   [  " else "      ") = 6)
    as Hprefix by (intros; repeat case_decide; reflexivity).
  rewrite !str_len_app, Hprefix.
  destruct (decide (pos1 = height - 1)) as [->|Hne].
  - rewrite decide_True by done.
    rewrite str_len_app, str_len_mul_space. change (str_len " ]  ]") with 5. lia.
  - rewrite decide_False by (intros [? _]; done). rewrite decide_True by done.
    rewrite str_len_app, str_len_mul_space. change (str_len " ],") with 3. lia.
Qed.

(** X22 — [display] returns [None] and leaves the image and its pixels as they
    were; it prints an empty line and then one line for each pixel, row by
    row, each made of a six-character prefix, the text of the pixel and a
    suffix. *)
Theorem display_prints repr h w wd out :
  rect h w (image wd) → (0 < h)%nat → allocated wd →
  display repr (out, wd) =
    (Done (),
     (out ++ "" ::
        ((λ rc : Z * Z,
            display_text (widest repr wd) (Z.of_nat h) (Z.of_nat w) rc.1 rc.2
              (repr (pixel_of wd rc.1 rc.2)))
         <$> pairs (range 0 (Z.of_nat h)) (range 0 (Z.of_nat w))),
      wd)).
Proof.
  destruct wd as [hp img]. intros Hrect Hh Hall. by apply display_run.
Qed.

Lemma display_prints_witness :
  rect 2 3 (image sample_2x3) ∧ (0 < 2)%nat ∧ allocated sample_2x3 ∧
  display sample_repr ([], sample_2x3) =
    (Done (),
     ([] ++ "" ::
        ((λ rc : Z * Z,
            display_text (widest sample_repr sample_2x3) (Z.of_nat 2) (Z.of_nat 3) rc.1 rc.2
              (sample_repr (pixel_of sample_2x3 rc.1 rc.2)))
         <$> pairs (range 0 (Z.of_nat 2)) (range 0 (Z.of_nat 3))),
      sample_2x3)).
Proof.
  assert (rect 2 3 (image sample_2x3)) as Hrect by (split; [reflexivity|repeat constructor]).
  assert (allocated sample_2x3) as Hall by (repeat constructor; by eexists).
  split; [exact Hrect|]. split; [lia|]. split; [exact Hall|].
  apply (display_prints sample_repr 2 3 sample_2x3 [] Hrect); [lia|exact Hall].
Defined.

(** X23 — the lines [display] prints for the last pixels of the rows all have
    the same length, nine more than the longest pixel text (eleven for the
    last row): the closing brackets of the rows are aligned. *)
Theorem display_aligned repr h w wd out :
  rect h w (image wd) → (0 < h)%nat → (0 < w)%nat → allocated wd →
  ∃ lines,
    display repr (out, wd) = (Done (), (out ++ "" :: lines, wd)) ∧
    length lines = (h * w)%nat ∧
    ∀ r, (r < h)%nat → ∃ line,
      lines !! (r * w + (w - 1))%nat = Some line ∧
      str_len line = widest repr wd + (if decide (r = h - 1)%nat then 11 else 9).
Proof.
  destruct wd as [hp img]. intros Hrect Hh Hw Hall. eexists. split_and!.
  - by apply (display_run repr h w).
  - apply lines_length.
  - intros r Hr.
    rewrite (lines_lookup h w (λ r c, display_text (widest repr (World hp img))
      (Z.of_nat h) (Z.of_nat w) r c (repr (pixel_of (World hp img) r c)))) by lia.
    eexists. split; [done|].
    replace (Z.of_nat (w - 1)) with (Z.of_nat w - 1) by lia.
    rewrite display_text_row_end.
    + f_equal. destruct (decide (r = (h - 1)%nat)).
      * by rewrite decide_True by lia.
      * by rewrite decide_False by lia.
    + apply foldr_max_elem_of. unfold refs, pixel_of, pixel_at. simpl.
      rewrite !Nat2Z.id, (rect_lookup2 0%nat h w) by (done || lia). simpl.
      apply (list_elem_of_fmap_2 (λ x, str_len (repr (default (RGB 0 0 0 0) (hp !! x))))).
      apply (rect_cell_elem_of _ h w); (done || lia).
Qed.

Lemma display_aligned_witness :
  rect 2 3 (image sample_2x3) ∧ (0 < 2)%nat ∧ (0 < 3)%nat ∧ allocated sample_2x3 ∧
  ∃ lines,
    display sample_repr ([], sample_2x3) = (Done (), ([] ++ "" :: lines, sample_2x3)) ∧
    length lines = (2 * 3)%nat ∧
    ∀ r, (r < 2)%nat → ∃ line,
      lines !! (r * 3 + (3 - 1))%nat = Some line ∧
      str_len line = widest sample_repr sample_2x3 + (if decide (r = 2 - 1)%nat then 11 else 9).
Proof.
  assert (rect 2 3 (image sample_2x3)) as Hrect by (split; [reflexivity|repeat constructor]).
  assert (allocated sample_2x3) as Hall by (repeat constructor; by eexists).
  split; [exact Hrect|]. split; [lia|]. split; [lia|]. split; [exact Hall|].
  apply (display_aligned sample_repr 2 3 sample_2x3 [] Hrect); [lia|lia|exact Hall].
Defined.

(** X24 — on an image without rows [display] raises [IndexError] before it
    prints anything. *)
Theorem display_no_rows repr wd out :
  image wd = [] → display repr (out, wd) = (Raise IndexError, (out, wd)).
Proof.
  destruct wd as [hp img]. simpl. intros ->. unfold display.
  iostep ltac:(apply run_done, len_image_run).
  apply io_bind_raise. apply run_raise. by apply (image_row_none hp [] 0%nat).
Qed.

Lemma display_no_rows_witness :
  image (World [] []) = [] ∧
  display sample_repr ([], World [] []) = (Raise IndexError, ([], World [] [])).
Proof.
  split; [reflexivity|]. apply (display_no_rows sample_repr (World [] []) []). reflexivity.
Defined.
